(** * mungpy: the Adagrad optimizer with L1 proximal updates, and
      configuration-driven training

    A shallow embedding of
    - [src/main/py/mung/torch_ext/optim.py]  (class [Adagrad]) and
    - [src/main/py/mung/config/torch_ext/learn.py]  ([train_from_config]).

    Python objects that are mutated in place (parameters, the optimizer's
    per-parameter state dict) live in an explicit store that is threaded
    through a state-and-exception monad.  Numbers are kept abstract behind
    the [Scalar] interface, so that one definition of [step] can be run on
    binary64 floats and reasoned about on the real numbers. *)

From Stdlib Require Import PrimFloat Uint63.
From Stdlib Require Import ZArith List Bool Ascii String Reals Lra Lia Permutation.
From stdpp Require Import gmap strings list.

Set Default Proof Using "Type".

(** ** Scalars

    Everything the optimizer does with a number: Python ints are injected
    with [of_Z], [eps] is the literal [1e-10], [nonzero x] is the test
    [x != 0].  One scalar type stands both for Python floats (the
    hyper-parameters, [clr]) and for tensor elements. *)

Class Scalar (F : Type) : Type := {
  of_Z : Z → F;
  eps : F;
  fadd : F → F → F;
  fsub : F → F → F;
  fmul : F → F → F;
  fdiv : F → F → F;
  fneg : F → F;
  fsqrt : F → F;
  fabs : F → F;
  fsign : F → F;
  fmax : F → F → F;
  nonzero : F → bool
}.

(** Exact arithmetic on the reals: the idealised reading of the code. *)
Definition Rsign (x : R) : R :=
  if Rlt_dec 0 x then 1%R else if Rlt_dec x 0 then (-1)%R else 0%R.

Definition Rnonzero (x : R) : bool :=
  if Req_dec_T x 0 then false else true.

#[export] Instance RScalar : Scalar R := {|
  of_Z := IZR;
  eps := (1 / 10 ^ 10)%R;
  fadd := Rplus;
  fsub := Rminus;
  fmul := Rmult;
  fdiv := Rdiv;
  fneg := Ropp;
  fsqrt := sqrt;
  fabs := Rabs;
  fsign := Rsign;
  fmax := Rmax;
  nonzero := Rnonzero
|}.

(** IEEE binary64, the arithmetic of Python floats and of double tensors.
    [float_of_Z] is exact for the small counters it is used on. *)
Definition float_of_Z (z : Z) : float :=
  match z with
  | Zneg p => PrimFloat.opp (PrimFloat.of_uint63 (Uint63.of_Z (Zpos p)))
  | _ => PrimFloat.of_uint63 (Uint63.of_Z z)
  end.

Definition float_sign (x : float) : float :=
  if PrimFloat.ltb 0%float x then 1%float
  else if PrimFloat.ltb x 0%float then (-1)%float
  else 0%float.

Definition float_max (x y : float) : float :=
  if PrimFloat.ltb y x then x else y.

#[export] Instance FloatScalar : Scalar float := {|
  of_Z := float_of_Z;
  eps := 0x1.b7cdfd9d7bdbbp-34%float;
  fadd := PrimFloat.add;
  fsub := PrimFloat.sub;
  fmul := PrimFloat.mul;
  fdiv := PrimFloat.div;
  fneg := PrimFloat.opp;
  fsqrt := PrimFloat.sqrt;
  fabs := PrimFloat.abs;
  fsign := float_sign;
  fmax := float_max;
  nonzero := fun x => negb (PrimFloat.eqb x 0%float)
|}.

(** ** Exceptions and results *)

Inductive PyError : Type :=
| KeyError (key : string)
| IndexError
| ZeroDivisionError
| TypeError
| ValueError
| RuntimeError (msg : string).

Inductive Res (A : Type) : Type :=
| Ok (a : A)
| Err (e : PyError).
Arguments Ok {A} a.
Arguments Err {A} e.

Definition is_Err {A} (r : Res A) : bool :=
  match r with Ok _ => false | Err _ => true end.

Definition res_bind {A B} (r : Res A) (k : A → Res B) : Res B :=
  match r with Ok a => k a | Err e => Err e end.

(** The message of the only [raise] in [optim.py] (line 79); the spec calls
    this failure [UnsupportedOperation]. *)
Definition msg_weight_decay_sparse : string :=
  "weight_decay option is not compatible with sparse gradients ".
Definition UnsupportedOperation : PyError := RuntimeError msg_weight_decay_sparse.

(** What torch reports when two operands of an elementwise operation have
    different sizes (broadcasting is not modelled). *)
Definition msg_size_mismatch : string := "inconsistent tensor size".
Definition SizeMismatch : PyError := RuntimeError msg_size_mismatch.

(** ** The state-and-exception monad

    A computation returns its result together with the store as it was
    left, also when it raises: an exception does not roll anything back. *)

Definition M (W A : Type) : Type := W → Res A * W.

Definition ret {W A} (a : A) : M W A := fun w => (Ok a, w).
Definition raise {W A} (e : PyError) : M W A := fun w => (Err e, w).
Definition bind {W A B} (m : M W A) (k : A → M W B) : M W B :=
  fun w => match m w with
           | (Ok a, w') => k a w'
           | (Err e, w') => (Err e, w')
           end.
Definition lift {W A} (r : Res A) : M W A := fun w => (r, w).
Definition gets {W A} (f : W → A) : M W A := fun w => (Ok (f w), w).
Definition modify {W} (f : W → W) : M W unit := fun w => (Ok tt, f w).

Declare Scope py_scope.
Delimit Scope py_scope with py.
Notation "'let*' x ':=' m 'in' k" := (bind m (fun x => k))
  (at level 10, x name, m at level 100, k at level 200) : py_scope.
Open Scope py_scope.

(** [for x in xs: body x] *)
Fixpoint for_each {W A} (xs : list A) (body : A → M W unit) : M W unit :=
  match xs with
  | [] => ret tt
  | x :: xs' => bind (body x) (fun _ => for_each xs' body)
  end.

(** [keeps R m]: the store [m] leaves is related by [R] to the one it
    started from, whether [m] returns or raises. *)
Definition keeps {W A} (R : W → W → Prop) (m : M W A) : Prop := ∀ w, R w (m w).2.

(** ** Tensors

    A dense tensor is its size and its elements in row-major order; a
    tensor of size [s] holds [product s] elements.  A sparse tensor (COO)
    is its size and a list of entries, each a coordinate (as a row-major
    offset) and a value; the same coordinate may occur more than once until
    the tensor is coalesced. *)

Section Tensors.
Context {F : Type} {SF : Scalar F}.

Record Tensor : Type := mkTensor { shape : list nat; elems : list F }.

Record SparseTensor : Type := mkSparse { ssize : list nat; entries : list (nat * F) }.

Definition same_size (a b : Tensor) : bool :=
  bool_decide (shape a = shape b) && (length (elems a) =? length (elems b))%nat.

Definition t_map (f : F → F) (a : Tensor) : Tensor :=
  mkTensor (shape a) (f <$> elems a).

Definition t_map2 (f : F → F → F) (a b : Tensor) : Res Tensor :=
  if same_size a b
  then Ok (mkTensor (shape a) (zip_with f (elems a) (elems b)))
  else Err SizeMismatch.

Fixpoint zip_with3 (f : F → F → F → F) (xs ys zs : list F) : list F :=
  match xs, ys, zs with
  | x :: xs', y :: ys', z :: zs' => f x y z :: zip_with3 f xs' ys' zs'
  | _, _, _ => []
  end.

Definition t_map3 (f : F → F → F → F) (a b c : Tensor) : Res Tensor :=
  if same_size a b && same_size a c
  then Ok (mkTensor (shape a) (zip_with3 f (elems a) (elems b) (elems c)))
  else Err SizeMismatch.

(** [t.new().resize_as_(t).zero_()] and [torch.zeros(t.size())] *)
Definition zeros_like (t : Tensor) : Tensor := t_map (fun _ => of_Z 0) t.

(** [a.add(value, b)], [a.add_(value, b)]: [a + value * b] *)
Definition t_add (value : F) (a b : Tensor) : Res Tensor :=
  t_map2 (fun x y => fadd x (fmul value y)) a b.

(** [a.addcmul_(value, t1, t2)]: [a + value * t1 * t2] *)
Definition t_addcmul (value : F) (a t1 t2 : Tensor) : Res Tensor :=
  t_map3 (fun x y z => fadd x (fmul (fmul value y) z)) a t1 t2.

(** [a.addcdiv_(value, t1, t2)]: [a + value * t1 / t2] *)
Definition t_addcdiv (value : F) (a t1 t2 : Tensor) : Res Tensor :=
  t_map3 (fun x y z => fadd x (fdiv (fmul value y) z)) a t1 t2.

(** [a.sqrt().add(1e-10)] *)
Definition t_sqrt_add (c : F) (a : Tensor) : Tensor :=
  t_map (fun x => fadd (fsqrt x) c) a.

(** *** Sparse tensors *)

Definition indices (s : SparseTensor) : list nat := (entries s).*1.
Definition values (s : SparseTensor) : list F := (entries s).*2.

(** Insert one entry into a list sorted by coordinate, adding the value to
    the entry already at that coordinate if there is one. *)
Fixpoint sp_insert (i : nat) (v : F) (acc : list (nat * F)) : list (nat * F) :=
  match acc with
  | [] => [(i, v)]
  | (j, u) :: acc' =>
      if (i <? j)%nat then (i, v) :: (j, u) :: acc'
      else if (i =? j)%nat then (j, fadd u v) :: acc'
      else (j, u) :: sp_insert i v acc'
  end.

(** [s.coalesce()]: coordinates sorted and unique, duplicates summed *)
Definition coalesce (s : SparseTensor) : SparseTensor :=
  mkSparse (ssize s) (fold_left (fun acc e => sp_insert e.1 e.2 acc) (entries s) []).

(** The local function [make_sparse] of [step]: [idx] and [size] are the
    variables [grad_indices] and [size] it closes over.  An empty tensor
    has [dim() == 0], and [constructor()] is the empty sparse tensor. *)
Definition make_sparse (idx : list nat) (size : list nat) (vals : list F) : SparseTensor :=
  if (length idx =? 0)%nat || (length vals =? 0)%nat
  then mkSparse [] []
  else mkSparse size (zip idx vals).

(** [a.add_(value, s)] with a sparse [s]: every entry is added at its
    coordinate, scaled by [value] (1 when it is not given). *)
Fixpoint scatter_add (value : F) (xs : list F) (es : list (nat * F)) : Res (list F) :=
  match es with
  | [] => Ok xs
  | (i, v) :: es' =>
      match xs !! i with
      | Some x => scatter_add value (<[i := fadd x (fmul value v)]> xs) es'
      | None => Err IndexError
      end
  end.

Definition t_add_sparse (value : F) (a : Tensor) (s : SparseTensor) : Res Tensor :=
  res_bind (scatter_add value (elems a) (entries s))
           (fun xs => Ok (mkTensor (shape a) xs)).

(** [a._sparse_mask(s)._values()]: the elements of [a] at the coordinates of [s] *)
Fixpoint gather (xs : list F) (idx : list nat) : Res (list F) :=
  match idx with
  | [] => Ok []
  | i :: idx' =>
      match xs !! i with
      | Some x => res_bind (gather xs idx') (fun r => Ok (x :: r))
      | None => Err IndexError
      end
  end.

(** [s.to_dense()] *)
Definition to_dense (like : Tensor) (s : SparseTensor) : Res Tensor :=
  t_add_sparse (of_Z 1) (zeros_like like) s.

End Tensors.

Arguments Tensor F : clear implicits.
Arguments SparseTensor F : clear implicits.

(** ** The optimizer ([optim.py])

    Parameters are Python objects shared between the model and the
    optimizer: they are named by a handle and live in [heap]; the
    optimizer's [self.state] maps the same handles to the per-parameter
    state dict.  [E] is whatever else a closure can read and write, and [L]
    is the type of what it returns (the loss). *)

Section Optimizer.
Context {F : Type} {SF : Scalar F}.
Context {E L : Type}.

(** [p.grad.data]: a dense tensor, or a sparse one ([is_sparse]) *)
Inductive Grad : Type :=
  | DenseGrad (t : Tensor F)
  | SparseGrad (s : SparseTensor F).

(** A parameter: [p.data], and [p.grad] ([None] when absent) *)
Record Param : Type := mkParam { data : Tensor F; grad : option Grad }.

(** One entry of [self.param_groups] *)
Record Group : Type := mkGroup {
  params : list nat;
  lr : F;
  lr_decay : F;
  weight_decay : F;
  l1_C : F
}.

(** The dict [self.state[p]] once [reset] has filled it: the keys
    ['step'], ['sum'], ['avg'] and ['zeros'].  The empty dict that
    [self.state[p]] creates for a parameter never reset is the absence of
    an entry in [state]. *)
Record PState : Type := mkPState {
  st_step : Z;
  st_sum : Tensor F;
  st_avg : Tensor F;
  st_zeros : Tensor F
}.

Record Adagrad : Type := mkAdagrad {
  param_groups : list Group;
  state : gmap nat PState;
  no_bias_l1 : bool;
  no_non_singleton_l1 : bool
}.

Record World : Type := mkWorld {
  heap : gmap nat Param;
  optimizer : Adagrad;
  env : E
}.

Definition with_step (n : Z) (st : PState) : PState :=
  mkPState n (st_sum st) (st_avg st) (st_zeros st).
Definition with_sum (t : Tensor F) (st : PState) : PState :=
  mkPState (st_step st) t (st_avg st) (st_zeros st).
Definition with_avg (t : Tensor F) (st : PState) : PState :=
  mkPState (st_step st) (st_sum st) t (st_zeros st).

Definition with_state (f : gmap nat PState → gmap nat PState) (w : World) : World :=
  mkWorld (heap w)
          (mkAdagrad (param_groups (optimizer w)) (f (state (optimizer w)))
                     (no_bias_l1 (optimizer w)) (no_non_singleton_l1 (optimizer w)))
          (env w).
Definition with_heap (f : gmap nat Param → gmap nat Param) (w : World) : World :=
  mkWorld (f (heap w)) (optimizer w) (env w).

(** A handle with no object behind it has no counterpart in Python, where
    [group['params']] holds the objects themselves; the model stops. *)
Definition Dangling : PyError := RuntimeError "no such parameter".

Definition get_param (h : nat) : M World Param :=
  fun w => match heap w !! h with
           | Some p => (Ok p, w)
           | None => (Err Dangling, w)
           end.

(** [p.data = t], and the in-place updates of [p.data] *)
Definition set_data (h : nat) (t : Tensor F) : M World unit :=
  modify (with_heap (alter (fun p => mkParam t (grad p)) h)).

(** [state = self.state[p]], then reading a key of it: [KeyError] on the
    empty dict *)
Definition get_state (h : nat) : M World PState :=
  fun w => match state (optimizer w) !! h with
           | Some st => (Ok st, w)
           | None => (Err (KeyError "step"), w)
           end.

Definition put_state (h : nat) (st : PState) : M World unit :=
  modify (with_state (insert h st)).

(** *** [reset] (lines 32-41) *)

Definition reset_param (h : nat) : M World unit :=
  let* p := get_param h in
  let sum := zeros_like (data p) in
  let avg := zeros_like (data p) in
  put_state h (mkPState 0 sum avg (zeros_like avg)).

Definition reset : M World unit :=
  let* groups := gets (fun w => param_groups (optimizer w)) in
  for_each groups (fun group => for_each (params group) reset_param).

(** *** [__init__] (lines 23-30); an argument left out is [None] here *)

Definition Adagrad_init (groups : list Group)
    (no_bias_l1 no_non_singleton_l1 : option bool) : M World unit :=
  let* _ := modify (fun w =>
    mkWorld (heap w)
            (mkAdagrad groups ∅ (default true no_bias_l1)
                       (default true no_non_singleton_l1))
            (env w)) in
  reset.

(** *** [get_step] (lines 43-49) *)

Fixpoint get_step_params (st : gmap nat PState) (ps : list nat) : option Z :=
  match ps with
  | [] => None
  | p :: ps' =>
      match st !! p with
      | Some s => Some (st_step s)
      | None => get_step_params st ps'
      end
  end.

Fixpoint get_step_groups (st : gmap nat PState) (gs : list Group) : option Z :=
  match gs with
  | [] => None
  | g :: gs' =>
      match get_step_params st (params g) with
      | Some n => Some n
      | None => get_step_groups st gs'
      end
  end.

Definition get_step (opt : Adagrad) : option Z :=
  get_step_groups (state opt) (param_groups opt).

(** *** [step] (lines 58-112) *)

(** Python's [and] and [or] evaluate their right operand only when the
    left one does not decide. *)
Definition py_and (a b : Res bool) : Res bool :=
  res_bind a (fun x => if x then b else Ok false).
Definition py_or (a b : Res bool) : Res bool :=
  res_bind a (fun x => if x then Ok true else b).

(** [t.size(0)] *)
Definition size0 (t : Tensor F) : Res nat :=
  match shape t with
  | [] => Err IndexError
  | d :: _ => Ok d
  end.

(** The condition of line 83, with Python's precedence ([and] binds
    tighter than [or]) written out. *)
Definition l1_selected (opt : Adagrad) (group : Group) (t : Tensor F) : Res bool :=
  py_and (Ok (nonzero (l1_C group)))
    (py_or (Ok (negb (no_bias_l1 opt)))
       (py_and
          (py_or (Ok (1 <? length (shape t))%nat)
                 (res_bind (size0 t) (fun d => Ok (1 <? d)%nat)))
          (py_or (Ok (negb (no_non_singleton_l1 opt)))
                 (res_bind (size0 t) (fun d => Ok (d =? 1)%nat))))).

(** Python's [x / y] on numbers *)
Definition py_div (x y : F) : Res F :=
  if nonzero y then Ok (fdiv x y) else Err ZeroDivisionError.

(** Lines 86-91.  [st] is the state dict as it stands, its step already
    incremented.  torch has no [addcmul_] with sparse operands. *)
Definition l1_update (group : Group) (h : nat) (clr : F) (st : PState) (g : Grad)
    : M World unit :=
  let* avg := lift (match g with
                    | DenseGrad t => t_add (of_Z 1) (st_avg st) t
                    | SparseGrad s => t_add_sparse (of_Z 1) (st_avg st) s
                    end) in
  let* _ := put_state h (with_avg avg st) in
  let* sum := lift (match g with
                    | DenseGrad t => t_addcmul (of_Z 1) (st_sum st) t t
                    | SparseGrad _ => Err TypeError
                    end) in
  let* _ := put_state h (with_sum sum (with_avg avg st)) in
  let g_bar := t_map (fun x => fdiv x (of_Z (st_step st))) avg in
  let adapt := t_sqrt_add eps sum in
  let* sparsity :=
    lift (t_map2 fmax (t_map (fun x => fsub (fabs x) (l1_C group)) g_bar)
                      (st_zeros st)) in
  let* scaled :=
    lift (t_map2 fmul (t_map (fun x => fsign (fneg x)) g_bar)
                      (t_map (fun x => fdiv (fmul clr (of_Z (st_step st))) x) adapt)) in
  let* new := lift (t_map2 fmul scaled sparsity) in
  set_data h new.

(** Lines 93-106 *)
Definition sparse_update (h : nat) (clr : F) (st : PState) (p : Param)
    (g : SparseTensor F) : M World unit :=
  let grad := coalesce g in
  let grad_indices := indices grad in
  let grad_values := values grad in
  let size := ssize grad in
  let* sum :=
    lift (t_add_sparse (of_Z 1) (st_sum st)
            (make_sparse grad_indices size ((fun v => fmul v v) <$> grad_values))) in
  let* _ := put_state h (with_sum sum st) in
  let* std := lift (gather (elems sum) grad_indices) in
  let std_values := (fun x => fadd (fsqrt x) eps) <$> std in
  let* new :=
    lift (t_add_sparse (fneg clr) (data p)
            (make_sparse grad_indices size (zip_with fdiv grad_values std_values))) in
  set_data h new.

(** Lines 108-110 *)
Definition dense_update (h : nat) (clr : F) (st : PState) (p : Param)
    (g : Tensor F) : M World unit :=
  let* sum := lift (t_addcmul (of_Z 1) (st_sum st) g g) in
  let* _ := put_state h (with_sum sum st) in
  let std := t_sqrt_add eps sum in
  let* new := lift (t_addcdiv (fneg clr) (data p) g std) in
  set_data h new.

(** Lines 77-80: the gradient the update uses *)
Definition decayed_grad (group : Group) (p : Param) (g : Grad) : Res Grad :=
  if nonzero (weight_decay group) then
    match g with
    | SparseGrad _ => Err UnsupportedOperation
    | DenseGrad t =>
        res_bind (t_add (weight_decay group) t (data p)) (fun t' => Ok (DenseGrad t'))
    end
  else Ok g.

(** Line 82 *)
Definition current_lr (group : Group) (step : Z) : Res F :=
  py_div (lr group) (fadd (of_Z 1) (fmul (of_Z (step - 1)) (lr_decay group))).

(** The body of the inner loop (lines 69-110) *)
Definition step_param (group : Group) (h : nat) : M World unit :=
  let* p := get_param h in
  match grad p with
  | None => ret tt
  | Some g =>
      let* st0 := get_state h in
      let st := with_step (st_step st0 + 1) st0 in
      let* _ := put_state h st in
      let* g' := lift (decayed_grad group p g) in
      let* clr := lift (current_lr group (st_step st)) in
      let* opt := gets optimizer in
      let* l1 := lift (l1_selected opt group (data p)) in
      if l1 then l1_update group h clr st g'
      else match g' with
           | SparseGrad s => sparse_update h clr st p s
           | DenseGrad t => dense_update h clr st p t
           end
  end.

Definition step_groups (groups : list Group) : M World unit :=
  for_each groups (fun group => for_each (params group) (step_param group)).

Definition step (closure : option (M World L)) : M World (option L) :=
  let* loss := match closure with
               | None => ret None
               | Some c => let* l := c in ret (Some l)
               end in
  let* groups := gets (fun w => param_groups (optimizer w)) in
  let* _ := step_groups groups in
  ret loss.

End Optimizer.

Arguments Grad F : clear implicits.
Arguments Param F : clear implicits.
Arguments Group F : clear implicits.
Arguments PState F : clear implicits.
Arguments Adagrad F : clear implicits.
Arguments World F E : clear implicits.

(** ** Definitions used to state the properties *)

Section Statements.
Context {F : Type} {SF : Scalar F} {E : Type}.
Implicit Types (w : World F E) (group : Group F) (p : Param F) (st : PState F).

(** What remains of the loop body once the gradient, the state dict and
    the learning rate are there. *)
Definition dispatch group (h : nat) (clr : F) st p (g' : Grad F) (l1 : bool)
    : M (World F E) unit :=
  if l1 then l1_update group h clr st g'
  else match g' with
       | SparseGrad s => sparse_update h clr st p s
       | DenseGrad t => dense_update h clr st p t
       end.

(** The condition of line 83 on a tensor of rank at least one. *)
Definition l1_condition (opt : Adagrad F) group (rank d : nat) : bool :=
  nonzero (l1_C group)
  && (negb (no_bias_l1 opt)
      || ((1 <? rank)%nat || (1 <? d)%nat)
         && (negb (no_non_singleton_l1 opt) || (d =? 1)%nat)).

(** The grouping of the two shape conditions as the specification words
  it: a conjunction of two disjunctions. *)
Definition spec_l1_condition (opt : Adagrad F) group (rank d : nat) : bool :=
  nonzero (l1_C group)
  && ((negb (no_bias_l1 opt) || ((1 <? rank)%nat || (1 <? d)%nat))
      && (negb (no_non_singleton_l1 opt) || (d =? 1)%nat)).

(** The accumulators after [avg += 1 * g] and [sum += 1 * g * g] *)
Definition acc_avg st (g : Tensor F) : Tensor F :=
  mkTensor (shape (st_avg st))
    (zip_with (fun a x => fadd a (fmul (of_Z 1) x)) (elems (st_avg st)) (elems g)).

Definition acc_sum st (g : Tensor F) : Tensor F :=
  mkTensor (shape (st_sum st))
    (zip_with (fun s x => fadd s (fmul (fmul (of_Z 1) x) x)) (elems (st_sum st)) (elems g)).

(** [sign(-g_bar) * (clr * step / adapt) * max(|g_bar| - l1_C, 0)] with
    [g_bar = avg / step] and [adapt = sqrt(sum) + 1e-10], elementwise *)
Definition l1_value group (clr : F) (n : Z) (avg sum : Tensor F) : Tensor F :=
  mkTensor (shape avg)
    (zip_with
       (fun a s =>
          let g_bar := fdiv a (of_Z n) in
          let adapt := fadd (fsqrt s) eps in
          let sparsity := fmax (fsub (fabs g_bar) (l1_C group)) (of_Z 0) in
          fmul (fmul (fsign (fneg g_bar)) (fdiv (fmul clr (of_Z n)) adapt)) sparsity)
       (elems avg) (elems sum)).

(** The state dict of a parameter fits a tensor [t] (its gradient, its
    value): the accumulators have the size of [t] and ['zeros'] is zero.
    [reset] establishes this and [step] keeps it. *)
Definition state_fits (t : Tensor F) st : Prop :=
  same_size (st_sum st) t = true
  ∧ same_size (st_avg st) t = true
  ∧ st_zeros st = zeros_like t.

(** The store after an update of parameter [h]: new value, new state dict *)
Definition updated (h : nat) (new : Tensor F) st w : World F E :=
  with_heap (alter (fun q => mkParam new (grad q)) h) (with_state (insert h st) w).

(** [x + (-clr) * g / (sqrt(sum) + 1e-10)], elementwise: line 110 *)
Definition dense_value (clr : F) (x g sum : Tensor F) : Tensor F :=
  mkTensor (shape x)
    (zip_with3 (fun x y s => fadd x (fdiv (fmul (fneg clr) y) (fadd (fsqrt s) eps)))
       (elems x) (elems g) (elems sum)).

(** The state dict [reset] gives a parameter of value [x] *)
Definition fresh_state (x : Tensor F) : PState F :=
  mkPState 0 (zeros_like x) (zeros_like x) (zeros_like (zeros_like x)).

(** The parameters registered with the optimizer, in the order the loops
    of [reset], [get_step] and [step] visit them *)
Definition registered (opt : Adagrad F) : list nat :=
  concat (params <$> param_groups opt).

(** What an update of the parameter [h] may change: the value of [h] and
    its state dict, the step count [n] in it apart.  Gradients, the other
    parameters, the groups, the flags and the environment stay. *)
Definition touches (h : nat) (n : Z) w (w' : World F E) : Prop :=
  env w' = env w
  ∧ param_groups (optimizer w') = param_groups (optimizer w)
  ∧ no_bias_l1 (optimizer w') = no_bias_l1 (optimizer w)
  ∧ no_non_singleton_l1 (optimizer w') = no_non_singleton_l1 (optimizer w)
  ∧ (∀ h', h' ≠ h →
       heap w' !! h' = heap w !! h'
       ∧ state (optimizer w') !! h' = state (optimizer w) !! h')
  ∧ (grad <$> heap w' !! h) = (grad <$> heap w !! h)
  ∧ ((st_step <$> state (optimizer w) !! h) = Some n →
     (st_step <$> state (optimizer w') !! h) = Some n).

(** The step count of a parameter, if it has a state dict *)
Definition step_of w (h : nat) : option Z := st_step <$> state (optimizer w) !! h.

(** Every parameter in [hs] has a gradient *)
Definition all_grads w (hs : list nat) : Prop :=
  ∀ h, h ∈ hs → ∃ p g, heap w !! h = Some p ∧ grad p = Some g.

(** [n] calls of [step()] that return.  Before each call anything but
    the optimizer may change (the gradients are computed, by the caller
    or by the closure), and every registered parameter has a gradient
    when the loop of [step] starts. *)
Inductive Steps : nat → World F E → World F E → Prop :=
| Steps_O w : Steps 0 w w
| Steps_S n w w0 w1 w2 :
    optimizer w0 = optimizer w →
    all_grads w0 (registered (optimizer w0)) →
    step (L:=unit) None w0 = (Ok None, w1) →
    Steps n w1 w2 →
    Steps (S n) w w2.

(** The iterations of the two nested loops of [step], in order: the
    group and the parameter of each *)
Definition visits (groups : list (Group F)) : list (Group F * nat) :=
  groups ≫= (fun group => pair group <$> params group).

(** What no iteration of [step] changes: the environment, the groups,
    the flags, and which gradient every parameter has. *)
Definition frame w (w' : World F E) : Prop :=
  env w' = env w
  ∧ param_groups (optimizer w') = param_groups (optimizer w)
  ∧ no_bias_l1 (optimizer w') = no_bias_l1 (optimizer w)
  ∧ no_non_singleton_l1 (optimizer w') = no_non_singleton_l1 (optimizer w)
  ∧ (∀ h, (grad <$> heap w' !! h) = (grad <$> heap w !! h)).

(** [shaped sz n t]: the tensor [t] has size [sz] and [n] elements.
    [laid_out h sz n w]: in the store [w] the parameter [h] has a value
    and a state dict whose ['sum'] and ['avg'] are all of size [sz] with
    [n] elements, and whose ['zeros'] is the zero tensor of that size. *)
Definition shaped (sz : list nat) (n : nat) (t : Tensor F) : Prop :=
  shape t = sz ∧ length (elems t) = n.

Definition laid_out (h : nat) (sz : list nat) (n : nat) w : Prop :=
  ∃ p st,
    heap w !! h = Some p
    ∧ state (optimizer w) !! h = Some st
    ∧ shaped sz n (data p)
    ∧ shaped sz n (st_sum st)
    ∧ shaped sz n (st_avg st)
    ∧ st_zeros st = mkTensor sz (replicate n (of_Z 0)).


End Statements.

(** ** Concrete stores, on binary64 floats *)

Definition f_tenth : float := 0x1.999999999999ap-4%float.
Definition f_half : float := 0.5%float.

Definition vec (xs : list float) : Tensor float := mkTensor [length xs] xs.

(** A store with the parameters [ps] (handles 0, 1, ...) and an optimizer
    built by [__init__] over the groups [gs]. *)
Definition world_of (ps : list (Param float)) (gs : list (Group float))
    (nb nns : option bool) : World float nat :=
  (Adagrad_init gs nb nns
     (mkWorld (list_to_map (zip (seq 0 (length ps)) ps)) (mkAdagrad [] ∅ true true) 0%nat)).2.

(** A bias-like vector of five elements, [l1_C = 0.5], and [no_bias_l1]
    switched off. *)
Definition ex_bias5 : Param float :=
  mkParam (vec [1; 2; 3; 4; 5]%float) (Some (DenseGrad (vec [1; -1; 2; -2; 0]%float))).
Definition ex_group_l1 : Group float := mkGroup [0%nat] f_tenth 0%float 0%float f_half.
Definition ex_world_l1 : World float nat :=
  world_of [ex_bias5] [ex_group_l1] (Some false) None.

(** A row vector (rank two, first dimension one): eligible for the L1
    path under the default flags. *)
Definition ex_row : Param float :=
  mkParam (mkTensor [1; 3]%nat [1; 2; 3]%float)
          (Some (DenseGrad (mkTensor [1; 3]%nat [1; -1; 0.25]%float))).
Definition ex_world_row : World float nat := world_of [ex_row] [ex_group_l1] None None.

(** ** The dense update in closed form, on the reals

    With the same gradient [g] at every step and no learning-rate decay,
    the accumulated square after [k] steps is [k * g * g], and step [k]
    subtracts [lr * g / (sqrt (k * g * g) + 1e-10)]. *)

Fixpoint dense_closed_form (lr g : R) (k : nat) (x : R) : R :=
  match k with
  | O => x
  | S k' =>
      (dense_closed_form lr g k' x
       - lr * g / (sqrt (INR k * (g * g)) + 1 / 10 ^ 10))%R
  end.

Fixpoint dense_closed_form_float (lr g : float) (k : nat) (x : float) : float :=
  match k with
  | O => x
  | S k' =>
      (dense_closed_form_float lr g k' x
       - lr * g / (PrimFloat.sqrt (float_of_Z (Z.of_nat k) * (g * g)) + 0x1.b7cdfd9d7bdbbp-34))%float
  end.

(** The end-to-end scenario: one parameter of shape [3], [lr = 0.1], no
    decay, no L1, the gradient [1, 1, 1]. *)
Definition scenario_grad : Tensor R := mkTensor [3%nat] [1; 1; 1]%R.
Definition scenario_group : Group R := mkGroup [0%nat] (1 / 10)%R 0%R 0%R 0%R.
Definition scenario_world (a b c : R) : World R unit :=
  mkWorld {[ 0%nat := mkParam (mkTensor [3%nat] [a; b; c]) (Some (DenseGrad scenario_grad)) ]}
          (mkAdagrad [] ∅ true true) tt.

(** The same scenario on floats, from the parameter value [1, 2, 3]. *)
Definition scenario_world_float : World float nat :=
  world_of [mkParam (vec [1; 2; 3]%float) (Some (DenseGrad (vec [1; 1; 1]%float)))]
           [mkGroup [0%nat] f_tenth 0%float 0%float 0%float] None None.

(** [n] calls of [step()] in a row *)
Fixpoint steps {F} {SF : Scalar F} {E : Type} (n : nat) : M (World F E) unit :=
  match n with
  | O => ret tt
  | S n' => let* _ := step (L:=unit) None in steps n'
  end.

(** ** Coalesced sparse tensors

    [increasing l]: the coordinates [l] are in strictly increasing order
    (sorted and unique, as [coalesce] leaves them).  [sp_total i es]: the
    sum of the values that the entries [es] hold for the coordinate [i]. *)

Fixpoint increasing (l : list nat) : Prop :=
  match l with
  | [] => True
  | x :: l' => (∀ y, y ∈ l' → (x < y)%nat) ∧ increasing l'
  end.

Fixpoint sp_total (i : nat) (es : list (nat * R)) : R :=
  match es with
  | [] => 0%R
  | (j, v) :: es' => if (j =? i)%nat then (v + sp_total i es')%R else sp_total i es'
  end.

(** A parameter of four elements with a sparse gradient that names the
    coordinates 1 and 3, the first of them twice. *)
Definition ex_sparse_grad : SparseTensor float :=
  mkSparse [4%nat] [(1%nat, 0.5%float); (3%nat, (-1)%float); (1%nat, 0.25%float)].
Definition ex_sparse : Param float :=
  mkParam (vec [1; 2; 3; 4]%float) (Some (SparseGrad ex_sparse_grad)).
Definition ex_group_plain : Group float := mkGroup [0%nat] f_tenth 0%float 0%float 0%float.
Definition ex_world_sparse : World float nat :=
  world_of [ex_sparse] [ex_group_plain] None None.

(** Two parameters in one group with weight decay: the first has a dense
    gradient, the second a sparse one. *)
Definition ex_dense : Param float :=
  mkParam (vec [1; 2]%float) (Some (DenseGrad (vec [0.5; -0.5]%float))).
Definition ex_group_decay : Group float :=
  mkGroup [0%nat; 1%nat] f_tenth 0%float f_half 0%float.
Definition ex_world_decay : World float nat :=
  world_of [ex_dense; ex_sparse] [ex_group_decay] None None.

(** On the reals: a parameter of two elements and a sparse gradient that
    names both coordinates, the second twice; [ex_cover_dense] is its
    dense form. *)
Definition ex_cover_x : Tensor R := mkTensor [2%nat] [1; 2]%R.
Definition ex_cover_grad : SparseTensor R :=
  mkSparse [2%nat] [(1%nat, 3%R); (0%nat, 2%R); (1%nat, (-1)%R)].
Definition ex_cover_dense : Tensor R :=
  mkTensor [2%nat] [0 + 1 * 2; 0 + 1 * 3 + 1 * -1]%R.
Definition ex_world_cover : World R unit :=
  mkWorld {[ 0%nat := mkParam ex_cover_x (Some (SparseGrad ex_cover_grad)) ]}
          (mkAdagrad [scenario_group] {[ 0%nat := fresh_state ex_cover_x ]} true true) tt.

(** ** Training from a configuration ([config/torch_ext/learn.py])

    [train_from_config] reads its settings from a dict of strings, looks
    the data set up by name, and hands everything to [Trainer.train].  The
    data sets are Python objects: they live in a store, by name, and
    [data] is a reference into it. *)

Section TrainFromConfig.
Context {Example Seed Fl Ev Out : Type}.

(** Modelled from the spec: the Dataset class ([mung.data], not under
    src/).  "A Dataset exposing shuffle-in-place and contiguous-subset
    selection": [shuffle] permutes the examples of the object it is called
    on, driven by the random state; [get_subset start end] selects the
    examples from [start] up to [end] and returns them as a new data set,
    leaving the object it is called on as it is. *)
Variable shuffle_examples : Seed → list Example → list Example * Seed.

Definition get_subset (examples : list Example) (start stop : Z) : list Example :=
  take (Z.to_nat (stop - start)) (drop (Z.to_nat start) examples).

(** Modelled from the spec: [float(s)] on a configuration value. *)
Variable py_float : string → Res Fl.

Record TrainStore : Type := mkTrainStore {
  data_sets : gmap string (list Example);
  random_state : Seed
}.

(** [data.shuffle()], in place on the data set named [name] *)
Definition shuffle (name : string) : M TrainStore unit :=
  fun ts =>
    match data_sets ts !! name with
    | Some examples =>
        let (shuffled, seed) := shuffle_examples (random_state ts) examples in
        (Ok tt, mkTrainStore (<[name := shuffled]> (data_sets ts)) seed)
    | None => (Err (KeyError name), ts)
    end.

(** [config[key]] *)
Definition config_get (config : gmap string string) (key : string) : Res string :=
  match config !! key with
  | Some v => Ok v
  | None => Err (KeyError key)
  end.

(** [int(s)] on a configuration value, a [str] whose characters are code
    points below 256 (one [ascii] each).  Python strips white space at both
    ends, takes one optional sign, and then wants decimal digits, where a
    single underscore may stand between two digits; anything else raises
    [ValueError], and so does a numeral of more than [int_max_str_digits]
    digits (the interpreter's default for [sys.set_int_max_str_digits]). *)
Definition py_isspace (c : ascii) : bool :=
  let n := nat_of_ascii c in
  ((9 <=? n) && (n <=? 13) || (n =? 32) || (n =? 133) || (n =? 160))%nat.

Definition py_digit (c : ascii) : option Z :=
  let n := nat_of_ascii c in
  if ((48 <=? n) && (n <=? 57))%nat then Some (Z.of_nat (n - 48)) else None.

Fixpoint py_lstrip (cs : list ascii) : list ascii :=
  match cs with
  | c :: cs' => if py_isspace c then py_lstrip cs' else cs
  | [] => []
  end.

Definition py_strip (cs : list ascii) : list ascii :=
  rev (py_lstrip (rev (py_lstrip cs))).

(** The digits of a numeral: [after_digit] says that the character before
    is a digit, [count] is the number of digits so far, [acc] their value. *)
Fixpoint py_digits (cs : list ascii) (after_digit : bool) (count : nat) (acc : Z)
    : option (Z * nat) :=
  match cs with
  | [] => if after_digit then Some (acc, count) else None
  | c :: cs' =>
      match py_digit c with
      | Some d => py_digits cs' true (S count) (10 * acc + d)
      | None =>
          if Ascii.eqb c "_" && after_digit then py_digits cs' false count acc
          else None
      end
  end.

Definition int_max_str_digits : nat := 4300.

Definition py_int (s : string) : Res Z :=
  let cs := py_strip (list_ascii_of_string s) in
  let '(negative, ds) :=
    match cs with
    | "-"%char :: ds => (true, ds)
    | "+"%char :: ds => (false, ds)
    | _ => (false, cs)
    end in
  match py_digits ds false 0 0 with
  | Some (n, count) =>
      if (count <=? int_max_str_digits)%nat
      then Ok (if negative then (- n)%Z else n)
      else Err ValueError
  | None => Err ValueError
  end.

(** The arguments [Trainer(...)] and [trainer.train(...)] are called with;
    [tc_data] is the content, at the time of the call, of the data set
    object passed as [data]. *)
Record TrainCall : Type := mkTrainCall {
  tc_evaluation : Ev;
  tc_other_evaluations : list Ev;
  tc_max_evaluation : bool;
  tc_data : list Example;
  tc_iterations : Z;
  tc_batch_size : Z;
  tc_optimizer_type : string;
  tc_lr : Fl;
  tc_weight_decay : Fl;
  tc_grad_clip : Fl;
  tc_log_interval : Z
}.

(** Modelled from the spec: [Trainer] ([mung.torch_ext.learn], not under
    src/), as what it does with the arguments it is given. *)
Variable trainer_train : TrainCall → M TrainStore Out.

(** Lines 17-32: everything up to the call of [trainer.train].  The
    opaque arguments ([data_parameter], [loss_criterion], [logger],
    [model], [best_part_fn]) are passed on untouched and left out. *)
Definition train_call (config : gmap string string) (evaluations : list Ev)
    : M TrainStore TrainCall :=
  let* name := lift (config_get config "data") in
  let* _ := (fun ts => match data_sets ts !! name with
                       | Some _ => (Ok tt, ts)
                       | None => (Err (KeyError name), ts)
                       end) in
  let* _ := match config !! "data_size" with
            | Some size =>
                let* _ := shuffle name in
                let* n := lift (py_int size) in
                let* examples := gets (fun ts => default [] (data_sets ts !! name)) in
                let _ := get_subset examples 0 n in
                ret tt
            | None => ret tt
            end in
  let* evaluation := lift (match evaluations with
                           | e :: _ => Ok e
                           | [] => Err IndexError
                           end) in
  let other_evaluations := drop 1 evaluations in
  let* max_evaluation :=
    lift (res_bind (config_get config "max_evaluation") (fun s =>
          res_bind (py_int s) (fun z => Ok (negb (z =? 0)%Z)))) in
  let* iterations := lift (res_bind (config_get config "iterations") py_int) in
  let* batch_size := lift (res_bind (config_get config "batch_size") py_int) in
  let* optimizer_type := lift (config_get config "optimizer_type") in
  let* learning_rate := lift (res_bind (config_get config "learning_rate") py_float) in
  let* weight_decay := lift (res_bind (config_get config "weight_decay") py_float) in
  let* gradient_clipping :=
    lift (res_bind (config_get config "gradient_clipping") py_float) in
  let* log_interval := lift (res_bind (config_get config "log_interval") py_int) in
  let* data := gets (fun ts => default [] (data_sets ts !! name)) in
  ret (mkTrainCall evaluation other_evaluations max_evaluation data iterations
         batch_size optimizer_type learning_rate weight_decay gradient_clipping
         log_interval).

(** Lines 16-37 *)
Definition train_from_config (config : gmap string string) (evaluations : list Ev)
    : M TrainStore Out :=
  let* call := train_call config evaluations in
  trainer_train call.

End TrainFromConfig.

Arguments TrainStore Example Seed : clear implicits.
Arguments TrainCall Example Fl Ev : clear implicits.

(** The store after [data.shuffle()] on the data set [name], whose
    examples are [examples] *)
Definition shuffled {Example Seed : Type}
    (shuffle_examples : Seed → list Example → list Example * Seed)
    (ts : TrainStore Example Seed) (name : string) (examples : list Example)
    : TrainStore Example Seed :=
  mkTrainStore
    (<[name := (shuffle_examples (random_state ts) examples).1]> (data_sets ts))
    (shuffle_examples (random_state ts) examples).2.


(** A configuration with [data_size = 50] over a data set of 200 examples
    (the numbers 0 to 199); the shuffle reverses. *)
Definition ex_config : gmap string string :=
  list_to_map
    [("max_evaluation", "1"); ("data", "train"); ("data_size", "50");
     ("iterations", "10"); ("batch_size", "4"); ("optimizer_type", "ADAGRAD_MUNG");
     ("learning_rate", "0.1"); ("weight_decay", "0"); ("gradient_clipping", "5");
     ("log_interval", "2")]%string.
Definition ex_shuffle (seed : nat) (examples : list nat) : list nat * nat :=
  (rev examples, S seed).
Definition ex_py_float (s : string) : Res string := Ok s.
Definition ex_train_store : TrainStore nat nat :=
  mkTrainStore {[ "train"%string := seq 0 200 ]} 0%nat.

(** The same configuration without [data_size]. *)
Definition ex_config_whole : gmap string string := delete "data_size"%string ex_config.


(** The row vector with a sparse gradient: eligible for the L1 path under
    the default flags, as [ex_row] is. *)
Definition ex_row_sparse_grad : SparseTensor float :=
  mkSparse [1; 3]%nat [(0%nat, 1%float); (2%nat, 0.25%float)].
Definition ex_row_sparse : Param float :=
  mkParam (mkTensor [1; 3]%nat [1; 2; 3]%float) (Some (SparseGrad ex_row_sparse_grad)).
Definition ex_world_row_sparse : World float nat :=
  world_of [ex_row_sparse] [ex_group_l1] None None.

(** One element of value 1 with the gradient [2^600], finite in binary64,
    whose square is not. *)
Definition f_big : float := 0x1p600%float.
Definition ex_big : Param float :=
  mkParam (vec [1%float]) (Some (DenseGrad (vec [f_big]))).
Definition ex_world_big : World float nat :=
  world_of [ex_big] [ex_group_plain] None None.


(** ** More concrete stores *)

(** A parameter without gradient next to one with a dense gradient. *)
Definition ex_idle : Param float := mkParam (vec [7; 8]%float) None.
Definition ex_world_idle : World float nat :=
  world_of [ex_idle] [ex_group_plain] None None.
Definition ex_group_two : Group float :=
  mkGroup [0%nat; 1%nat] f_tenth 0%float 0%float 0%float.
Definition ex_world_mixed : World float nat :=
  world_of [ex_dense; ex_idle] [ex_group_two] None None.


(** A store in which the second parameter of the group was added after
    [__init__]: it has a gradient and no state dict. *)
Definition ex_world_late : World float nat :=
  mkWorld {[ 0%nat := ex_dense; 1%nat := ex_dense ]}
          (mkAdagrad [ex_group_two] {[ 0%nat := fresh_state (data ex_dense) ]} true true)
          0%nat.


(** ** Stores over the reals *)

(** The scenario's parameter at zero, its state as [reset] leaves it. *)
Definition ex_world_real : World R unit :=
  with_state (insert 0%nat (fresh_state (mkTensor [3%nat] [0; 0; 0]%R)))
    (scenario_world 0 0 0).

(** A row vector with [l1_C = 0.5] under the default flags. *)
Definition ex_group_l1_real : Group R := mkGroup [0%nat] (1 / 10)%R 0%R 0%R (1 / 2)%R.
Definition ex_row_real : Param R :=
  mkParam (mkTensor [1; 2]%nat [1; 2]%R)
          (Some (DenseGrad (mkTensor [1; 2]%nat [1; -1]%R))).
Definition ex_world_row_real : World R unit :=
  mkWorld {[ 0%nat := ex_row_real ]}
          (mkAdagrad [ex_group_l1_real] {[ 0%nat := fresh_state (data ex_row_real) ]}
                     true true) tt.

(** A learning rate that decays, and one whose denominator vanishes at the
    second step. *)
Definition ex_group_decaying : Group R := mkGroup [0%nat] (1 / 10)%R (1 / 2)%R 0%R 0%R.
Definition ex_group_vanishing : Group R := mkGroup [0%nat] (1 / 10)%R (-1)%R 0%R 0%R.
Definition ex_world_vanishing : World R unit :=
  with_state (insert 0%nat (with_step 1 (fresh_state (mkTensor [3%nat] [0; 0; 0]%R))))
    (scenario_world 0 0 0).


(** One parameter that its group lists twice. *)
Definition ex_group_twice : Group float :=
  mkGroup [0%nat; 0%nat] f_tenth 0%float 0%float 0%float.
Definition ex_world_twice : World float nat :=
  world_of [ex_dense] [ex_group_twice] None None.


(** * Properties *)

(** ** The monad and the loops *)

Section MonadFacts.
Context {W : Type}.

Lemma bind_ok {A B} (m : M W A) (k : A → M W B) w a w' :
    m w = (Ok a, w') → bind m k w = k a w'.
Proof. unfold bind. intros ->. reflexivity. Qed.

Lemma bind_err {A B} (m : M W A) (k : A → M W B) w e w' :
    m w = (Err e, w') → bind m k w = (Err e, w').
Proof. unfold bind. intros ->. reflexivity. Qed.

Lemma bind_lift_ok {A B} (r : Res A) (k : A → M W B) w a :
    r = Ok a → bind (lift r) k w = k a w.
Proof. intros ->. reflexivity. Qed.

Lemma bind_lift_err {A B} (r : Res A) (k : A → M W B) w e :
    r = Err e → bind (lift r) k w = (Err e, w).
Proof. intros ->. reflexivity. Qed.

Lemma bind_inv {A B} (m : M W A) (k : A → M W B) w b w' :
  bind m k w = (Ok b, w') → ∃ a w1, m w = (Ok a, w1) ∧ k a w1 = (Ok b, w').
Proof.
  unfold bind. destruct (m w) as [[a|e] w1]; [|discriminate]. eauto.
Qed.

Lemma bind_lift_inv {A B} (r : Res A) (k : A → M W B) w b w' :
  bind (lift r) k w = (Ok b, w') → ∃ a, r = Ok a ∧ k a w = (Ok b, w').
Proof.
  unfold bind, lift. destruct r as [a|e]; [|discriminate]. eauto.
Qed.

Lemma for_each_app {A} (xs ys : list A) (body : A → M W unit) w :
    for_each (xs ++ ys) body w = bind (for_each xs body) (fun _ => for_each ys body) w.
Proof.
    revert w. induction xs as [|x xs IH]; intros w; simpl.
    - reflexivity.
    - unfold bind in *. destruct (body x w) as [[[]|e] w1].
      + apply IH.
      + reflexivity.
Qed.

(** An exception raised by one iteration ends the loop there. *)
Lemma for_each_err {A} (xs ys : list A) x (body : A → M W unit) w w1 e w2 :
    for_each xs body w = (Ok tt, w1) →
    body x w1 = (Err e, w2) →
    for_each (xs ++ x :: ys) body w = (Err e, w2).
Proof.
    intros Hxs Hx. rewrite for_each_app. rewrite (bind_ok _ _ _ _ _ Hxs).
    simpl. apply bind_err. exact Hx.
Qed.

(** A property kept by every iteration is kept by the loop, however it ends. *)
Lemma for_each_preserves {A} (P : W → Prop) (xs : list A) (body : A → M W unit) :
    (∀ x w, x ∈ xs → P w → P (body x w).2) →
    ∀ w, P w → P (for_each xs body w).2.
Proof.
    induction xs as [|x xs IH]; intros Hbody w Hw; simpl.
    - exact Hw.
    - unfold bind.
      pose proof (Hbody x w ltac:(left) Hw) as H1.
      destruct (body x w) as [[[]|e] w1]; simpl in *.
      + apply IH; [|exact H1]. intros y w' Hy. apply Hbody. right. exact Hy.
      + exact H1.
Qed.
End MonadFacts.

(** ** One iteration of [step] *)

Section StepParam.
Context {F : Type} {SF : Scalar F} {E : Type}.
Implicit Types (w : World F E) (group : Group F) (p : Param F) (st : PState F).

Lemma step_param_no_grad group h w p :
    heap w !! h = Some p → grad p = None →
    step_param group h w = (Ok tt, w).
Proof.
    intros Hp Hg. unfold step_param, bind, get_param. rewrite Hp, Hg. reflexivity.
Qed.

Lemma step_param_unfold group h w p g st0 :
    heap w !! h = Some p → grad p = Some g →
    state (optimizer w) !! h = Some st0 →
    let st := with_step (st_step st0 + 1) st0 in
    let w1 := with_state (insert h st) w in
    step_param group h w =
      match decayed_grad group p g with
      | Err e => (Err e, w1)
      | Ok g' =>
          match current_lr group (st_step st) with
          | Err e => (Err e, w1)
          | Ok clr =>
              match l1_selected (optimizer w) group (data p) with
              | Err e => (Err e, w1)
              | Ok l1 => dispatch group h clr st p g' l1 w1
              end
          end
      end.
Proof.
    intros Hp Hg Hst st w1.
    unfold step_param, bind at 1, get_param. rewrite Hp, Hg.
    unfold bind at 1, get_state. rewrite Hst.
    unfold bind at 1, put_state, modify. fold st. fold w1.
    unfold bind at 1, lift.
    destruct (decayed_grad group p g) as [g'|e]; [|reflexivity].
    unfold bind at 1.
    destruct (current_lr group (st_step st)) as [clr|e]; [|reflexivity].
    unfold bind at 1, gets. unfold bind at 1.
    change (l1_selected (optimizer w1) group (data p))
      with (l1_selected (optimizer w) group (data p)).
    destruct (l1_selected (optimizer w) group (data p)) as [l1|e]; reflexivity.
Qed.

Lemma step_param_no_state group h w p g :
    heap w !! h = Some p → grad p = Some g →
    state (optimizer w) !! h = None →
    step_param group h w = (Err (KeyError "step"), w).
Proof.
    intros Hp Hg Hst.
    unfold step_param, bind at 1, get_param. rewrite Hp, Hg.
    unfold bind at 1, get_state. rewrite Hst. reflexivity.
Qed.

Lemma l1_selected_rank_pos opt group d ds (xs : list F) :
    l1_selected opt group (mkTensor (d :: ds) xs)
    = Ok (l1_condition opt group (length (d :: ds)) d).
Proof.
    unfold l1_selected, l1_condition, py_and, py_or, res_bind, size0. cbn [shape].
    destruct (nonzero (l1_C group)); [|reflexivity].
    destruct (no_bias_l1 opt); [|reflexivity]. cbn [negb orb andb].
    destruct (1 <? length (d :: ds))%nat; cbn [orb andb].
    - destruct (no_non_singleton_l1 opt); reflexivity.
    - destruct (1 <? d)%nat; [|reflexivity].
      destruct (no_non_singleton_l1 opt); reflexivity.
Qed.

(** On a tensor without dimensions [t.size(0)] raises, and line 83
    reaches it exactly when [l1_C != 0] and [no_bias_l1] is set. *)
Lemma l1_selected_rank_0 opt group (xs : list F) :
    l1_selected opt group (mkTensor [] xs)
    = if nonzero (l1_C group)
      then if no_bias_l1 opt then Err IndexError else Ok true
      else Ok false.
Proof.
    unfold l1_selected, py_and, py_or, res_bind, size0. cbn [shape].
    destruct (nonzero (l1_C group)); [|reflexivity].
    destruct (no_bias_l1 opt); reflexivity.
Qed.

(** The two groupings differ only when [no_bias_l1] is switched off. *)
Lemma spec_l1_condition_default opt group rank d :
    no_bias_l1 opt = true →
    spec_l1_condition opt group rank d = l1_condition opt group rank d.
Proof. unfold spec_l1_condition, l1_condition. intros ->. reflexivity. Qed.

End StepParam.

(** ** [reset] and [__init__] *)

Section Reset.
Context {F : Type} {SF : Scalar F} {E : Type}.
Implicit Types (w : World F E) (group : Group F) (p : Param F) (st : PState F).

Lemma reset_param_flags h w :
  no_bias_l1 (optimizer (reset_param h w).2) = no_bias_l1 (optimizer w)
  ∧ no_non_singleton_l1 (optimizer (reset_param h w).2) = no_non_singleton_l1 (optimizer w).
Proof.
  unfold reset_param, bind, get_param. destruct (heap w !! h); simpl; auto.
Qed.

Lemma reset_flags w :
  no_bias_l1 (optimizer (reset w).2) = no_bias_l1 (optimizer w)
  ∧ no_non_singleton_l1 (optimizer (reset w).2) = no_non_singleton_l1 (optimizer w).
Proof.
  unfold reset, bind, gets.
  apply (for_each_preserves
           (fun w' => no_bias_l1 (optimizer w') = no_bias_l1 (optimizer w)
                      ∧ no_non_singleton_l1 (optimizer w') = no_non_singleton_l1 (optimizer w)));
    [|auto].
  intros group w1 _ H1.
  apply (for_each_preserves
           (fun w' => no_bias_l1 (optimizer w') = no_bias_l1 (optimizer w)
                      ∧ no_non_singleton_l1 (optimizer w') = no_non_singleton_l1 (optimizer w)));
    [|exact H1].
  intros h w2 _ [H2 H3]. destruct (reset_param_flags h w2) as [-> ->]. auto.
Qed.

Lemma init_default_flags (groups : list (Group F)) w :
  no_bias_l1 (optimizer (Adagrad_init groups None None w).2) = true
  ∧ no_non_singleton_l1 (optimizer (Adagrad_init groups None None w).2) = true.
Proof.
  unfold Adagrad_init, bind, modify.
  match goal with |- context [reset ?w0] => destruct (reset_flags w0) as [-> ->] end.
  simpl. auto.
Qed.

End Reset.

(** ** Path selection *)

Section PathSelection.
Context {F : Type} {SF : Scalar F} {E : Type}.
Implicit Types (w : World F E) (group : Group F) (p : Param F) (st : PState F).

(** C1 (amended).  For a registered parameter of rank at least one whose
    gradient is present, once the step counter is incremented, the
    gradient decayed and the learning rate computed, [step] takes the L1
    proximal path if and only if [l1_C != 0] and
    [(not no_bias_l1) or ((rank > 1 or size(0) > 1) and
    ((not no_non_singleton_l1) or size(0) == 1))]: the conjunction of the
    two shape conditions is the right operand of the [or], as Python's
    precedence has it.  Otherwise the sparse or the dense path runs.  Both
    flags are true when [__init__] is not given them. *)
Theorem C1_l1_path_selection group h w p g st0 g' clr d ds :
  heap w !! h = Some p → grad p = Some g →
  state (optimizer w) !! h = Some st0 →
  shape (data p) = d :: ds →
  decayed_grad group p g = Ok g' →
  current_lr group (st_step st0 + 1) = Ok clr →
  let st := with_step (st_step st0 + 1) st0 in
  let l1 := l1_condition (optimizer w) group (length (d :: ds)) d in
  l1_selected (optimizer w) group (data p) = Ok l1
  ∧ step_param group h w
    = (if l1 then l1_update group h clr st g'
       else match g' with
            | SparseGrad s => sparse_update h clr st p s
            | DenseGrad t => dense_update h clr st p t
            end) (with_state (insert h st) w)
  ∧ (∀ (groups : list (Group F)) (w0 : World F E),
       no_bias_l1 (optimizer (Adagrad_init groups None None w0).2) = true
       ∧ no_non_singleton_l1 (optimizer (Adagrad_init groups None None w0).2) = true).
Proof.
  intros Hp Hg Hst Hsh Hdg Hclr st l1.
  assert (Hsel : l1_selected (optimizer w) group (data p) = Ok l1).
  { destruct p as [[sh xs] gr]. simpl in Hsh. subst sh.
    apply l1_selected_rank_pos. }
  split; [exact Hsel|]. split.
  - rewrite (step_param_unfold group h w p g st0 Hp Hg Hst).
    rewrite Hdg. cbn [st_step with_step]. rewrite Hclr, Hsel. reflexivity.
  - intros groups w0. apply init_default_flags.
Qed.

End PathSelection.

(** C1, witness: the five-element vector with [no_bias_l1] off. *)
Lemma C1_l1_path_selection_witness :
  l1_selected (optimizer ex_world_l1) ex_group_l1 (data ex_bias5) = Ok true.
Proof.
  refine (proj1 (C1_l1_path_selection (E:=nat) ex_group_l1 0%nat ex_world_l1 ex_bias5
            (DenseGrad (vec [1; -1; 2; -2; 0]%float))
            (mkPState 0 (vec [0;0;0;0;0]%float) (vec [0;0;0;0;0]%float) (vec [0;0;0;0;0]%float))
            (DenseGrad (vec [1; -1; 2; -2; 0]%float)) f_tenth 5%nat []
            _ _ _ _ _ _)); vm_compute; reflexivity.
Defined.

(** C1, counterexample: with [no_bias_l1] off and [no_non_singleton_l1] on,
    a vector of five elements takes the L1 path, although the condition as
    the specification groups it is false for it. *)
Lemma C1_counterexample :
  l1_selected (optimizer ex_world_l1) ex_group_l1 (data ex_bias5) = Ok true
  ∧ spec_l1_condition (optimizer ex_world_l1) ex_group_l1 1 5 = false
  ∧ step_param ex_group_l1 0 ex_world_l1
    = l1_update ex_group_l1 0 f_tenth
        (mkPState 1 (vec [0;0;0;0;0]%float) (vec [0;0;0;0;0]%float) (vec [0;0;0;0;0]%float))
        (DenseGrad (vec [1; -1; 2; -2; 0]%float))
        (with_state (insert 0%nat
           (mkPState 1 (vec [0;0;0;0;0]%float) (vec [0;0;0;0;0]%float) (vec [0;0;0;0;0]%float)))
           ex_world_l1).
Proof. repeat split; vm_compute; reflexivity. Qed.

(** ** Tensor operations *)

Section TensorFacts.
Context {F : Type} {SF : Scalar F}.
Implicit Types (a b c t : Tensor F).

Lemma same_size_true a b :
  same_size a b = true ↔ shape a = shape b ∧ length (elems a) = length (elems b).
Proof.
  unfold same_size. rewrite andb_true_iff, bool_decide_eq_true, Nat.eqb_eq. tauto.
Qed.

Lemma same_size_trans a b c :
  same_size a b = true → same_size b c = true → same_size a c = true.
Proof. rewrite !same_size_true. intros [-> ->] [-> ->]. auto. Qed.

Lemma same_size_t_map f a : same_size (t_map f a) a = true.
Proof. apply same_size_true. simpl. rewrite length_fmap. auto. Qed.

Lemma zeros_like_same_size a b : same_size a b = true → zeros_like a = zeros_like b.
Proof.
  destruct a as [sa xs], b as [sb ys]. rewrite same_size_true. simpl. intros [-> Hlen].
  unfold zeros_like, t_map. simpl. f_equal.
  revert ys Hlen. induction xs as [|x xs IH]; intros [|y ys] Hlen; simpl in *;
    try discriminate; [reflexivity|].
  f_equal. apply IH. lia.
Qed.

Lemma t_map2_ok f a b :
  same_size a b = true →
  t_map2 f a b = Ok (mkTensor (shape a) (zip_with f (elems a) (elems b))).
Proof. unfold t_map2. intros ->. reflexivity. Qed.

Lemma zip_with3_diag (f : F → F → F → F) xs ys :
  zip_with3 f xs ys ys = zip_with (fun x y => f x y y) xs ys.
Proof.
  revert ys. induction xs as [|x xs IH]; intros [|y ys]; simpl; try reflexivity.
  f_equal. apply IH.
Qed.

Lemma t_map3_diag_ok f a b :
  same_size a b = true →
  t_map3 f a b b = Ok (mkTensor (shape a) (zip_with (fun x y => f x y y) (elems a) (elems b))).
Proof. unfold t_map3. intros ->. simpl. rewrite zip_with3_diag. reflexivity. Qed.

Lemma length_zip_with_eq {A B C} (f : A → B → C) (xs : list A) (ys : list B) :
  length xs = length ys → length (zip_with f xs ys) = length xs.
Proof. intros H. rewrite length_zip_with. lia. Qed.

End TensorFacts.

(** ** The store *)

Section StoreFacts.
Context {F : Type} {SF : Scalar F} {E : Type}.
Implicit Types (w : World F E) (group : Group F) (p : Param F) (st : PState F).

Lemma with_state_insert_insert h st st' w :
  with_state (insert h st') (with_state (insert h st) w) = with_state (insert h st') w.
Proof. unfold with_state. simpl. rewrite insert_insert_eq. reflexivity. Qed.

Lemma updated_with_state h new st st' w :
  updated h new st' (with_state (insert h st) w) = updated h new st' w.
Proof. unfold updated. rewrite with_state_insert_insert. reflexivity. Qed.

Lemma updated_heap_lookup h new st w p :
  heap w !! h = Some p →
  heap (updated h new st w) !! h = Some (mkParam new (grad p)).
Proof. intros Hp. unfold updated. simpl. rewrite lookup_alter_eq, Hp. reflexivity. Qed.

Lemma updated_heap_lookup_ne h h' new st w :
  h ≠ h' → heap (updated h new st w) !! h' = heap w !! h'.
Proof. intros Hne. unfold updated. simpl. apply lookup_alter_ne. exact Hne. Qed.

Lemma updated_state_lookup h new st w :
  state (optimizer (updated h new st w)) !! h = Some st.
Proof. unfold updated. simpl. apply lookup_insert_eq. Qed.

Lemma updated_state_lookup_ne h h' new st w :
  h ≠ h' →
  state (optimizer (updated h new st w)) !! h' = state (optimizer w) !! h'.
Proof. intros Hne. unfold updated. simpl. apply lookup_insert_ne. exact Hne. Qed.

(** The store after an update does not remember the value it replaced. *)
Lemma updated_forgets h new st w p d :
  heap w !! h = Some p →
  updated h new st (with_heap (insert h (mkParam d (grad p))) w) = updated h new st w.
Proof.
  intros Hp. unfold updated, with_heap, with_state. simpl. f_equal.
  apply map_eq. intros i. destruct (decide (i = h)) as [->|Hne].
  - rewrite !lookup_alter_eq, lookup_insert_eq, Hp. reflexivity.
  - rewrite !lookup_alter_ne, lookup_insert_ne by congruence. reflexivity.
Qed.

Lemma l1_selected_shape (opt : Adagrad F) group (t t' : Tensor F) :
  shape t = shape t' → l1_selected opt group t = l1_selected opt group t'.
Proof. unfold l1_selected, size0. intros ->. reflexivity. Qed.

End StoreFacts.

(** ** The L1 proximal path *)

Section L1Path.
Context {F : Type} {SF : Scalar F} {E : Type}.
Implicit Types (w : World F E) (group : Group F) (p : Param F) (st : PState F).

Lemma l1_elems (f0 f1 f2 f3 f4 : F → F) (z : F) (avg sum ts : list F) :
  length sum = length avg → length ts = length avg →
  zip_with fmul
    (zip_with fmul (f1 <$> (f0 <$> avg)) (f2 <$> (f3 <$> sum)))
    (zip_with fmax (f4 <$> (f0 <$> avg)) ((fun _ => z) <$> ts))
  = zip_with (fun a s => fmul (fmul (f1 (f0 a)) (f2 (f3 s))) (fmax (f4 (f0 a)) z)) avg sum.
Proof.
  revert sum ts. induction avg as [|a avg IH]; intros [|s sum] [|t ts] Hs Ht;
    simpl in *; try discriminate; try reflexivity.
  f_equal. apply IH; lia.
Qed.

(** Lines 86-91 on a dense gradient of the size of the accumulators. *)
Lemma l1_update_dense group h clr st (g : Tensor F) w :
  state_fits g st →
  l1_update group h clr st (DenseGrad g) w
  = (Ok tt,
     updated h (l1_value group clr (st_step st) (acc_avg st g) (acc_sum st g))
             (mkPState (st_step st) (acc_sum st g) (acc_avg st g) (st_zeros st)) w).
Proof.
  intros (Hsum & Havg & Hz).
  pose proof Hsum as Hsum'. pose proof Havg as Havg'.
  apply same_size_true in Hsum' as [Hss Hsl]. apply same_size_true in Havg' as [Has Hal].
  unfold l1_update.
  rewrite (bind_lift_ok _ _ _ (acc_avg st g)) by (apply t_map2_ok; exact Havg).
  unfold bind at 1, put_state, modify.
  rewrite (bind_lift_ok _ _ _ (acc_sum st g)) by (apply t_map3_diag_ok; exact Hsum).
  unfold bind at 1. rewrite with_state_insert_insert.
  cbn [st_step st_zeros with_sum with_avg].
  erewrite bind_lift_ok; cycle 1.
  { apply t_map2_ok. apply same_size_true. rewrite Hz. simpl.
    rewrite !length_fmap, length_zip_with_eq by exact Hal. split; congruence. }
  erewrite bind_lift_ok; cycle 1.
  { apply t_map2_ok. apply same_size_true. simpl.
    rewrite !length_fmap, !length_zip_with_eq by assumption. split; congruence. }
  erewrite bind_lift_ok; cycle 1.
  { apply t_map2_ok. apply same_size_true. simpl.
    rewrite Hz. simpl.
    rewrite !length_zip_with, !length_fmap, !length_zip_with. split; [reflexivity|lia]. }
  unfold set_data, modify, updated, l1_value, with_sum, with_avg. simpl.
  rewrite Hz. simpl.
  rewrite l1_elems; [reflexivity| |];
    rewrite !length_zip_with_eq by assumption; congruence.
Qed.

Lemma decayed_grad_off group p (g : Grad F) :
  nonzero (weight_decay group) = false → decayed_grad group p g = Ok g.
Proof. unfold decayed_grad. intros ->. reflexivity. Qed.

(** C2.  On the L1 proximal path, for an eligible parameter with
    [weight_decay = 0] and a dense gradient of the size of its
    accumulators, [step] sets the parameter to
    [sign(-g_bar) * (clr * step / adapt) * max(|g_bar| - l1_C, 0)]
    elementwise, where [g_bar] is the accumulated gradient sum divided by
    the step count and [adapt = sqrt(sum_sq_grad) + 1e-10].  The value
    replaces the one the parameter had: from a store that differs only in
    that prior value, the step ends in the very same store. *)
Theorem C2_l1_update_replaces group h w p (g : Tensor F) st0 clr :
  heap w !! h = Some p → grad p = Some (DenseGrad g) →
  state (optimizer w) !! h = Some st0 →
  nonzero (weight_decay group) = false →
  l1_selected (optimizer w) group (data p) = Ok true →
  current_lr group (st_step st0 + 1) = Ok clr →
  state_fits g st0 →
  let n := (st_step st0 + 1)%Z in
  let avg := acc_avg st0 g in
  let sum := acc_sum st0 g in
  let w' := updated h (l1_value group clr n avg sum) (mkPState n sum avg (st_zeros st0)) w in
  step_param group h w = (Ok tt, w')
  ∧ heap w' !! h = Some (mkParam (l1_value group clr n avg sum) (grad p))
  ∧ ∀ prior : Tensor F,
      shape prior = shape (data p) →
      step_param group h (with_heap (insert h (mkParam prior (grad p))) w) = (Ok tt, w').
Proof.
  intros Hp Hg Hst Hwd Hl1 Hclr Hfit n avg sum w'.
  assert (Hstep : ∀ w2 p2,
             heap w2 !! h = Some p2 → grad p2 = Some (DenseGrad g) →
             state (optimizer w2) !! h = Some st0 →
             l1_selected (optimizer w2) group (data p2) = Ok true →
             step_param group h w2
             = (Ok tt, updated h (l1_value group clr n avg sum)
                               (mkPState n sum avg (st_zeros st0)) w2)).
  { intros w2 p2 Hp2 Hg2 Hst2 Hl2.
    rewrite (step_param_unfold group h w2 p2 _ st0 Hp2 Hg2 Hst2).
    rewrite (decayed_grad_off _ _ _ Hwd). cbn [st_step with_step].
    rewrite Hclr, Hl2. unfold dispatch.
    rewrite l1_update_dense by exact Hfit.
    rewrite updated_with_state. reflexivity. }
  split; [|split].
  - apply Hstep with p; assumption.
  - apply updated_heap_lookup. exact Hp.
  - intros prior Hshape.
    rewrite (Hstep _ (mkParam prior (grad p))).
    + unfold w'. rewrite updated_forgets by exact Hp. reflexivity.
    + simpl. apply lookup_insert_eq.
    + exact Hg.
    + exact Hst.
    + simpl. rewrite <- Hl1. apply l1_selected_shape. exact Hshape.
Qed.

End L1Path.

(** C2, witness: the row vector under the default flags. *)
Lemma C2_l1_update_replaces_witness :
  (step_param ex_group_l1 0 ex_world_row).1 = Ok tt.
Proof.
  refine (f_equal fst (proj1 (C2_l1_update_replaces (E:=nat) ex_group_l1 0%nat ex_world_row
            ex_row (mkTensor [1; 3]%nat [1; -1; 0.25]%float)
            (fresh_state (data ex_row)) f_tenth _ _ _ _ _ _ _)));
    try (repeat split); vm_compute; reflexivity.
Defined.

(** C2 as it is stated, for every eligible parameter, fails on a sparse
    gradient.  The row vector is eligible and its group has no weight
    decay, yet [step] raises on line 87: ['avg'] has taken the gradient,
    ['sum'] has not, and the parameter still has the value it had, which is
    not what the formula gives, neither for the accumulators the gradient
    should have left nor for those it did leave. *)
Lemma C2_counterexample :
  l1_selected (optimizer ex_world_row_sparse) ex_group_l1 (data ex_row_sparse) = Ok true
  ∧ nonzero (weight_decay ex_group_l1) = false
  ∧ (step_param ex_group_l1 0 ex_world_row_sparse).1 = Err TypeError
  ∧ (data <$> heap (step_param ex_group_l1 0 ex_world_row_sparse).2 !! 0%nat)
    = Some (mkTensor [1; 3]%nat [1; 2; 3]%float)
  ∧ (st_avg <$> state (optimizer (step_param ex_group_l1 0 ex_world_row_sparse).2) !! 0%nat)
    = Some (mkTensor [1; 3]%nat [1; 0; 0.25]%float)
  ∧ (st_sum <$> state (optimizer (step_param ex_group_l1 0 ex_world_row_sparse).2) !! 0%nat)
    = Some (mkTensor [1; 3]%nat [0; 0; 0]%float)
  ∧ (data <$> heap (step_param ex_group_l1 0 ex_world_row_sparse).2 !! 0%nat)
    ≠ Some (l1_value ex_group_l1 f_tenth 1 (mkTensor [1; 3]%nat [1; 0; 0.25]%float)
              (mkTensor [1; 3]%nat [1; 0; 0.0625]%float))
  ∧ (data <$> heap (step_param ex_group_l1 0 ex_world_row_sparse).2 !! 0%nat)
    ≠ Some (l1_value ex_group_l1 f_tenth 1 (mkTensor [1; 3]%nat [1; 0; 0.25]%float)
              (mkTensor [1; 3]%nat [0; 0; 0]%float)).
Proof.
  do 6 (split; [vm_compute; reflexivity|]).
  split; intros H;
    apply (f_equal (fun o : option (Tensor float) =>
                      match o with
                      | Some t => match elems t with
                                  | x :: _ => PrimFloat.ltb 0 x
                                  | [] => false
                                  end
                      | None => false
                      end)) in H;
    vm_compute in H; discriminate.
Qed.

(** ** The dense path *)

Section DensePath.
Context {F : Type} {SF : Scalar F} {E : Type}.
Implicit Types (w : World F E) (group : Group F) (p : Param F) (st : PState F).

Lemma zip_with3_fmap_3 (f : F → F → F → F) (k : F → F) xs ys zs :
  zip_with3 f xs ys (k <$> zs) = zip_with3 (fun x y z => f x y (k z)) xs ys zs.
Proof.
  revert ys zs. induction xs as [|x xs IH]; intros [|y ys] [|z zs]; simpl; try reflexivity.
  f_equal. apply IH.
Qed.

(** Lines 108-110 on a gradient of the size of the parameter and of its
    accumulator. *)
Lemma dense_update_ok h clr st p (g : Tensor F) w :
  same_size (st_sum st) g = true → same_size (data p) g = true →
  dense_update h clr st p g w
  = (Ok tt, updated h (dense_value clr (data p) g (acc_sum st g))
                    (with_sum (acc_sum st g) st) w).
Proof.
  intros Hsum Hx.
  pose proof Hsum as Hsum'. pose proof Hx as Hx'.
  apply same_size_true in Hsum' as [Hss Hsl]. apply same_size_true in Hx' as [Hxs Hxl].
  unfold dense_update.
  rewrite (bind_lift_ok _ _ _ (acc_sum st g)) by (apply t_map3_diag_ok; exact Hsum).
  unfold bind at 1, put_state, modify.
  erewrite bind_lift_ok; cycle 1.
  { unfold t_addcdiv, t_map3. rewrite Hx.
    replace (same_size (data p) (t_sqrt_add eps (acc_sum st g))) with true.
    - reflexivity.
    - symmetry. apply same_size_true. simpl.
      rewrite length_fmap, length_zip_with_eq by exact Hsl. split; congruence. }
  unfold set_data, modify, updated, dense_value. simpl.
  rewrite zip_with3_fmap_3. reflexivity.
Qed.

Lemma step_param_dense group h w p (g : Tensor F) st0 clr :
  heap w !! h = Some p → grad p = Some (DenseGrad g) →
  state (optimizer w) !! h = Some st0 →
  nonzero (weight_decay group) = false →
  l1_selected (optimizer w) group (data p) = Ok false →
  current_lr group (st_step st0 + 1) = Ok clr →
  same_size (st_sum st0) g = true → same_size (data p) g = true →
  step_param group h w
  = (Ok tt, updated h (dense_value clr (data p) g (acc_sum st0 g))
                    (mkPState (st_step st0 + 1) (acc_sum st0 g) (st_avg st0) (st_zeros st0)) w).
Proof.
  intros Hp Hg Hst Hwd Hl1 Hclr Hsum Hx.
  rewrite (step_param_unfold group h w p _ st0 Hp Hg Hst).
  rewrite (decayed_grad_off _ _ _ Hwd). cbn [st_step with_step].
  rewrite Hclr, Hl1. unfold dispatch.
  rewrite dense_update_ok by assumption.
  rewrite updated_with_state. reflexivity.
Qed.

Lemma l1_selected_off (opt : Adagrad F) group (t : Tensor F) :
  nonzero (l1_C group) = false → l1_selected opt group t = Ok false.
Proof. unfold l1_selected, py_and, res_bind. intros ->. reflexivity. Qed.

End DensePath.

(** ** [step] over a single parameter *)

Section SingleParam.
Context {F : Type} {SF : Scalar F} {E L : Type}.
Implicit Types (w : World F E) (group : Group F) (p : Param F) (st : PState F).

Lemma step_None w :
  step (L:=L) None w
  = match step_groups (param_groups (optimizer w)) w with
    | (Ok _, w') => (Ok None, w')
    | (Err e, w') => (Err e, w')
    end.
Proof.
  unfold step, bind, ret, gets.
  destruct (step_groups (param_groups (optimizer w)) w) as [[[]|e] w']; reflexivity.
Qed.

Lemma step_groups_single group h w :
  params group = [h] →
  step_groups [group] w = step_param group h w.
Proof.
  intros Hps. unfold step_groups. simpl. rewrite Hps. simpl. unfold bind, ret.
  destruct (step_param group h w) as [[[]|e] w']; reflexivity.
Qed.

Lemma reset_single group h w p :
  param_groups (optimizer w) = [group] → params group = [h] →
  heap w !! h = Some p →
  reset w = (Ok tt, with_state (insert h (fresh_state (data p))) w).
Proof.
  intros Hgs Hps Hp. unfold reset, bind at 1, gets. rewrite Hgs. simpl. rewrite Hps. simpl.
  unfold bind, reset_param, get_param, bind, put_state, modify, ret. rewrite Hp. reflexivity.
Qed.

End SingleParam.

(** ** Exact arithmetic: the optimizer on the reals *)

Section Reals.
Context {E : Type}.
Implicit Types (w : World R E) (group : Group R) (p : Param R) (st : PState R).
Open Scope R_scope.

Lemma Rnonzero_true (x : R) : x ≠ 0 → Rnonzero x = true.
Proof. unfold Rnonzero. destruct (Req_dec_T x 0); [contradiction|reflexivity]. Qed.

Lemma Rnonzero_false (x : R) : x = 0 → Rnonzero x = false.
Proof. unfold Rnonzero. destruct (Req_dec_T x 0); [reflexivity|contradiction]. Qed.

Lemma current_lr_no_decay group (n : Z) :
  lr_decay group = 0 → current_lr group n = Ok (lr group).
Proof.
  intros Hd. unfold current_lr, py_div. rewrite Hd. simpl.
  rewrite Rnonzero_true by lra. f_equal. field.
Qed.

Lemma eps_pos : 0 < 1 / 10 ^ 10.
Proof. apply Rdiv_lt_0_compat; [lra|]. apply pow_lt. lra. Qed.

Lemma fresh_acc_sum (x g : Tensor R) :
  same_size x g = true →
  acc_sum (fresh_state x) g = mkTensor (shape x) ((fun gi => gi * gi) <$> elems g).
Proof.
  intros Hx. apply same_size_true in Hx as [_ Hlen].
  unfold acc_sum, fresh_state, zeros_like, t_map. simpl. f_equal.
  revert Hlen. generalize (elems x) as xs, (elems g) as gs.
  induction xs as [|x0 xs IH]; intros [|g0 gs] Hlen; simpl in *; try discriminate;
    [reflexivity|].
  f_equal; [lra|]. apply IH. lia.
Qed.

Lemma first_dense_value (lr0 : R) (x g : Tensor R) :
  same_size x g = true →
  dense_value lr0 x g (mkTensor (shape x) ((fun gi => gi * gi) <$> elems g))
  = mkTensor (shape x)
      (zip_with (fun xi gi => xi - lr0 * gi / (Rabs gi + 1 / 10 ^ 10)) (elems x) (elems g)).
Proof.
  intros Hx. apply same_size_true in Hx as [_ Hlen].
  unfold dense_value. simpl. f_equal.
  revert Hlen. generalize (elems x) as xs, (elems g) as gs.
  induction xs as [|x0 xs IH]; intros [|g0 gs] Hlen; simpl in *; try discriminate;
    [reflexivity|].
  f_equal; [|apply IH; lia].
  replace (g0 * g0) with (Rsqr g0) by reflexivity. rewrite sqrt_Rsqr_abs.
  pose proof (Rabs_pos g0). pose proof eps_pos. field. lra.
Qed.

End Reals.

Section RealSteps.
Context {E : Type}.
Implicit Types (w : World R E) (group : Group R) (p : Param R) (st : PState R).
Open Scope R_scope.

(** One call of [step()] over a single dense parameter, without weight
    decay, learning-rate decay or L1. *)
Lemma step_single_dense w group h p (g : Tensor R) st0 :
  param_groups (optimizer w) = [group] → params group = [h] →
  heap w !! h = Some p → grad p = Some (DenseGrad g) →
  state (optimizer w) !! h = Some st0 →
  lr_decay group = 0 → weight_decay group = 0 → l1_C group = 0 →
  same_size (st_sum st0) g = true → same_size (data p) g = true →
  step (L:=unit) None w
  = (Ok None, updated h (dense_value (lr group) (data p) g (acc_sum st0 g))
                (mkPState (st_step st0 + 1) (acc_sum st0 g) (st_avg st0) (st_zeros st0)) w).
Proof.
  intros Hgs Hps Hp Hg Hst Hd Hwd Hl1 Hsum Hx.
  rewrite step_None, Hgs, (step_groups_single group h w Hps).
  rewrite (step_param_dense group h w p g st0 (lr group)); try assumption.
  - reflexivity.
  - simpl. apply Rnonzero_false. exact Hwd.
  - apply l1_selected_off. simpl. apply Rnonzero_false. exact Hl1.
  - apply current_lr_no_decay. exact Hd.
Qed.

End RealSteps.

Section RealScenario.
Open Scope R_scope.

Lemma scenario_three_steps (a b c : R) :
  ∃ w3 : World R unit,
    (let* _ := Adagrad_init [scenario_group] None None in steps 3) (scenario_world a b c)
    = (Ok tt, w3)
    ∧ state (optimizer w3) !! 0%nat
      = Some (mkPState 3 (mkTensor [3%nat] [3; 3; 3]) (mkTensor [3%nat] [0; 0; 0])
                       (mkTensor [3%nat] [0; 0; 0]))
    ∧ get_step (optimizer w3) = Some 3%Z
    ∧ heap w3 !! 0%nat
      = Some (mkParam (mkTensor [3%nat]
                         [dense_closed_form (1 / 10) 1 3 a;
                          dense_closed_form (1 / 10) 1 3 b;
                          dense_closed_form (1 / 10) 1 3 c])
                      (Some (DenseGrad scenario_grad))).
Proof.
  eexists. split.
  - unfold Adagrad_init. unfold bind at 1, modify. unfold bind at 1.
    erewrite (reset_single scenario_group 0%nat); [|reflexivity..].
    unfold steps.
    do 3 (unfold bind at 1;
          erewrite (step_single_dense _ scenario_group 0%nat); [|reflexivity..]).
    unfold ret. reflexivity.
  - split; [|split].
    + rewrite updated_state_lookup. f_equal.
      unfold acc_sum, fresh_state, zeros_like, t_map, scenario_grad. simpl.
      repeat f_equal; lra.
    + unfold get_step. simpl. rewrite lookup_insert_eq. reflexivity.
    + erewrite updated_heap_lookup;
        [|erewrite updated_heap_lookup;
          [|erewrite updated_heap_lookup; [|reflexivity]; reflexivity]; reflexivity].
      unfold dense_value, acc_sum, fresh_state, zeros_like, t_map, scenario_grad,
        scenario_group, dense_closed_form.
      cbn [data grad shape elems st_sum st_step st_avg st_zeros lr zip_with3 zip_with
           fmap list_fmap fadd fmul fdiv fneg fsqrt eps of_Z RScalar].
      replace (0 + 1 * 1 * 1 + 1 * 1 * 1 + 1 * 1 * 1) with (INR 3 * (1 * 1)) by (simpl; lra).
      replace (0 + 1 * 1 * 1 + 1 * 1 * 1) with (INR 2 * (1 * 1)) by (simpl; lra).
      replace (0 + 1 * 1 * 1) with (INR 1 * (1 * 1)) by (simpl; lra).
      do 3 f_equal.
      f_equal; [|f_equal; [|f_equal]]; unfold Rdiv, Rminus; ring.
Qed.

(** The same three steps, run on binary64 floats. *)
Lemma scenario_three_steps_float :
  ∃ w3 : World float nat,
    steps 3 scenario_world_float = (Ok tt, w3)
    ∧ state (optimizer w3) !! 0%nat
      = Some (mkPState 3 (vec [3; 3; 3]%float) (vec [0; 0; 0]%float) (vec [0; 0; 0]%float))
    ∧ get_step (optimizer w3) = Some 3%Z
    ∧ (data <$> heap w3 !! 0%nat)
      = Some (vec (dense_closed_form_float f_tenth 1 3 <$> [1; 2; 3]%float)).
Proof.
  eexists. split; [vm_compute; reflexivity|]. repeat split; vm_compute; reflexivity.
Qed.

(** C4.  On the dense path with [lr_decay = 0], [weight_decay = 0] and
    [l1_C = 0], from the all-zero state that [reset] leaves, the first
    [step] with a dense gradient [g] subtracts [lr * g / (|g| + 1e-10)]
    elementwise from the parameter and leaves [g * g] in [sum_sq_grad] and
    1 in the step count.  After three steps on a parameter of shape [3]
    with [lr = 0.1] and the gradient [1, 1, 1], [sum_sq_grad] is
    [3, 3, 3], the step count is 3 and the parameter is the closed-form
    dense update applied three times.  Arithmetic is exact (the reals);
    the scenario is also run on binary64 floats.  In any arithmetic,
    binary64 included, the first step subtracts
    [lr * g / (sqrt (0 + g * g) + 1e-10)] as that arithmetic computes it. *)
Theorem C4_dense_first_step_and_scenario {E : Type}
    (w : World R E) (group : Group R) (h : nat) (p : Param R) (g : Tensor R) :
  heap w !! h = Some p → grad p = Some (DenseGrad g) →
  state (optimizer w) !! h = Some (fresh_state (data p)) →
  same_size (data p) g = true →
  lr_decay group = 0 → weight_decay group = 0 → l1_C group = 0 →
  step_param group h w
  = (Ok tt,
     updated h
       (mkTensor (shape (data p))
          (zip_with (fun x gi => x - lr group * gi / (Rabs gi + 1 / 10 ^ 10))
             (elems (data p)) (elems g)))
       (mkPState 1 (mkTensor (shape (data p)) ((fun gi => gi * gi) <$> elems g))
                 (zeros_like (data p)) (zeros_like (zeros_like (data p))))
       w)
  ∧ (∀ a b c : R, ∃ w3 : World R unit,
       (let* _ := Adagrad_init [scenario_group] None None in steps 3) (scenario_world a b c)
       = (Ok tt, w3)
       ∧ state (optimizer w3) !! 0%nat
         = Some (mkPState 3 (mkTensor [3%nat] [3; 3; 3]) (mkTensor [3%nat] [0; 0; 0])
                          (mkTensor [3%nat] [0; 0; 0]))
       ∧ get_step (optimizer w3) = Some 3%Z
       ∧ heap w3 !! 0%nat
         = Some (mkParam (mkTensor [3%nat]
                            [dense_closed_form (1 / 10) 1 3 a;
                             dense_closed_form (1 / 10) 1 3 b;
                             dense_closed_form (1 / 10) 1 3 c])
                         (Some (DenseGrad scenario_grad))))
  ∧ (∃ w3 : World float nat,
       steps 3 scenario_world_float = (Ok tt, w3)
       ∧ state (optimizer w3) !! 0%nat
         = Some (mkPState 3 (vec [3; 3; 3]%float) (vec [0; 0; 0]%float) (vec [0; 0; 0]%float))
       ∧ get_step (optimizer w3) = Some 3%Z
       ∧ (data <$> heap w3 !! 0%nat)
         = Some (vec (dense_closed_form_float f_tenth 1 3 <$> [1; 2; 3]%float)))
  ∧ (∀ (F : Type) (SF : Scalar F) (wf : World F E) (gf : Group F) (pf : Param F)
       (t : Tensor F),
       heap wf !! h = Some pf → grad pf = Some (DenseGrad t) →
       state (optimizer wf) !! h = Some (fresh_state (data pf)) →
       same_size (data pf) t = true →
       nonzero (weight_decay gf) = false → nonzero (l1_C gf) = false →
       current_lr gf 1 = Ok (lr gf) →
       step_param gf h wf
       = (Ok tt,
          updated h
            (dense_value (lr gf) (data pf) t (acc_sum (fresh_state (data pf)) t))
            (mkPState 1 (acc_sum (fresh_state (data pf)) t)
                      (zeros_like (data pf)) (zeros_like (zeros_like (data pf))))
            wf)).
Proof.
  intros Hp Hg Hst Hx Hd Hwd Hl1. split; [|split; [|split]]; cycle 3.
  { intros F SF wf gf pf t Hpf Hgf Hstf Hxf Hwdf Hl1f Hclr.
    rewrite (step_param_dense gf h wf pf t (fresh_state (data pf)) (lr gf));
      try assumption.
    - reflexivity.
    - apply l1_selected_off. exact Hl1f.
    - simpl. apply same_size_trans with (data pf); [apply same_size_t_map|exact Hxf]. }
  - rewrite (step_param_dense group h w p g (fresh_state (data p)) (lr group));
      try assumption.
    + rewrite (fresh_acc_sum _ _ Hx), (first_dense_value _ _ _ Hx). reflexivity.
    + simpl. apply Rnonzero_false. exact Hwd.
    + apply l1_selected_off. simpl. apply Rnonzero_false. exact Hl1.
    + apply current_lr_no_decay. exact Hd.
    + simpl. apply same_size_trans with (data p); [apply same_size_t_map|exact Hx].
  - apply scenario_three_steps.
  - apply scenario_three_steps_float.
Qed.

End RealScenario.

(** C4, witness: the first step of the scenario, from the value [0, 0, 0]. *)
Lemma C4_dense_first_step_and_scenario_witness :
  (step_param scenario_group 0
     (with_state (insert 0%nat (fresh_state (mkTensor [3%nat] [0; 0; 0]%R)))
        (scenario_world 0 0 0))).1 = Ok tt.
Proof.
  refine (f_equal fst (proj1 (C4_dense_first_step_and_scenario
            (with_state (insert 0%nat (fresh_state (mkTensor [3%nat] [0; 0; 0]%R)))
               (scenario_world 0 0 0))
            scenario_group 0%nat
            (mkParam (mkTensor [3%nat] [0; 0; 0]%R) (Some (DenseGrad scenario_grad)))
            scenario_grad _ _ _ _ _ _ _))); reflexivity.
Defined.

(** C4 as it is stated, for the program's own arithmetic, fails on
    binary64: the code takes the square root of [g * g], and for the
    finite gradient [2^600] the square is infinite.  The first step leaves
    the value 1 where it was, while subtracting [lr * g / (|g| + 1e-10)]
    would give 0.9. *)
Lemma C4_counterexample :
  lr_decay ex_group_plain = 0%float
  ∧ weight_decay ex_group_plain = 0%float
  ∧ l1_C ex_group_plain = 0%float
  ∧ state (optimizer ex_world_big) !! 0%nat = Some (fresh_state (data ex_big))
  ∧ (step_param ex_group_plain 0 ex_world_big).1 = Ok tt
  ∧ (data <$> heap (step_param ex_group_plain 0 ex_world_big).2 !! 0%nat)
    = Some (vec [1%float])
  ∧ (st_sum <$> state (optimizer (step_param ex_group_plain 0 ex_world_big).2) !! 0%nat)
    = Some (vec [infinity])
  ∧ fsub 1%float (fdiv (fmul (lr ex_group_plain) f_big) (fadd (fabs f_big) eps))
    = 0x1.ccccccccccccdp-1%float
  ∧ (data <$> heap (step_param ex_group_plain 0 ex_world_big).2 !! 0%nat)
    ≠ Some (vec [fsub 1%float
                   (fdiv (fmul (lr ex_group_plain) f_big) (fadd (fabs f_big) eps))]).
Proof.
  do 8 (split; [vm_compute; reflexivity|]).
  intros H.
  apply (f_equal (fun o : option (Tensor float) =>
                    match o with
                    | Some t => match elems t with
                                | x :: _ => PrimFloat.ltb x 1
                                | [] => false
                                end
                    | None => false
                    end)) in H.
  vm_compute in H. discriminate.
Qed.

(** ** Sparse tensors *)

Section SparseFacts.
Context {F : Type} {SF : Scalar F}.
Implicit Types (es acc : list (nat * F)) (xs ys : list F).

Lemma scatter_add_length value xs es ys :
  scatter_add value xs es = Ok ys → length ys = length xs.
Proof.
  revert xs. induction es as [|[j v] es IH]; intros xs H; simpl in H.
  - congruence.
  - destruct (xs !! j) as [x|]; [|discriminate].
    rewrite (IH _ H). apply length_insert.
Qed.

(** A coordinate that no entry names keeps its element. *)
Lemma scatter_add_lookup_notin value xs es ys i :
  scatter_add value xs es = Ok ys → i ∉ es.*1 → ys !! i = xs !! i.
Proof.
  revert xs. induction es as [|[j v] es IH]; intros xs H Hi; simpl in H.
  - congruence.
  - destruct (xs !! j) as [x|]; [|discriminate].
    simpl in Hi. apply not_elem_of_cons in Hi as [Hne Hi].
    rewrite (IH _ H Hi). apply list_lookup_insert_ne. congruence.
Qed.

Lemma sp_insert_keys j v acc i :
  i ∈ (sp_insert j v acc).*1 ↔ i = j ∨ i ∈ acc.*1.
Proof.
  induction acc as [|[k u] acc IH]; simpl.
  - rewrite elem_of_cons, elem_of_nil. tauto.
  - destruct (j <? k)%nat eqn:Hlt; [|destruct (j =? k)%nat eqn:Heq]; simpl.
    + rewrite !elem_of_cons. tauto.
    + apply Nat.eqb_eq in Heq. subst k. rewrite !elem_of_cons. tauto.
    + rewrite !elem_of_cons, IH. tauto.
Qed.

Lemma fold_sp_insert_keys es acc i :
  i ∈ (fold_left (fun acc e => sp_insert e.1 e.2 acc) es acc).*1 ↔ i ∈ es.*1 ∨ i ∈ acc.*1.
Proof.
  revert acc. induction es as [|[j v] es IH]; intros acc; simpl.
  - rewrite elem_of_nil. tauto.
  - rewrite IH, sp_insert_keys, elem_of_cons. tauto.
Qed.

(** Coalescing keeps the set of coordinates. *)
Lemma coalesce_indices (s : SparseTensor F) i :
  i ∈ indices (coalesce s) ↔ i ∈ indices s.
Proof.
  unfold indices, coalesce. simpl. rewrite fold_sp_insert_keys, elem_of_nil. tauto.
Qed.

Lemma make_sparse_indices idx size (vals : list F) i :
  i ∈ indices (make_sparse idx size vals) → i ∈ idx.
Proof.
  unfold make_sparse, indices.
  destruct ((length idx =? 0)%nat || (length vals =? 0)%nat); simpl.
  - intros H. apply elem_of_nil in H. contradiction.
  - intros H. apply list_elem_of_fmap in H as [[j v] [-> H]].
    apply elem_of_zip_l in H. exact H.
Qed.

Lemma t_add_sparse_frame value (a b : Tensor F) (s : SparseTensor F) i :
  t_add_sparse value a s = Ok b → i ∉ indices s →
  shape b = shape a ∧ elems b !! i = elems a !! i.
Proof.
  unfold t_add_sparse, res_bind.
  destruct (scatter_add value (elems a) (entries s)) as [ys|e] eqn:Hs; [|discriminate].
  intros [= <-] Hi. simpl. split; [reflexivity|].
  eapply scatter_add_lookup_notin; eauto.
Qed.

End SparseFacts.

(** ** The sparse path *)

Section SparsePath.
Context {F : Type} {SF : Scalar F} {E : Type}.
Implicit Types (w : World F E) (group : Group F) (p : Param F) (st : PState F).

Lemma make_sparse_coalesce_notin (s : SparseTensor F) size (vals : list F) i :
  i ∉ indices s → i ∉ indices (make_sparse (indices (coalesce s)) size vals).
Proof.
  intros Hi Hin. apply Hi. apply coalesce_indices.
  eapply make_sparse_indices. exact Hin.
Qed.

(** Lines 93-106, one outcome for each place where they can stop. *)
Lemma sparse_update_cases h clr st p (s : SparseTensor F) w :
  let gc := coalesce s in
  sparse_update h clr st p s w
  = match t_add_sparse (of_Z 1) (st_sum st)
            (make_sparse (indices gc) (ssize gc) ((fun v => fmul v v) <$> values gc)) with
    | Err e => (Err e, w)
    | Ok sum =>
        let w1 := with_state (insert h (with_sum sum st)) w in
        match gather (elems sum) (indices gc) with
        | Err e => (Err e, w1)
        | Ok std =>
            match t_add_sparse (fneg clr) (data p)
                    (make_sparse (indices gc) (ssize gc)
                       (zip_with fdiv (values gc)
                          ((fun x => fadd (fsqrt x) eps) <$> std))) with
            | Err e => (Err e, w1)
            | Ok new => (Ok tt, updated h new (with_sum sum st) w)
            end
        end
    end.
Proof.
  intros gc. unfold sparse_update. fold gc. unfold bind, lift, put_state, modify, set_data.
  destruct (t_add_sparse (of_Z 1) (st_sum st) _) as [sum|e]; [|reflexivity].
  destruct (gather (elems sum) (indices gc)) as [std|e]; [|reflexivity].
  destruct (t_add_sparse (fneg clr) (data p) _) as [new|e]; reflexivity.
Qed.

(** Lines 93-106 leave alone every coordinate that the gradient does not
    name, however far the update gets. *)
Lemma sparse_update_frame h clr st p (s : SparseTensor F) w i :
  heap w !! h = Some p →
  i ∉ indices s →
  ∃ p' st',
    heap (sparse_update h clr st p s w).2 !! h = Some p'
    ∧ (state (optimizer (sparse_update h clr st p s w).2) !! h = Some st'
       ∨ state (optimizer (sparse_update h clr st p s w).2) = state (optimizer w) ∧ st' = st)
    ∧ elems (data p') !! i = elems (data p) !! i
    ∧ elems (st_sum st') !! i = elems (st_sum st) !! i.
Proof.
  intros Hp Hi. rewrite sparse_update_cases.
  destruct (t_add_sparse (of_Z 1) (st_sum st) _) as [sum|e] eqn:Hsum.
  2:{ exists p, st. simpl. auto. }
  destruct (t_add_sparse_frame _ _ _ _ i Hsum) as [_ Hsi].
  { apply make_sparse_coalesce_notin. exact Hi. }
  cbv zeta.
  destruct (gather (elems sum) (indices (coalesce s))) as [std|e] eqn:Hstd.
  2:{ exists p, (with_sum sum st). simpl. rewrite lookup_insert_eq. auto. }
  destruct (t_add_sparse (fneg clr) (data p) _) as [new|e] eqn:Hnew.
  2:{ exists p, (with_sum sum st). simpl. rewrite lookup_insert_eq. auto. }
  destruct (t_add_sparse_frame _ _ _ _ i Hnew) as [_ Hni].
  { apply make_sparse_coalesce_notin. exact Hi. }
  exists (mkParam new (grad p)), (with_sum sum st).
  cbn [snd]. rewrite (updated_heap_lookup _ _ _ _ _ Hp), updated_state_lookup. auto.
Qed.

Lemma sparse_update_others h clr st p (s : SparseTensor F) w h' :
  h' ≠ h →
  heap (sparse_update h clr st p s w).2 !! h' = heap w !! h'
  ∧ state (optimizer (sparse_update h clr st p s w).2) !! h' = state (optimizer w) !! h'.
Proof.
  intros Hne. rewrite sparse_update_cases. cbv zeta.
  destruct (t_add_sparse (of_Z 1) (st_sum st) _) as [sum|e]; [|auto].
  destruct (gather (elems sum) (indices (coalesce s))) as [std|e].
  2:{ simpl. rewrite lookup_insert_ne by congruence. auto. }
  destruct (t_add_sparse (fneg clr) (data p) _) as [new|e].
  2:{ simpl. rewrite lookup_insert_ne by congruence. auto. }
  cbn [snd]. rewrite updated_heap_lookup_ne, updated_state_lookup_ne by congruence. auto.
Qed.

(** C6.  On the sparse-gradient path (sparse gradient, no weight decay,
    L1 path not selected), for every coordinate that the gradient does not
    name, the parameter value and the [sum_sq_grad] accumulator at that
    coordinate are the same after [step] as before, whether the update
    completes or stops on an error; no other parameter and no other state
    dict is touched. *)
Theorem C6_sparse_path_frame group h w p (s : SparseTensor F) st0 i :
  heap w !! h = Some p → grad p = Some (SparseGrad s) →
  state (optimizer w) !! h = Some st0 →
  nonzero (weight_decay group) = false →
  l1_selected (optimizer w) group (data p) = Ok false →
  i ∉ indices s →
  (∃ p' st',
     heap (step_param group h w).2 !! h = Some p'
     ∧ state (optimizer (step_param group h w).2) !! h = Some st'
     ∧ elems (data p') !! i = elems (data p) !! i
     ∧ elems (st_sum st') !! i = elems (st_sum st0) !! i)
  ∧ (∀ h', h' ≠ h →
       heap (step_param group h w).2 !! h' = heap w !! h'
       ∧ state (optimizer (step_param group h w).2) !! h' = state (optimizer w) !! h').
Proof.
  intros Hp Hg Hst Hwd Hl1 Hi.
  rewrite (step_param_unfold group h w p _ st0 Hp Hg Hst).
  rewrite (decayed_grad_off _ _ _ Hwd). cbn [st_step with_step].
  destruct (current_lr group (st_step st0 + 1)) as [clr|e].
  2:{ split.
      - exists p, (with_step (st_step st0 + 1) st0). simpl.
        rewrite lookup_insert_eq. auto.
      - intros h' Hne. simpl. rewrite lookup_insert_ne by congruence. auto. }
  rewrite Hl1. unfold dispatch.
  set (st := with_step (st_step st0 + 1) st0).
  set (w1 := with_state (insert h st) w).
  assert (Hp1 : heap w1 !! h = Some p) by exact Hp.
  assert (Hst1 : state (optimizer w1) !! h = Some st) by (simpl; apply lookup_insert_eq).
  split.
  - destruct (sparse_update_frame h clr st p s w1 i Hp1 Hi)
      as (p' & st' & H1 & H2 & H3 & H4).
    exists p', st'. repeat split; try assumption.
    destruct H2 as [H2|[H2 ->]]; [exact H2|]. rewrite H2. exact Hst1.
  - intros h' Hne.
    destruct (sparse_update_others h clr st p s w1 h' Hne) as [-> ->].
    simpl. rewrite lookup_insert_ne by congruence. auto.
Qed.

End SparsePath.

(** C6, witness: coordinate 2 of the four-element parameter, whose
    gradient names the coordinates 1 and 3. *)
Lemma C6_sparse_path_frame_witness :
  ∃ p' st',
    heap (step_param ex_group_plain 0 ex_world_sparse).2 !! 0%nat = Some p'
    ∧ state (optimizer (step_param ex_group_plain 0 ex_world_sparse).2) !! 0%nat = Some st'
    ∧ elems (data p') !! 2%nat = Some 3%float
    ∧ elems (st_sum st') !! 2%nat = Some 0%float.
Proof.
  refine (proj1 (C6_sparse_path_frame (E:=nat) ex_group_plain 0%nat ex_world_sparse
            ex_sparse ex_sparse_grad (fresh_state (data ex_sparse)) 2%nat
            _ _ _ _ _ _)); try (vm_compute; reflexivity).
  unfold indices, ex_sparse_grad. simpl. intros H.
  repeat (apply elem_of_cons in H as [H|H]; [discriminate|]).
  apply elem_of_nil in H. exact H.
Defined.

(** ** A sparse gradient that names every coordinate *)

Section FullCoverage.
Context {F : Type} {SF : Scalar F}.
Implicit Types (es acc : list (nat * F)) (xs ys ws : list F).

Lemma sp_insert_increasing j v acc :
  increasing acc.*1 → increasing (sp_insert j v acc).*1.
Proof.
  induction acc as [|[k u] acc IH]; simpl.
  - intros _. split; [|exact I]. intros y Hy. apply elem_of_nil in Hy. contradiction.
  - intros [Hk Hacc].
    destruct (j <? k)%nat eqn:Hlt; [|destruct (j =? k)%nat eqn:Heq]; simpl.
    + apply Nat.ltb_lt in Hlt. split; [|split; assumption].
      intros y Hy. apply elem_of_cons in Hy as [->|Hy]; [exact Hlt|].
      specialize (Hk y Hy). lia.
    + split; assumption.
    + apply Nat.ltb_ge in Hlt. apply Nat.eqb_neq in Heq. split; [|apply IH; exact Hacc].
      intros y Hy. apply sp_insert_keys in Hy as [->|Hy]; [lia|apply Hk; exact Hy].
Qed.

Lemma coalesce_increasing (s : SparseTensor F) : increasing (indices (coalesce s)).
Proof.
  unfold indices, coalesce. simpl.
  assert (H : ∀ es acc, increasing acc.*1 →
              increasing (fold_left (fun acc e => sp_insert e.1 e.2 acc) es acc).*1).
  { induction es as [|[j v] es IH]; intros acc Hacc; simpl; [exact Hacc|].
    apply IH. apply sp_insert_increasing. exact Hacc. }
  apply H. exact I.
Qed.

(** Increasing coordinates that are exactly those of a range are the range. *)
Lemma increasing_range (l : list nat) (k n : nat) :
  increasing l → (∀ i, i ∈ l ↔ (k ≤ i < k + n)%nat) → l = seq k n.
Proof.
  revert l k. induction n as [|n IH]; intros l k Hinc Hl.
  - destruct l as [|x l]; [reflexivity|].
    assert (Hx : x ∈ x :: l) by (left). apply Hl in Hx. lia.
  - destruct l as [|x l].
    + assert (Hk : k ∈ @nil nat) by (apply Hl; lia). apply elem_of_nil in Hk. contradiction.
    + destruct Hinc as [Hx Hinc]. simpl.
      assert (x = k) as ->.
      { assert (H1 : x ∈ x :: l) by (left). apply Hl in H1.
        assert (H2 : k ∈ x :: l) by (apply Hl; lia).
        apply elem_of_cons in H2 as [->|H2]; [reflexivity|]. specialize (Hx k H2). lia. }
      f_equal. apply IH; [exact Hinc|].
      intros i. split.
      * intros Hi. specialize (Hx i Hi).
        assert (H1 : i ∈ k :: l) by (right; exact Hi). apply Hl in H1. lia.
      * intros Hi. assert (H1 : i ∈ k :: l) by (apply Hl; lia).
        apply elem_of_cons in H1 as [->|H1]; [lia|exact H1].
Qed.

Lemma scatter_add_seq value pre xs ws :
  length ws = length xs →
  scatter_add value (pre ++ xs) (zip (seq (length pre) (length xs)) ws)
  = Ok (pre ++ zip_with (fun x w => fadd x (fmul value w)) xs ws).
Proof.
  revert pre ws. induction xs as [|x xs IH]; intros pre [|w ws] Hlen; simpl in *;
    try discriminate; try reflexivity.
  rewrite lookup_app_r by lia. rewrite Nat.sub_diag. simpl.
  rewrite insert_app_r_alt by lia. rewrite Nat.sub_diag. simpl.
  replace (pre ++ fadd x (fmul value w) :: xs)
    with ((pre ++ [fadd x (fmul value w)]) ++ xs) by (rewrite <- app_assoc; reflexivity).
  replace (S (length pre)) with (length (pre ++ [fadd x (fmul value w)]))
    by (rewrite length_app; simpl; lia).
  rewrite IH by lia. rewrite <- app_assoc. reflexivity.
Qed.

Lemma gather_seq pre xs :
  gather (pre ++ xs) (seq (length pre) (length xs)) = Ok xs.
Proof.
  revert pre. induction xs as [|x xs IH]; intros pre; simpl; [reflexivity|].
  rewrite lookup_app_r by lia. rewrite Nat.sub_diag. simpl.
  replace (pre ++ x :: xs) with ((pre ++ [x]) ++ xs) by (rewrite <- app_assoc; reflexivity).
  replace (S (length pre)) with (length (pre ++ [x])) by (rewrite length_app; simpl; lia).
  rewrite IH. reflexivity.
Qed.

(** Adding a sparse tensor that holds one value for every coordinate. *)
Lemma t_add_sparse_full value (a : Tensor F) size ws :
  length ws = length (elems a) →
  t_add_sparse value a (make_sparse (seq 0 (length (elems a))) size ws)
  = Ok (mkTensor (shape a) (zip_with (fun x w => fadd x (fmul value w)) (elems a) ws)).
Proof.
  intros Hlen. unfold t_add_sparse, make_sparse. rewrite length_seq.
  destruct a as [sh xs]. simpl in *.
  destruct xs as [|x xs].
  - destruct ws; [|discriminate]. reflexivity.
  - destruct ws as [|w ws]; [discriminate|].
    pose proof (scatter_add_seq value [] (x :: xs) (w :: ws) Hlen) as H.
    simpl in H. simpl. rewrite H. reflexivity.
Qed.

Lemma scatter_add_in_range value xs es ys :
  scatter_add value xs es = Ok ys → ∀ j, j ∈ es.*1 → (j < length xs)%nat.
Proof.
  revert xs. induction es as [|[k v] es IH]; intros xs H j Hj; simpl in *.
  - apply elem_of_nil in Hj. contradiction.
  - destruct (xs !! k) as [x|] eqn:Hk; [|discriminate].
    apply elem_of_cons in Hj as [->|Hj].
    + apply lookup_lt_Some in Hk. exact Hk.
    + specialize (IH _ H j Hj). rewrite length_insert in IH. exact IH.
Qed.

End FullCoverage.

Section SparseDenseReals.
Context {E : Type}.
Implicit Types (w : World R E) (group : Group R) (p : Param R) (st : PState R).
Implicit Types (es acc : list (nat * R)) (xs ys vs : list R).
Open Scope R_scope.

Lemma sp_total_notin i es : i ∉ es.*1 → sp_total i es = 0.
Proof.
  induction es as [|[j v] es IH]; simpl; [reflexivity|].
  intros Hi. apply not_elem_of_cons in Hi as [Hne Hi].
  destruct (j =? i)%nat eqn:Heq; [apply Nat.eqb_eq in Heq; congruence|].
  apply IH. exact Hi.
Qed.

Lemma sp_total_insert i j v acc :
  sp_total i (sp_insert j v acc) = sp_total i acc + (if (j =? i)%nat then v else 0).
Proof.
  induction acc as [|[k u] acc IH]; simpl.
  - destruct (j =? i)%nat; lra.
  - destruct (j <? k)%nat eqn:Hlt; [|destruct (j =? k)%nat eqn:Heq]; simpl.
    + destruct (j =? i)%nat, (k =? i)%nat; lra.
    + apply Nat.eqb_eq in Heq. subst k. destruct (j =? i)%nat; lra.
    + rewrite IH. destruct (k =? i)%nat; lra.
Qed.

Lemma sp_total_fold i es acc :
  sp_total i (fold_left (fun acc e => sp_insert e.1 e.2 acc) es acc)
  = sp_total i acc + sp_total i es.
Proof.
  revert acc. induction es as [|[j v] es IH]; intros acc; simpl.
  - lra.
  - rewrite IH, sp_total_insert. destruct (j =? i)%nat; lra.
Qed.

(** Coalescing keeps the total at every coordinate. *)
Lemma sp_total_coalesce i (s : SparseTensor R) :
  sp_total i (entries (coalesce s)) = sp_total i (entries s).
Proof. unfold coalesce. simpl. rewrite sp_total_fold. simpl. lra. Qed.

Lemma sp_total_zip_seq k vs i v :
  vs !! i = Some v → sp_total (k + i) (zip (seq k (length vs)) vs) = v.
Proof.
  revert k i. induction vs as [|v0 vs IH]; intros k i Hi; [discriminate|].
  simpl. destruct i as [|i]; simpl in Hi.
  - injection Hi as ->. rewrite Nat.add_0_r, Nat.eqb_refl.
    rewrite sp_total_notin; [lra|].
    intros Hin. apply list_elem_of_fmap in Hin as [[j u] [-> Hin]].
    apply elem_of_zip_l in Hin. apply elem_of_seq in Hin. simpl in Hin. lia.
  - replace (k =? k + S i)%nat with false by (symmetry; apply Nat.eqb_neq; lia).
    replace (k + S i)%nat with (S k + i)%nat by lia. apply IH. exact Hi.
Qed.

Lemma scatter_add_total value xs es ys i x :
  scatter_add value xs es = Ok ys → xs !! i = Some x →
  ys !! i = Some (x + value * sp_total i es).
Proof.
  revert xs x. induction es as [|[j v] es IH]; intros xs x H Hx; simpl in H.
  - injection H as <-. rewrite Hx. simpl. f_equal. lra.
  - destruct (xs !! j) as [xj|] eqn:Hj; [|discriminate]. simpl.
    destruct (j =? i)%nat eqn:Heq.
    + apply Nat.eqb_eq in Heq. subst j.
      rewrite (IH _ (xj + value * v) H).
      * f_equal. simpl. assert (xj = x) by congruence. subst. lra.
      * apply list_lookup_insert_eq. apply lookup_lt_Some in Hj. exact Hj.
    + apply Nat.eqb_neq in Heq. apply (IH _ x H).
      rewrite list_lookup_insert_ne by exact Heq. exact Hx.
Qed.

(** A sparse gradient that names every coordinate of [x]: once coalesced
    its coordinates are [0 .. n-1] and its values are the elements of its
    dense form. *)
Lemma full_coverage_dense (x d : Tensor R) (s : SparseTensor R) :
  (∀ i, (i < length (elems x))%nat → i ∈ indices s) →
  to_dense x s = Ok d →
  indices (coalesce s) = seq 0 (length (elems x))
  ∧ values (coalesce s) = elems d
  ∧ shape d = shape x
  ∧ length (elems d) = length (elems x).
Proof.
  intros Hcov Hd. unfold to_dense, t_add_sparse, res_bind in Hd.
  destruct (scatter_add (of_Z 1) (elems (zeros_like x)) (entries s)) as [ds|e] eqn:Hs;
    [|discriminate].
  injection Hd as <-. simpl.
  assert (Hlen : length ds = length (elems x)).
  { rewrite (scatter_add_length _ _ _ _ Hs). simpl. apply length_fmap. }
  assert (Hidx : indices (coalesce s) = seq 0 (length (elems x))).
  { apply increasing_range; [apply coalesce_increasing|].
    intros i. rewrite coalesce_indices. split.
    - intros Hi. apply (scatter_add_in_range _ _ _ _ Hs) in Hi.
      simpl in Hi. rewrite length_fmap in Hi. lia.
    - intros Hi. apply Hcov. lia. }
  split; [exact Hidx|]. split; [|auto].
  assert (Hvlen : length (values (coalesce s)) = length (elems x)).
  { unfold values. rewrite length_fmap.
    transitivity (length (indices (coalesce s))).
    - unfold indices. rewrite length_fmap. reflexivity.
    - rewrite Hidx. apply length_seq. }
  apply list_eq. intros i.
  destruct (values (coalesce s) !! i) as [v|] eqn:Hv.
  - assert (Hi : (i < length (elems x))%nat).
    { apply lookup_lt_Some in Hv. lia. }
    assert (Hz : elems (zeros_like x) !! i = Some 0).
    { simpl. rewrite list_lookup_fmap.
      destruct (lookup_lt_is_Some_2 (elems x) i Hi) as [xi ->]. reflexivity. }
    rewrite (scatter_add_total _ _ _ _ i 0 Hs Hz). f_equal.
    pose proof (sp_total_zip_seq 0 (values (coalesce s)) i v Hv) as Ht.
    rewrite Hvlen, <- Hidx in Ht. unfold indices, values in Ht.
    rewrite zip_fst_snd in Ht. change (0 + i)%nat with i in Ht.
    rewrite sp_total_coalesce in Ht. simpl. lra.
  - symmetry. apply lookup_ge_None. apply lookup_ge_None in Hv. lia.
Qed.

Lemma agree_sum (sums vs : list R) :
  zip_with (fun a b => a + 1 * b) sums ((fun v => v * v) <$> vs)
  = zip_with (fun s x => s + 1 * x * x) sums vs.
Proof.
  revert vs. induction sums as [|s sums IH]; intros [|v vs]; simpl; try reflexivity.
  f_equal; [lra|apply IH].
Qed.

Lemma agree_value (clr : R) (xs vs sums : list R) :
  zip_with (fun a b => a + - clr * b) xs
    (zip_with Rdiv vs ((fun s => sqrt s + 1 / 10 ^ 10) <$> sums))
  = zip_with3 (fun x y s => x + - clr * y / (sqrt s + 1 / 10 ^ 10)) xs vs sums.
Proof.
  revert vs sums. induction xs as [|x xs IH]; intros [|v vs] [|s sums]; simpl;
    try reflexivity.
  f_equal; [unfold Rdiv; ring|apply IH].
Qed.

End SparseDenseReals.

Section SparseDenseAgree.
Context {E : Type}.
Implicit Types (w : World R E) (group : Group R) (p : Param R) (st : PState R).
Open Scope R_scope.

(** Lines 93-106 on a gradient that names every coordinate compute what
    lines 108-110 compute on its dense form. *)
Lemma sparse_update_full h clr st p (s : SparseTensor R) (d : Tensor R) w :
  (∀ i, (i < length (elems (data p)))%nat → i ∈ indices s) →
  to_dense (data p) s = Ok d →
  same_size (st_sum st) (data p) = true →
  sparse_update h clr st p s w
  = (Ok tt, updated h (dense_value clr (data p) d (acc_sum st d))
                    (with_sum (acc_sum st d) st) w).
Proof.
  intros Hcov Hd Hsum.
  destruct (full_coverage_dense _ _ _ Hcov Hd) as (Hidx & Hvals & Hsh & Hlen).
  apply same_size_true in Hsum as [Hss Hsl].
  rewrite sparse_update_cases. cbv zeta. rewrite Hidx, Hvals.
  pose proof (t_add_sparse_full (of_Z 1) (st_sum st) (ssize (coalesce s))
                ((fun v => v * v) <$> elems d)) as H1.
  rewrite length_fmap, Hsl in H1. specialize (H1 Hlen).
  simpl in H1. simpl. rewrite H1.
  rewrite agree_sum.
  set (sum' := zip_with (fun s0 x => s0 + 1 * x * x) (elems (st_sum st)) (elems d)).
  assert (Hsum' : length sum' = length (elems (data p))).
  { unfold sum'. rewrite length_zip_with. lia. }
  cbn [elems].
  pose proof (gather_seq [] sum') as H2. simpl in H2. rewrite Hsum' in H2. rewrite H2.
  pose proof (t_add_sparse_full (- clr) (data p) (ssize (coalesce s))
                (zip_with Rdiv (elems d) ((fun x => sqrt x + 1 / 10 ^ 10) <$> sum'))) as H3.
  rewrite length_zip_with, length_fmap in H3. specialize (H3 ltac:(lia)).
  simpl in H3. rewrite H3.
  rewrite agree_value.
  unfold updated, dense_value, acc_sum, with_sum. simpl. fold sum'. reflexivity.
Qed.

(** C3.  In exact arithmetic, for a parameter [x] and a sparse gradient
    whose coordinates cover the whole tensor, a [step] on the sparse path
    (sparse gradient, duplicates coalesced by the step, no weight decay,
    L1 path not selected) and a [step] on the dense path with the dense
    form of the same gradient end with the same parameter value and the
    same state dict, [sum_sq_grad] included. *)
Theorem C3_sparse_dense_agree (w : World R E) group h (x d : Tensor R)
    (s : SparseTensor R) st0 clr :
  heap w !! h = Some (mkParam x (Some (SparseGrad s))) →
  state (optimizer w) !! h = Some st0 →
  (∀ i, (i < length (elems x))%nat → i ∈ indices s) →
  to_dense x s = Ok d →
  weight_decay group = 0 →
  l1_selected (optimizer w) group x = Ok false →
  current_lr group (st_step st0 + 1) = Ok clr →
  same_size (st_sum st0) x = true →
  let w_dense := with_heap (insert h (mkParam x (Some (DenseGrad d)))) w in
  let new := dense_value clr x d (acc_sum st0 d) in
  let st' := mkPState (st_step st0 + 1) (acc_sum st0 d) (st_avg st0) (st_zeros st0) in
  step_param group h w = (Ok tt, updated h new st' w)
  ∧ step_param group h w_dense = (Ok tt, updated h new st' w_dense).
Proof.
  intros Hp Hst Hcov Hd Hwd Hl1 Hclr Hsum w_dense new st'.
  assert (Hwd' : nonzero (weight_decay group) = false).
  { simpl. apply Rnonzero_false. exact Hwd. }
  destruct (full_coverage_dense _ _ _ Hcov Hd) as (_ & _ & Hsh & Hlen).
  split.
  - rewrite (step_param_unfold group h w _ _ st0 Hp eq_refl Hst).
    rewrite (decayed_grad_off _ _ _ Hwd'). cbn [st_step with_step].
    rewrite Hclr. cbn [data]. rewrite Hl1. unfold dispatch.
    rewrite (sparse_update_full h clr _ _ s d) by assumption.
    rewrite updated_with_state. reflexivity.
  - apply (step_param_dense group h w_dense (mkParam x (Some (DenseGrad d))) d st0 clr);
      try assumption; try reflexivity.
    + simpl. apply lookup_insert_eq.
    + apply same_size_true. apply same_size_true in Hsum as [Hss Hsl].
      split; congruence.
    + apply same_size_true. simpl. split; congruence.
Qed.

End SparseDenseAgree.

(** ** What a computation leaves alone *)

Section Keeps.
Context {W : Type} (R : W → W → Prop) {HR : PreOrder R}.

Lemma keeps_ret {A} (a : A) : keeps R (ret a).
Proof using HR. intros w. simpl. reflexivity. Qed.

Lemma keeps_lift {A} (r : Res A) : keeps R (lift r).
Proof using HR. intros w. simpl. reflexivity. Qed.

Lemma keeps_bind {A B} (m : M W A) (k : A → M W B) :
  keeps R m → (∀ a, keeps R (k a)) → keeps R (bind m k).
Proof using HR.
  intros Hm Hk w. unfold bind. specialize (Hm w).
  destruct (m w) as [[a|e] w1]; simpl in *.
  - etransitivity; [exact Hm|apply Hk].
  - exact Hm.
Qed.

Lemma keeps_for_each {A} (xs : list A) (body : A → M W unit) :
  (∀ x, x ∈ xs → keeps R (body x)) → keeps R (for_each xs body).
Proof using HR.
  induction xs as [|x xs IH]; intros Hbody; simpl.
  - apply keeps_ret.
  - apply keeps_bind; [apply Hbody; left|].
    intros _. apply IH. intros y Hy. apply Hbody. right. exact Hy.
Qed.

End Keeps.

(** ** The footprint of one iteration *)

Section Footprint.
Context {F : Type} {SF : Scalar F} {E : Type}.
Implicit Types (w : World F E) (group : Group F) (p : Param F) (st : PState F).

#[local] Instance touches_preorder h n : PreOrder (touches (F:=F) (E:=E) h n).
Proof.
  split.
  - intros w. unfold touches. repeat split; auto.
  - intros w1 w2 w3 (A1 & A2 & A3 & A4 & A5 & A6 & A7) (B1 & B2 & B3 & B4 & B5 & B6 & B7).
    unfold touches. split; [congruence|]. split; [congruence|].
    split; [congruence|]. split; [congruence|]. split; [|split].
    + intros h' Hne. destruct (A5 h' Hne) as [a1 a2]. destruct (B5 h' Hne) as [b1 b2].
      split; congruence.
    + congruence.
    + intros H. apply B7, A7, H.
Qed.

Lemma put_state_touches h n st :
  st_step st = n → keeps (touches h n) (put_state (E:=E) h st).
Proof.
  intros Hn w. unfold touches. simpl. repeat split; auto.
  - rewrite lookup_insert_ne by congruence. reflexivity.
  - intros _. rewrite lookup_insert_eq. simpl. congruence.
Qed.

Lemma set_data_touches h n (t : Tensor F) : keeps (touches h n) (set_data (E:=E) h t).
Proof.
  intros w. unfold touches. simpl. repeat split; auto.
  - rewrite lookup_alter_ne by congruence. reflexivity.
  - rewrite lookup_alter_eq. destruct (heap w !! h); reflexivity.
Qed.

Ltac keeps_step :=
  first [ apply keeps_bind; [apply touches_preorder | | intros ? ]
        | apply keeps_lift; apply touches_preorder
        | apply keeps_ret; apply touches_preorder
        | apply put_state_touches; reflexivity
        | apply set_data_touches ].

Lemma l1_update_touches group h clr st (g : Grad F) :
  keeps (touches h (st_step st)) (l1_update (E:=E) group h clr st g).
Proof. unfold l1_update. repeat keeps_step. Qed.

Lemma sparse_update_touches h clr st p (s : SparseTensor F) :
  keeps (touches h (st_step st)) (sparse_update (E:=E) h clr st p s).
Proof. unfold sparse_update. repeat keeps_step. Qed.

Lemma dense_update_touches h clr st p (g : Tensor F) :
  keeps (touches h (st_step st)) (dense_update (E:=E) h clr st p g).
Proof. unfold dense_update. repeat keeps_step. Qed.

Lemma dispatch_touches group h clr st p (g : Grad F) l1 :
  keeps (touches h (st_step st)) (dispatch (E:=E) group h clr st p g l1).
Proof.
  unfold dispatch. destruct l1; [apply l1_update_touches|].
  destruct g; [apply dense_update_touches|apply sparse_update_touches].
Qed.

(** The loop body on a parameter without gradient, without state dict or
    without object does nothing. *)
Lemma step_param_skip group h w :
  (∀ p g st0, heap w !! h = Some p → grad p = Some g →
              state (optimizer w) !! h = Some st0 → False) →
  (step_param group h w).2 = w.
Proof.
  intros Hno. unfold step_param, bind at 1, get_param.
  destruct (heap w !! h) as [p|] eqn:Hp; [|reflexivity].
  destruct (grad p) as [g|] eqn:Hg; [|reflexivity].
  unfold bind at 1, get_state.
  destruct (state (optimizer w) !! h) as [st0|] eqn:Hst; [|reflexivity].
  exfalso. eapply Hno; eauto.
Qed.

(** One iteration on [h]: whatever happens after the step count is
    incremented, it is left incremented, and nothing but the value and the
    state dict of [h] changes. *)
Lemma step_param_effect group h w p g st0 :
  heap w !! h = Some p → grad p = Some g →
  state (optimizer w) !! h = Some st0 →
  touches h (st_step st0 + 1)
          (with_state (insert h (with_step (st_step st0 + 1) st0)) w)
          (step_param group h w).2
  ∧ step_of (step_param group h w).2 h = Some (st_step st0 + 1)%Z.
Proof.
  intros Hp Hg Hst.
  set (st := with_step (st_step st0 + 1) st0).
  set (w1 := with_state (insert h st) w).
  assert (Hk : touches h (st_step st0 + 1) w1 (step_param group h w).2).
  { rewrite (step_param_unfold group h w p g st0 Hp Hg Hst). fold st. fold w1.
    destruct (decayed_grad group p g) as [g'|e]; [|reflexivity].
    destruct (current_lr group (st_step st)) as [clr|e]; [|reflexivity].
    destruct (l1_selected (optimizer w) group (data p)) as [l1|e]; [|reflexivity].
    apply (dispatch_touches group h clr st p g' l1 w1). }
  split; [exact Hk|].
  destruct Hk as (_ & _ & _ & _ & _ & _ & Hn). unfold step_of. apply Hn.
  simpl. rewrite lookup_insert_eq. reflexivity.
Qed.

End Footprint.

(** ** The loops of [step] *)

Section Loops.
Context {F : Type} {SF : Scalar F} {E : Type}.
Implicit Types (w : World F E) (group : Group F) (p : Param F) (st : PState F).

Lemma for_each_fmap {W A B} (f : A → B) (xs : list A) (body : B → M W unit) (w : W) :
  for_each (f <$> xs) body w = for_each xs (fun x => body (f x)) w.
Proof.
  revert w. induction xs as [|x xs IH]; intros w; simpl; [reflexivity|].
  unfold bind. destruct (body (f x) w) as [[[]|e] w1]; [apply IH|reflexivity].
Qed.

(** Two nested loops are one loop over the pairs they visit. *)
Lemma for_each_nested {W A B} (f : A → list B) (body : A → B → M W unit)
    (xs : list A) (w : W) :
  for_each xs (fun x => for_each (f x) (body x)) w
  = for_each (xs ≫= (fun x => pair x <$> f x)) (fun xy => body xy.1 xy.2) w.
Proof.
  revert w. induction xs as [|x xs IH]; intros w; [reflexivity|].
  cbn [for_each]. change ((x :: xs) ≫= (fun x => pair x <$> f x))
    with ((pair x <$> f x) ++ (xs ≫= (fun x => pair x <$> f x))).
  rewrite for_each_app. unfold bind.
  rewrite for_each_fmap.
  assert (Hb : for_each (f x) (fun x0 => body (x, x0).1 (x, x0).2) w
               = for_each (f x) (body x) w) by reflexivity.
  rewrite Hb. clear Hb.
  destruct (for_each (f x) (body x) w) as [[[]|e] w1]; [apply IH|reflexivity].
Qed.

Lemma step_groups_visits (groups : list (Group F)) w :
  step_groups groups w
  = for_each (visits groups) (fun gh => step_param gh.1 gh.2) w.
Proof. unfold step_groups, visits. apply for_each_nested. Qed.

Lemma visits_registered (opt : Adagrad F) :
  (visits (param_groups opt)).*2 = registered opt.
Proof.
  unfold visits, registered. induction (param_groups opt) as [|g gs IH]; [reflexivity|].
  change ((g :: gs) ≫= (fun group => pair group <$> params group))
    with ((pair g <$> params g) ++ (gs ≫= (fun group => pair group <$> params group))).
  rewrite fmap_app, IH. simpl. f_equal.
  rewrite <- list_fmap_compose. apply list_fmap_id.
Qed.

#[local] Instance frame_preorder : PreOrder (frame (F:=F) (E:=E)).
Proof.
  split.
  - intros w. unfold frame. auto.
  - intros w1 w2 w3 (A1 & A2 & A3 & A4 & A5) (B1 & B2 & B3 & B4 & B5).
    unfold frame. repeat (split; [congruence|]). intros h. rewrite B5. apply A5.
Qed.

Lemma touches_frame h n w w' : touches h n w w' → frame w w'.
Proof.
  intros (A1 & A2 & A3 & A4 & A5 & A6 & _). unfold frame. repeat (split; [assumption|]).
  intros h'. destruct (decide (h' = h)) as [->|Hne]; [exact A6|].
  destruct (A5 h' Hne) as [-> _]. reflexivity.
Qed.

Lemma step_param_frame group h : keeps frame (step_param (E:=E) group h).
Proof.
  intros w.
  destruct (heap w !! h) as [p|] eqn:Hp.
  2:{ rewrite step_param_skip; [reflexivity|]. intros; congruence. }
  destruct (grad p) as [g|] eqn:Hg.
  2:{ rewrite step_param_skip; [reflexivity|]. intros; congruence. }
  destruct (state (optimizer w) !! h) as [st0|] eqn:Hst.
  2:{ rewrite step_param_skip; [reflexivity|]. intros; congruence. }
  destruct (step_param_effect group h w p g st0 Hp Hg Hst) as [Ht _].
  apply touches_frame in Ht. etransitivity; [|exact Ht].
  unfold frame. simpl. auto.
Qed.

Lemma step_groups_frame (groups : list (Group F)) : keeps frame (step_groups (E:=E) groups).
Proof.
  unfold step_groups. apply keeps_for_each; [apply frame_preorder|]. intros group _.
  apply keeps_for_each; [apply frame_preorder|]. intros h _. apply step_param_frame.
Qed.

End Loops.

(** ** Weight decay *)

Section WeightDecay.
Context {F : Type} {SF : Scalar F} {E L : Type}.
Implicit Types (w : World F E) (group : Group F) (p : Param F) (st : PState F).

Lemma decayed_grad_sparse group p (s : SparseTensor F) :
  nonzero (weight_decay group) = true →
  decayed_grad group p (SparseGrad s) = Err UnsupportedOperation.
Proof. unfold decayed_grad. intros ->. reflexivity. Qed.

Lemma decayed_grad_dense group p (t : Tensor F) :
  nonzero (weight_decay group) = true → same_size t (data p) = true →
  decayed_grad group p (DenseGrad t)
  = Ok (DenseGrad (mkTensor (shape t)
          (zip_with (fun gi x => fadd gi (fmul (weight_decay group) x))
             (elems t) (elems (data p))))).
Proof.
  unfold decayed_grad, t_add. intros -> Hs. rewrite (t_map2_ok _ _ _ Hs). reflexivity.
Qed.

Lemma step_param_sparse_decay group h w p (s : SparseTensor F) :
  heap w !! h = Some p → grad p = Some (SparseGrad s) →
  nonzero (weight_decay group) = true →
  is_Err (step_param group h w).1 = true.
Proof.
  intros Hp Hg Hwd. destruct (state (optimizer w) !! h) as [st0|] eqn:Hst.
  - rewrite (step_param_unfold group h w p _ st0 Hp Hg Hst).
    rewrite (decayed_grad_sparse _ _ _ Hwd). reflexivity.
  - rewrite (step_param_no_state group h w p _ Hp Hg Hst). reflexivity.
Qed.

(** A loop that reaches a sparse gradient under weight decay fails there,
    if it has not failed before. *)
Lemma visits_sparse_decay (l : list (Group F * nat)) group h w p (s : SparseTensor F) :
  (group, h) ∈ l →
  heap w !! h = Some p → grad p = Some (SparseGrad s) →
  nonzero (weight_decay group) = true →
  is_Err (for_each l (fun gh => step_param gh.1 gh.2) w).1 = true.
Proof.
  revert w p. induction l as [|[g0 h0] l IH]; intros w p Hin Hp Hg Hwd.
  - apply elem_of_nil in Hin. contradiction.
  - simpl. unfold bind.
    destruct (step_param g0 h0 w) as [[[]|e] w1] eqn:Hhead; [|reflexivity].
    apply elem_of_cons in Hin as [Heq|Hin].
    + injection Heq as <- <-.
      pose proof (step_param_sparse_decay group h w p s Hp Hg Hwd) as Herr.
      rewrite Hhead in Herr. discriminate.
    + pose proof (step_param_frame g0 h0 w) as (_ & _ & _ & _ & Hgr).
      rewrite Hhead in Hgr. simpl in Hgr. specialize (Hgr h). rewrite Hp in Hgr.
      destruct (heap w1 !! h) as [p1|] eqn:Hp1; [|discriminate].
      simpl in Hgr. injection Hgr as Hgr.
      apply (IH w1 p1 Hin Hp1); [congruence|exact Hwd].
Qed.

(** C5.  For a parameter whose group has [weight_decay != 0]: if its
    gradient is sparse the iteration raises the [RuntimeError] of line 79
    (the specification's [UnsupportedOperation]), and so the whole
    [step()] fails whenever such a parameter is registered; if its gradient
    is dense (and of the size of the parameter), the path-specific update
    that follows runs on [grad + weight_decay * value] instead of on the
    gradient. *)
Theorem C5_weight_decay group h w p (g : Grad F) st0 :
  heap w !! h = Some p → grad p = Some g →
  state (optimizer w) !! h = Some st0 →
  nonzero (weight_decay group) = true →
  let st := with_step (st_step st0 + 1) st0 in
  let w1 := with_state (insert h st) w in
  match g with
  | SparseGrad _ =>
      step_param group h w = (Err UnsupportedOperation, w1)
      ∧ (group ∈ param_groups (optimizer w) → h ∈ params group →
         is_Err (step (L:=L) None w).1 = true)
  | DenseGrad t =>
      same_size t (data p) = true →
      let t' := mkTensor (shape t)
                  (zip_with (fun gi x => fadd gi (fmul (weight_decay group) x))
                     (elems t) (elems (data p))) in
      step_param group h w
      = match current_lr group (st_step st) with
        | Err e => (Err e, w1)
        | Ok clr =>
            match l1_selected (optimizer w) group (data p) with
            | Err e => (Err e, w1)
            | Ok l1 =>
                (if l1 then l1_update group h clr st (DenseGrad t')
                 else dense_update h clr st p t') w1
            end
        end
  end.
Proof.
  intros Hp Hg Hst Hwd st w1. destruct g as [t|s].
  - intros Hs t'.
    rewrite (step_param_unfold group h w p _ st0 Hp Hg Hst).
    rewrite (decayed_grad_dense _ _ _ Hwd Hs). reflexivity.
  - split.
    + rewrite (step_param_unfold group h w p _ st0 Hp Hg Hst).
      rewrite (decayed_grad_sparse _ _ _ Hwd). reflexivity.
    + intros Hgroup Hh. rewrite step_None, step_groups_visits.
      assert (Herr : is_Err (for_each (visits (param_groups (optimizer w)))
                               (fun gh => step_param gh.1 gh.2) w).1 = true).
      { apply (visits_sparse_decay _ group h w p s); try assumption.
        unfold visits. apply list_elem_of_bind. exists group. split; [|exact Hgroup].
        apply list_elem_of_fmap. exists h. auto. }
      destruct (for_each _ _ w) as [[[]|e] w']; [discriminate|reflexivity].
Qed.

End WeightDecay.

(** ** [get_step], [reset] and the step counts *)

Section StepCounts.
Context {F : Type} {SF : Scalar F} {E : Type}.
Implicit Types (w : World F E) (group : Group F) (p : Param F) (st : PState F).
Implicit Types (sm : gmap nat (PState F)) (l hs : list nat).

Lemma get_step_params_app sm l1 l2 :
  get_step_params sm (l1 ++ l2)
  = match get_step_params sm l1 with
    | Some n => Some n
    | None => get_step_params sm l2
    end.
Proof.
  induction l1 as [|h l1 IH]; simpl; [reflexivity|].
  destruct (sm !! h); [reflexivity|exact IH].
Qed.

(** The two loops of [get_step] look for the first registered parameter
    whose state dict has a step count. *)
Lemma get_step_registered (opt : Adagrad F) :
  get_step opt = get_step_params (state opt) (registered opt).
Proof.
  unfold get_step, registered. induction (param_groups opt) as [|g gs IH]; [reflexivity|].
  simpl. rewrite get_step_params_app, IH. reflexivity.
Qed.

Lemma get_step_params_None sm l :
  get_step_params sm l = None ↔ ∀ h, h ∈ l → sm !! h = None.
Proof.
  induction l as [|h l IH]; simpl.
  - split; [|reflexivity]. intros _ h Hh. apply elem_of_nil in Hh. contradiction.
  - destruct (sm !! h) as [s|] eqn:Hs.
    + split; [discriminate|]. intros H. specialize (H h ltac:(left)). congruence.
    + rewrite IH. split.
      * intros H h' Hh'. apply elem_of_cons in Hh' as [->|Hh']; auto.
      * intros H h' Hh'. apply H. right. exact Hh'.
Qed.

Lemma get_step_params_Some sm l n :
  get_step_params sm l = Some n →
  ∃ h st, h ∈ l ∧ sm !! h = Some st ∧ st_step st = n.
Proof.
  induction l as [|h l IH]; simpl; [discriminate|].
  destruct (sm !! h) as [s|] eqn:Hs.
  - intros [= <-]. exists h, s. repeat split; [left|exact Hs].
  - intros H. destruct (IH H) as (h' & st & Hin & Hst & Hn).
    exists h', st. repeat split; [right; exact Hin|exact Hst|exact Hn].
Qed.

Lemma get_step_params_all sm l k :
  l ≠ [] → (∀ h, h ∈ l → (st_step <$> sm !! h) = Some k) →
  get_step_params sm l = Some k.
Proof.
  destruct l as [|h l]; [congruence|]. intros _ H. simpl.
  specialize (H h ltac:(left)). destruct (sm !! h) as [s|]; [|discriminate].
  simpl in H. exact H.
Qed.

Lemma for_each_concat {W A} (f : A → list nat) (body : nat → M W unit)
    (xs : list A) (w : W) :
  for_each xs (fun x => for_each (f x) body) w = for_each (concat (f <$> xs)) body w.
Proof.
  revert w. induction xs as [|x xs IH]; intros w; [reflexivity|].
  simpl. rewrite for_each_app. unfold bind.
  destruct (for_each (f x) body w) as [[[]|e] w1]; [apply IH|reflexivity].
Qed.

Lemma reset_registered w :
  reset w = for_each (registered (optimizer w)) reset_param w.
Proof. unfold reset, bind, gets, registered. apply for_each_concat. Qed.

Lemma reset_param_cases h w :
  reset_param h w
  = match heap w !! h with
    | Some p => (Ok tt, with_state (insert h (fresh_state (data p))) w)
    | None => (Err Dangling, w)
    end.
Proof.
  unfold reset_param, bind, get_param. destruct (heap w !! h); reflexivity.
Qed.

Lemma reset_loop l w w' :
  for_each l reset_param w = (Ok tt, w') →
  heap w' = heap w
  ∧ param_groups (optimizer w') = param_groups (optimizer w)
  ∧ (∀ h, h ∈ l → ∃ p, heap w !! h = Some p
                       ∧ state (optimizer w') !! h = Some (fresh_state (data p)))
  ∧ (∀ h, h ∉ l → state (optimizer w') !! h = state (optimizer w) !! h).
Proof.
  revert w. induction l as [|h0 l IH]; intros w H; simpl in H.
  - injection H as <-. repeat split; auto.
    intros h Hh. apply elem_of_nil in Hh. contradiction.
  - unfold bind in H. rewrite reset_param_cases in H.
    destruct (heap w !! h0) as [p0|] eqn:Hp0; [|discriminate].
    destruct (IH _ H) as (Hheap & Hgs & Hin & Hout).
    simpl in Hheap, Hgs. split; [exact Hheap|]. split; [exact Hgs|]. split.
    + intros h Hh. destruct (decide (h ∈ l)) as [Hl|Hl].
      * exact (Hin h Hl).
      * apply elem_of_cons in Hh as [->|Hh]; [|contradiction].
        exists p0. split; [exact Hp0|]. rewrite (Hout h0 Hl). simpl.
        apply lookup_insert_eq.
    + intros h Hh. apply not_elem_of_cons in Hh as [Hne Hh].
      rewrite (Hout h Hh). simpl. apply lookup_insert_ne. congruence.
Qed.

(** After [reset] every registered parameter has a fresh state dict. *)
Lemma reset_fresh w w' :
  reset w = (Ok tt, w') →
  registered (optimizer w') = registered (optimizer w)
  ∧ ∀ h, h ∈ registered (optimizer w) →
         ∃ p, heap w !! h = Some p
              ∧ state (optimizer w') !! h = Some (fresh_state (data p)).
Proof.
  rewrite reset_registered. intros H.
  destruct (reset_loop _ _ _ H) as (_ & Hgs & Hin & _).
  split; [|exact Hin]. unfold registered. rewrite Hgs. reflexivity.
Qed.

(** One pass of the loops of [step] that returns: every parameter visited
    (once, with a gradient) counts one step more, no other count moves. *)
Lemma visits_counts (l : list (Group F * nat)) w w' :
  NoDup l.*2 → all_grads w l.*2 →
  for_each l (fun gh => step_param gh.1 gh.2) w = (Ok tt, w') →
  (∀ h n, h ∈ l.*2 → step_of w h = Some n → step_of w' h = Some (n + 1)%Z)
  ∧ (∀ h, h ∉ l.*2 → step_of w' h = step_of w h).
Proof.
  revert w. induction l as [|[g0 h0] l IH]; intros w Hnd Hgr H.
  - simpl in H. injection H as <-. split; [|auto].
    intros h n Hh. apply elem_of_nil in Hh. contradiction.
  - simpl in Hnd. apply NoDup_cons in Hnd as [Hh0 Hnd].
    simpl in H. unfold bind in H.
    destruct (step_param g0 h0 w) as [[[]|e] w1] eqn:Hhead; [|discriminate].
    destruct (Hgr h0 ltac:(left)) as (p & g & Hp & Hg).
    destruct (state (optimizer w) !! h0) as [st0|] eqn:Hst.
    2:{ rewrite (step_param_no_state g0 h0 w p g Hp Hg Hst) in Hhead. discriminate. }
    destruct (step_param_effect g0 h0 w p g st0 Hp Hg Hst) as [Ht Hn].
    rewrite Hhead in Ht, Hn. simpl in Ht, Hn.
    assert (Hothers : ∀ h, h ≠ h0 → step_of w1 h = step_of w h).
    { intros h Hne. destruct Ht as (_ & _ & _ & _ & Ho & _).
      destruct (Ho h Hne) as [_ Hs]. unfold step_of. rewrite Hs. simpl.
      rewrite lookup_insert_ne by congruence. reflexivity. }
    assert (Hgr1 : all_grads w1 l.*2).
    { intros h Hh. destruct (Hgr h ltac:(right; exact Hh)) as (p' & g' & Hp' & Hg').
      pose proof (step_param_frame g0 h0 w) as (_ & _ & _ & _ & Hf).
      rewrite Hhead in Hf. simpl in Hf. specialize (Hf h). rewrite Hp' in Hf.
      destruct (heap w1 !! h) as [p1|]; [|discriminate].
      simpl in Hf. injection Hf as Hf. exists p1, g'. split; [reflexivity|congruence]. }
    destruct (IH w1 Hnd Hgr1 H) as [Hin Hout].
    split.
    + intros h n Hh Hstep. simpl in Hh. apply elem_of_cons in Hh as [->|Hh].
      * rewrite (Hout h0 Hh0), Hn. unfold step_of in Hstep. rewrite Hst in Hstep.
        simpl in Hstep. congruence.
      * apply Hin; [exact Hh|]. rewrite Hothers; [exact Hstep|].
        intros ->. contradiction.
    + intros h Hh. simpl in Hh. apply not_elem_of_cons in Hh as [Hne Hh].
      rewrite (Hout h Hh). apply Hothers. exact Hne.
Qed.

Lemma step_counts w w1 k :
  NoDup (registered (optimizer w)) →
  all_grads w (registered (optimizer w)) →
  (∀ h, h ∈ registered (optimizer w) → step_of w h = Some k) →
  step (L:=unit) None w = (Ok None, w1) →
  registered (optimizer w1) = registered (optimizer w)
  ∧ ∀ h, h ∈ registered (optimizer w) → step_of w1 h = Some (k + 1)%Z.
Proof.
  intros Hnd Hgr Hk Hstep. rewrite step_None in Hstep.
  pose proof (step_groups_frame (param_groups (optimizer w)) w) as (_ & Hgs & _).
  destruct (step_groups (param_groups (optimizer w)) w) as [[[]|e] w'] eqn:Hloop;
    [|discriminate].
  injection Hstep as <-. simpl in Hgs. split.
  - unfold registered. rewrite Hgs. reflexivity.
  - rewrite step_groups_visits in Hloop.
    rewrite <- visits_registered in Hnd, Hgr, Hk |- *.
    destruct (visits_counts _ w w' Hnd Hgr Hloop) as [Hin _].
    intros h Hh. apply Hin; [exact Hh|]. apply Hk. exact Hh.
Qed.

Lemma Steps_counts n w w' k :
  Steps n w w' →
  NoDup (registered (optimizer w)) →
  (∀ h, h ∈ registered (optimizer w) → step_of w h = Some k) →
  registered (optimizer w') = registered (optimizer w)
  ∧ ∀ h, h ∈ registered (optimizer w) → step_of w' h = Some (k + Z.of_nat n)%Z.
Proof.
  intros HS. revert k. induction HS as [w|n w w0 w1 w2 Hopt Hgr Hstep HS IH]; intros k Hnd Hk.
  - split; [reflexivity|]. intros h Hh. rewrite Z.add_0_r. apply Hk. exact Hh.
  - assert (Hk0 : ∀ h, h ∈ registered (optimizer w0) → step_of w0 h = Some k).
    { intros h Hh. unfold step_of. rewrite Hopt. apply Hk. rewrite <- Hopt. exact Hh. }
    rewrite <- Hopt in Hnd.
    destruct (step_counts w0 w1 k Hnd Hgr Hk0 Hstep) as [Hreg Hk1].
    rewrite <- Hreg in Hnd, Hk1.
    destruct (IH (k + 1)%Z Hnd Hk1) as [Hreg2 Hk2].
    rewrite Hreg, Hopt in Hreg2. split; [exact Hreg2|].
    intros h Hh. rewrite Hreg, Hopt in Hk2. rewrite (Hk2 h Hh). f_equal. lia.
Qed.

End StepCounts.

Section GetStep.
Context {F : Type} {SF : Scalar F} {E : Type}.
Implicit Types (w : World F E) (group : Group F) (p : Param F) (st : PState F).

(** C7.  [get_step()] returns the step count of a registered parameter
    (the first one that has a state dict), or [None]; it returns [None]
    exactly when no registered parameter has a state dict, so only when
    no parameter has been stepped.  Right after a [reset()] that returns,
    [get_step()] is 0 if a parameter is registered and [None] otherwise.
    After a [reset()] and exactly [n] calls of [step()] that return, in
    each of which every registered parameter has a gradient, with at
    least one parameter registered and none registered twice,
    [get_step()] returns [n]. *)
Theorem C7_get_step (n : nat) w w0 wN :
  reset w = (Ok tt, w0) →
  registered (optimizer w0) ≠ [] →
  NoDup (registered (optimizer w0)) →
  Steps n w0 wN →
  get_step (optimizer wN) = Some (Z.of_nat n)
  ∧ (∀ opt : Adagrad F,
       (∀ k, get_step opt = Some k →
             ∃ h st, h ∈ registered opt ∧ state opt !! h = Some st ∧ st_step st = k)
       ∧ (get_step opt = None ↔ ∀ h, h ∈ registered opt → state opt !! h = None))
  ∧ (∀ (v v0 : World F E),
       reset v = (Ok tt, v0) →
       get_step (optimizer v0)
       = match registered (optimizer v) with [] => None | _ :: _ => Some 0%Z end).
Proof.
  intros Hreset Hne Hnd HS.
  assert (Hfresh : ∀ (v v0 : World F E), reset v = (Ok tt, v0) →
            ∀ h, h ∈ registered (optimizer v0) → step_of v0 h = Some 0%Z).
  { intros v v0 Hr h Hh. destruct (reset_fresh v v0 Hr) as [Hreg Hin].
    rewrite Hreg in Hh. destruct (Hin h Hh) as (p & _ & Hst).
    unfold step_of. rewrite Hst. reflexivity. }
  split; [|split].
  - destruct (Steps_counts n w0 wN 0 HS Hnd (Hfresh w w0 Hreset)) as [Hreg Hk].
    rewrite get_step_registered. apply get_step_params_all.
    + rewrite Hreg. exact Hne.
    + intros h Hh. rewrite Hreg in Hh. exact (Hk h Hh).
  - intros opt. split.
    + intros k Hk. rewrite get_step_registered in Hk.
      apply get_step_params_Some. exact Hk.
    + rewrite get_step_registered. apply get_step_params_None.
  - intros v v0 Hr. destruct (reset_fresh v v0 Hr) as [Hreg _].
    rewrite get_step_registered.
    destruct (registered (optimizer v)) as [|h l] eqn:Hl.
    + rewrite Hreg. reflexivity.
    + apply get_step_params_all; [rewrite Hreg; discriminate|].
      intros h' Hh'. exact (Hfresh v v0 Hr h' Hh').
Qed.

End GetStep.

(** C7, witness: two steps of the float scenario. *)
Lemma C7_get_step_witness :
  ∃ w2 : World float nat,
    get_step (optimizer w2) = Some 2%Z.
Proof.
  pose (w0 := (reset scenario_world_float).2).
  pose (w1 := (step (L:=unit) None w0).2).
  pose (w2 := (step (L:=unit) None w1).2).
  assert (Hg : ∀ v : World float nat,
             heap v = heap scenario_world_float →
             registered (optimizer v) = [0%nat] →
             all_grads v (registered (optimizer v))).
  { intros v Hh Hr h Hin. rewrite Hr in Hin.
    apply elem_of_cons in Hin as [->|Hin]; [|apply elem_of_nil in Hin; contradiction].
    rewrite Hh. eexists _, _. split; reflexivity. }
  exists w2.
  refine (proj1 (C7_get_step 2 scenario_world_float w0 w2 _ _ _ _)).
  - vm_compute. reflexivity.
  - vm_compute. discriminate.
  - vm_compute. apply NoDup_cons. split; [apply not_elem_of_nil|apply NoDup_nil_2].
  - apply (Steps_S 1 w0 w0 w1 w2 eq_refl).
    + apply Hg; vm_compute; reflexivity.
    + vm_compute. reflexivity.
    + apply (Steps_S 0 w1 w1 w2 w2 eq_refl).
      * intros h Hin. vm_compute in Hin.
        apply elem_of_cons in Hin as [->|Hin]; [|apply elem_of_nil in Hin; contradiction].
        eexists _, _. split; vm_compute; reflexivity.
      * vm_compute. reflexivity.
      * apply Steps_O.
Defined.

(** ** The closure, and failure in the middle of [step] *)

Section ClosureAndFailure.
Context {F : Type} {SF : Scalar F} {E L : Type}.
Implicit Types (w : World F E) (group : Group F) (p : Param F) (st : PState F).

(** C9.  [step(closure)] is the closure run once on the store as [step]
    found it, followed by the loops of [step] on the store the closure
    left: no update comes before the closure, and what the closure did to
    its environment is there exactly once, the loops leaving the
    environment alone.  When the loops return, [step] returns what the
    closure returned; when the closure raises, nothing is updated.
    Without a closure [step] returns [None]. *)
Theorem C9_closure (c : M (World F E) L) w :
  step (Some c) w
  = match c w with
    | (Ok l, w1) =>
        match step_groups (param_groups (optimizer w1)) w1 with
        | (Ok _, w2) => (Ok (Some l), w2)
        | (Err e, w2) => (Err e, w2)
        end
    | (Err e, w1) => (Err e, w1)
    end
  ∧ step (L:=L) None w
    = match step_groups (param_groups (optimizer w)) w with
      | (Ok _, w2) => (Ok None, w2)
      | (Err e, w2) => (Err e, w2)
      end
  ∧ env (step (Some c) w).2 = env (c w).2
  ∧ env (step (L:=L) None w).2 = env w.
Proof.
  assert (H1 : step (Some c) w
               = match c w with
                 | (Ok l, w1) =>
                     match step_groups (param_groups (optimizer w1)) w1 with
                     | (Ok _, w2) => (Ok (Some l), w2)
                     | (Err e, w2) => (Err e, w2)
                     end
                 | (Err e, w1) => (Err e, w1)
                 end).
  { unfold step, bind, ret, gets. destruct (c w) as [[l|e] w1]; [|reflexivity].
    destruct (step_groups (param_groups (optimizer w1)) w1) as [[[]|e] w2]; reflexivity. }
  split; [exact H1|]. split; [apply step_None|]. split.
  - rewrite H1. destruct (c w) as [[l|e] w1]; [|reflexivity].
    pose proof (step_groups_frame (param_groups (optimizer w1)) w1) as [He _].
    destruct (step_groups (param_groups (optimizer w1)) w1) as [[[]|e] w2]; exact He.
  - rewrite step_None.
    pose proof (step_groups_frame (param_groups (optimizer w)) w) as [He _].
    destruct (step_groups (param_groups (optimizer w)) w) as [[[]|e] w2]; exact He.
Qed.

(** C10.  When the loops of [step] reach a parameter [h] with a sparse
    gradient in a group with [weight_decay != 0], after the groups [gs1]
    and the parameters [pre] of its own group have been processed, [step]
    raises the error of line 79 and leaves the store as those iterations
    left it, with the step count of [h] already incremented: nothing is
    rolled back. *)
Theorem C10_failure_not_atomic (gs1 gs2 : list (Group F)) group (pre post : list nat)
    h w w1 w2 p (s : SparseTensor F) st0 :
  param_groups (optimizer w) = gs1 ++ group :: gs2 →
  params group = pre ++ h :: post →
  step_groups gs1 w = (Ok tt, w1) →
  for_each pre (step_param group) w1 = (Ok tt, w2) →
  heap w2 !! h = Some p → grad p = Some (SparseGrad s) →
  state (optimizer w2) !! h = Some st0 →
  nonzero (weight_decay group) = true →
  let w3 := with_state (insert h (with_step (st_step st0 + 1) st0)) w2 in
  step (L:=L) None w = (Err UnsupportedOperation, w3)
  ∧ step_of w2 h = Some (st_step st0)
  ∧ step_of w3 h = Some (st_step st0 + 1)%Z
  ∧ state (optimizer w3) ≠ state (optimizer w2).
Proof.
  intros Hgs Hps H1 H2 Hp Hg Hst Hwd w3.
  assert (Hh : step_param group h w2 = (Err UnsupportedOperation, w3)).
  { rewrite (step_param_unfold group h w2 p _ st0 Hp Hg Hst).
    rewrite (decayed_grad_sparse _ _ _ Hwd). reflexivity. }
  assert (H3 : step_of w3 h = Some (st_step st0 + 1)%Z).
  { unfold step_of, w3. simpl. rewrite lookup_insert_eq. reflexivity. }
  assert (H4 : step_of w2 h = Some (st_step st0)).
  { unfold step_of. rewrite Hst. reflexivity. }
  split; [|split; [exact H4|split; [exact H3|]]].
  - rewrite step_None, Hgs. unfold step_groups in H1 |- *. rewrite for_each_app.
    rewrite (bind_ok _ _ _ _ _ H1).
    cbn [for_each]. rewrite Hps.
    rewrite (bind_err _ _ w1 UnsupportedOperation w3); [reflexivity|].
    apply (for_each_err pre post h (step_param group) w1 w2 _ w3 H2 Hh).
  - intros Heq. unfold step_of in H3, H4. rewrite Heq, H4 in H3.
    injection H3 as H3. lia.
Qed.

End ClosureAndFailure.

(** C3, witness: both coordinates named, the second twice. *)
Lemma C3_sparse_dense_agree_witness :
  (step_param scenario_group 0 ex_world_cover).1 = Ok tt.
Proof.
  refine (f_equal fst (proj1 (C3_sparse_dense_agree ex_world_cover scenario_group 0%nat
            ex_cover_x ex_cover_dense ex_cover_grad (fresh_state ex_cover_x) (1 / 10)%R
            _ _ _ _ _ _ _ _))); try reflexivity.
  - intros i Hi. unfold indices, ex_cover_grad. simpl in *.
    destruct i as [|[|i]]; [right; left|left|lia].
  - apply l1_selected_off. apply Rnonzero_false. reflexivity.
  - apply current_lr_no_decay. reflexivity.
Defined.

(** C5, witness: the sparse parameter of the group with weight decay. *)
Lemma C5_weight_decay_witness :
  (step_param ex_group_decay 1 ex_world_decay).1 = Err UnsupportedOperation.
Proof.
  refine (f_equal fst (proj1 (C5_weight_decay (L:=unit) ex_group_decay 1%nat ex_world_decay
            ex_sparse (SparseGrad ex_sparse_grad)
            (fresh_state (data ex_sparse)) _ _ _ _)));
    vm_compute; reflexivity.
Defined.

(** C10, witness: the dense parameter is updated, then the sparse one
    makes [step] fail. *)
Lemma C10_failure_not_atomic_witness :
  (step (L:=unit) None ex_world_decay).1 = Err UnsupportedOperation
  ∧ (data <$> heap (step (L:=unit) None ex_world_decay).2 !! 0%nat)
    ≠ (data <$> heap ex_world_decay !! 0%nat).
Proof.
  pose (w2 := (for_each [0%nat] (step_param ex_group_decay) ex_world_decay).2).
  pose proof (proj1 (C10_failure_not_atomic (L:=unit) [] [] ex_group_decay [0%nat] []
                1%nat ex_world_decay ex_world_decay w2 ex_sparse ex_sparse_grad
                (fresh_state (data ex_sparse))
                ltac:(vm_compute; reflexivity) ltac:(vm_compute; reflexivity)
                ltac:(vm_compute; reflexivity) ltac:(vm_compute; reflexivity)
                ltac:(vm_compute; reflexivity) ltac:(vm_compute; reflexivity)
                ltac:(vm_compute; reflexivity) ltac:(vm_compute; reflexivity))) as H.
  split.
  - rewrite H. reflexivity.
  - rewrite H. vm_compute. discriminate.
Defined.

(** ** [train_from_config] and [data_size] *)

Section DataSize.
Context {Example Seed Fl Ev Out : Type}.
Variable shuffle_examples : Seed → list Example → list Example * Seed.
Variable py_float : string → Res Fl.

(** With [data_size] in the configuration, the data set that reaches
    [trainer.train] is the whole data set, shuffled: the subset selected
    on line 20 is not bound to anything. *)
Lemma train_call_data (config : gmap string string) (evaluations : list Ev)
    (ts ts' : TrainStore Example Seed) (call : TrainCall Example Fl Ev)
    name examples size :
  config !! "data"%string = Some name →
  data_sets ts !! name = Some examples →
  config !! "data_size"%string = Some size →
  train_call shuffle_examples py_float config evaluations ts = (Ok call, ts') →
  tc_data call = (shuffle_examples (random_state ts) examples).1.
Proof.
  intros Hname Hdata Hsize H. unfold train_call in H.
  apply bind_lift_inv in H as (nm & Hnm & H).
  unfold config_get in Hnm. rewrite Hname in Hnm. injection Hnm as <-.
  apply bind_inv in H as ([] & w1 & H1 & H). rewrite Hdata in H1. injection H1 as <-.
  rewrite Hsize in H.
  apply bind_inv in H as ([] & w2 & H2 & H).
  apply bind_inv in H2 as ([] & w3 & H3 & H2).
  unfold shuffle in H3. rewrite Hdata in H3.
  destruct (shuffle_examples (random_state ts) examples) as [shuffled seed].
  injection H3 as <-.
  apply bind_lift_inv in H2 as (n & _ & H2).
  apply bind_inv in H2 as (exs & w4 & H4 & H2).
  unfold gets in H4. injection H4 as _ <-. unfold ret in H2. injection H2 as <-.
  do 9 (apply bind_lift_inv in H as (? & _ & H)).
  apply bind_inv in H as (dat & w5 & H5 & H).
  unfold gets in H5. cbn [data_sets] in H5. rewrite lookup_insert_eq in H5.
  cbn [default] in H5.
  injection H5 as <- <-. unfold ret in H. injection H as <- _. reflexivity.
Qed.

End DataSize.

(** C8, at the failing input: [data_size = 50] over 200 examples.  The
    call of [trainer.train] receives all 200 examples, shuffled; the 50
    that [get_subset] selects are dropped. *)
Theorem C8_data_size_not_applied :
  ∃ call ts',
    train_call ex_shuffle ex_py_float ex_config [tt] ex_train_store = (Ok call, ts')
    ∧ tc_data call = rev (seq 0 200)
    ∧ length (tc_data call) = 200%nat
    ∧ length (get_subset (tc_data call) 0 50) = 50%nat
    ∧ data_sets ts' !! "train"%string = Some (rev (seq 0 200)).
Proof.
  eexists _, _. split; [vm_compute; reflexivity|].
  repeat split; vm_compute; reflexivity.
Qed.

(** * Further properties of [optim.py] *)

(** ** [reset] and [__init__] *)

Section ResetMore.
Context {F : Type} {SF : Scalar F} {E : Type}.
Implicit Types (w : World F E) (group : Group F) (p : Param F) (st : PState F).

Lemma fresh_state_fits (x : Tensor F) : state_fits x (fresh_state x).
Proof.
  unfold state_fits, fresh_state. simpl. repeat split.
  - apply same_size_t_map.
  - apply same_size_t_map.
  - apply zeros_like_same_size. apply same_size_t_map.
Qed.

Lemma reset_param_env h w :
  env (reset_param h w).2 = env w
  ∧ heap (reset_param h w).2 = heap w
  ∧ param_groups (optimizer (reset_param h w).2) = param_groups (optimizer w).
Proof. rewrite reset_param_cases. destruct (heap w !! h); simpl; auto. Qed.

Lemma reset_env w :
  env (reset w).2 = env w
  ∧ heap (reset w).2 = heap w
  ∧ param_groups (optimizer (reset w).2) = param_groups (optimizer w).
Proof.
  rewrite reset_registered.
  apply (for_each_preserves
           (fun w' => env w' = env w ∧ heap w' = heap w
                      ∧ param_groups (optimizer w') = param_groups (optimizer w)));
    [|auto].
  intros h w1 _ (H1 & H2 & H3). destruct (reset_param_env h w1) as (-> & -> & ->). auto.
Qed.

(** X1.  A [reset()] that returns leaves every registered parameter with
    a state dict of step count 0 and all-zero ['sum'], ['avg'] and
    ['zeros'] tensors of the size of the parameter's value; it changes no
    value, no gradient, no group, no flag, and no state dict of a
    parameter that is not registered. *)
Theorem X1_reset_establishes w w0 :
  reset w = (Ok tt, w0) →
  heap w0 = heap w
  ∧ env w0 = env w
  ∧ param_groups (optimizer w0) = param_groups (optimizer w)
  ∧ no_bias_l1 (optimizer w0) = no_bias_l1 (optimizer w)
  ∧ no_non_singleton_l1 (optimizer w0) = no_non_singleton_l1 (optimizer w)
  ∧ (∀ h, h ∈ registered (optimizer w) →
       ∃ p, heap w !! h = Some p
            ∧ state (optimizer w0) !! h = Some (fresh_state (data p))
            ∧ state_fits (data p) (fresh_state (data p))
            ∧ elems (st_sum (fresh_state (data p)))
              = replicate (length (elems (data p))) (of_Z 0))
  ∧ (∀ h, h ∉ registered (optimizer w) →
       state (optimizer w0) !! h = state (optimizer w) !! h).
Proof.
  intros H.
  pose proof (reset_env w) as (He & Hh & Hg). pose proof (reset_flags w) as [Hb Hn].
  rewrite H in He, Hh, Hg, Hb, Hn. simpl in *.
  rewrite reset_registered in H.
  destruct (reset_loop _ _ _ H) as (_ & _ & Hin & Hout).
  repeat (split; [assumption|]). split; [|exact Hout].
  intros h Hh'. destruct (Hin h Hh') as (p & Hp & Hst).
  exists p. repeat split; try assumption; try apply fresh_state_fits.
  simpl. generalize (elems (data p)). intros xs.
  induction xs as [|x xs IH]; simpl; [reflexivity|]. f_equal. exact IH.
Qed.

Lemma with_state_insert_id h st w :
  state (optimizer w) !! h = Some st → with_state (insert h st) w = w.
Proof.
  intros Hst. unfold with_state. rewrite (insert_id _ _ _ Hst).
  destruct w as [hp [gs sm nb nns] e]. reflexivity.
Qed.

Lemma reset_loop_fixed (l : list nat) w0 :
  (∀ h, h ∈ l → ∃ p, heap w0 !! h = Some p
                     ∧ state (optimizer w0) !! h = Some (fresh_state (data p))) →
  for_each l reset_param w0 = (Ok tt, w0).
Proof.
  induction l as [|h l IH]; intros Hall; [reflexivity|].
  simpl. unfold bind. rewrite reset_param_cases.
  destruct (Hall h ltac:(left)) as (p & -> & Hst).
  rewrite (with_state_insert_id _ _ _ Hst).
  apply IH. intros h' Hh'. apply Hall. right. exact Hh'.
Qed.

(** X2.  [reset()] is idempotent: right after a [reset()] that returned, a
    second [reset()] returns and changes nothing. *)
Theorem X2_reset_idempotent w w0 :
  reset w = (Ok tt, w0) → reset w0 = (Ok tt, w0).
Proof.
  intros H. destruct (reset_fresh w w0 H) as [Hreg Hin].
  pose proof (reset_env w) as (_ & Hh & _). rewrite H in Hh. simpl in Hh.
  rewrite reset_registered, Hreg. apply reset_loop_fixed.
  intros h Hh'. destruct (Hin h Hh') as (p & Hp & Hst). exists p. rewrite Hh. auto.
Qed.

(** X3.  An [__init__] that returns installs the groups and the flags it
    is given ([True] for a flag left out), drops whatever per-parameter
    state there was, and leaves a fresh state dict for exactly the
    parameters of its groups; values, gradients and environment stay. *)
Theorem X3_init_state (groups : list (Group F)) (nb nns : option bool) w w' :
  Adagrad_init groups nb nns w = (Ok tt, w') →
  param_groups (optimizer w') = groups
  ∧ no_bias_l1 (optimizer w') = default true nb
  ∧ no_non_singleton_l1 (optimizer w') = default true nns
  ∧ heap w' = heap w ∧ env w' = env w
  ∧ (∀ h, h ∈ concat (params <$> groups) →
          ∃ p, heap w !! h = Some p
               ∧ state (optimizer w') !! h = Some (fresh_state (data p)))
  ∧ (∀ h, h ∉ concat (params <$> groups) → state (optimizer w') !! h = None)
  ∧ get_step (optimizer w')
    = match concat (params <$> groups) with [] => None | _ :: _ => Some 0%Z end.
Proof.
  unfold Adagrad_init, bind, modify.
  set (v := mkWorld (heap w) (mkAdagrad groups ∅ (default true nb) (default true nns)) (env w)).
  intros H.
  pose proof (reset_env v) as (A2 & A1 & A3). pose proof (reset_flags v) as [A4 A5].
  rewrite H in A1, A2, A3, A4, A5. simpl in A1, A2, A3, A4, A5.
  rewrite reset_registered in H.
  destruct (reset_loop _ _ _ H) as (_ & _ & A6 & A7).
  change (registered (optimizer v)) with (concat (params <$> groups)) in A6, A7.
  do 5 (split; [assumption|]). split; [|split].
  - exact A6.
  - intros h Hh. rewrite (A7 h Hh). reflexivity.
  - rewrite get_step_registered. unfold registered. rewrite A3.
    destruct (concat (params <$> groups)) as [|h l] eqn:Hl; [reflexivity|].
    apply get_step_params_all; [discriminate|].
    intros h' Hh'. destruct (A6 h' Hh') as (p & _ & Hst). rewrite Hst. reflexivity.
Qed.

End ResetMore.

(** X1, witness: the float scenario. *)
Lemma X1_reset_establishes_witness :
  heap (reset scenario_world_float).2 = heap scenario_world_float.
Proof.
  refine (proj1 (X1_reset_establishes scenario_world_float
                   (reset scenario_world_float).2 _)).
  vm_compute. reflexivity.
Defined.

(** X2, witness: the float scenario. *)
Lemma X2_reset_idempotent_witness :
  reset (reset scenario_world_float).2 = (Ok tt, (reset scenario_world_float).2).
Proof.
  refine (X2_reset_idempotent scenario_world_float (reset scenario_world_float).2 _).
  vm_compute. reflexivity.
Defined.

(** X3, witness: [__init__] over the store of the weight-decay example,
    with [no_bias_l1] given and the other flag left out. *)
Lemma X3_init_state_witness :
  no_bias_l1 (optimizer (Adagrad_init [ex_group_decay] (Some false) None ex_world_decay).2)
  = false
  ∧ no_non_singleton_l1
      (optimizer (Adagrad_init [ex_group_decay] (Some false) None ex_world_decay).2)
    = true.
Proof.
  pose proof (X3_init_state [ex_group_decay] (Some false) None ex_world_decay
                (Adagrad_init [ex_group_decay] (Some false) None ex_world_decay).2
                ltac:(vm_compute; reflexivity)) as (_ & H1 & H2 & _).
  split; [exact H1|exact H2].
Defined.

(** ** What [step] leaves alone *)

Section StepFootprint.
Context {F : Type} {SF : Scalar F} {E L : Type}.
Implicit Types (w : World F E) (group : Group F) (p : Param F) (st : PState F).

Lemma visits_no_grads (l : list (Group F * nat)) w :
  (∀ h, h ∈ l.*2 → ∃ p, heap w !! h = Some p ∧ grad p = None) →
  for_each l (fun gh => step_param gh.1 gh.2) w = (Ok tt, w).
Proof.
  induction l as [|[g h] l IH]; intros Hall; [reflexivity|].
  simpl. unfold bind.
  destruct (Hall h ltac:(left)) as (p & Hp & Hg).
  rewrite (step_param_no_grad g h w p Hp Hg).
  apply IH. intros h' Hh'. apply Hall. right. exact Hh'.
Qed.

(** X4.  When no registered parameter has a gradient, [step()] returns
    [None] and changes nothing: no step count is incremented. *)
Theorem X4_step_without_gradients w :
  (∀ h, h ∈ registered (optimizer w) → ∃ p, heap w !! h = Some p ∧ grad p = None) →
  step (L:=L) None w = (Ok None, w).
Proof.
  intros Hall. rewrite step_None, step_groups_visits.
  rewrite visits_no_grads; [reflexivity|].
  rewrite visits_registered. exact Hall.
Qed.

(** An iteration on [h'] changes neither the value nor the state dict of
    another parameter. *)
Lemma step_param_others group h' w h :
  h ≠ h' →
  heap (step_param group h' w).2 !! h = heap w !! h
  ∧ state (optimizer (step_param group h' w).2) !! h = state (optimizer w) !! h.
Proof.
  intros Hne.
  destruct (heap w !! h') as [p|] eqn:Hp.
  2:{ rewrite step_param_skip; [auto|]. intros; congruence. }
  destruct (grad p) as [g|] eqn:Hg.
  2:{ rewrite step_param_skip; [auto|]. intros; congruence. }
  destruct (state (optimizer w) !! h') as [st0|] eqn:Hst.
  2:{ rewrite step_param_skip; [auto|]. intros; congruence. }
  destruct (step_param_effect group h' w p g st0 Hp Hg Hst) as [Ht _].
  destruct Ht as (_ & _ & _ & _ & Ho & _). destruct (Ho h Hne) as [-> ->].
  simpl. rewrite lookup_insert_ne by congruence. auto.
Qed.

(** X5.  Whatever its outcome, [step()] changes no gradient, no group, no
    flag and nothing of the environment; and a parameter that is not
    registered, or that has no gradient, keeps its value and its state
    dict. *)
Theorem X5_step_footprint w h :
  h ∉ registered (optimizer w) ∨ (∃ p, heap w !! h = Some p ∧ grad p = None) →
  frame w (step (L:=L) None w).2
  ∧ heap (step (L:=L) None w).2 !! h = heap w !! h
  ∧ state (optimizer (step (L:=L) None w).2) !! h = state (optimizer w) !! h.
Proof.
  intros Hh.
  assert (Hloop : ∀ r w', step_groups (param_groups (optimizer w)) w = (r, w') →
            frame w w' ∧ heap w' !! h = heap w !! h
            ∧ state (optimizer w') !! h = state (optimizer w) !! h).
  { intros r w' Hrun. split.
    - pose proof (step_groups_frame (param_groups (optimizer w)) w) as Hf.
      rewrite Hrun in Hf. exact Hf.
    - rewrite step_groups_visits in Hrun.
      assert (Hbody : ∀ (x : Group F * nat) (v : World F E),
                x ∈ visits (param_groups (optimizer w)) →
                heap v !! h = heap w !! h
                ∧ state (optimizer v) !! h = state (optimizer w) !! h →
                heap (step_param x.1 x.2 v).2 !! h = heap w !! h
                ∧ state (optimizer (step_param x.1 x.2 v).2) !! h
                  = state (optimizer w) !! h).
      { intros [g h'] v Hin [H1 H2]. simpl.
        destruct (decide (h = h')) as [<-|Hne].
        + destruct Hh as [Hnot|(p & Hp & Hg)].
          * exfalso. apply Hnot. rewrite <- visits_registered.
            apply list_elem_of_fmap. exists (g, h). auto.
          * rewrite (step_param_no_grad g h v p); [auto| |exact Hg]. rewrite H1. exact Hp.
        + destruct (step_param_others g h' v h Hne) as [-> ->]. auto. }
      pose proof (for_each_preserves
                    (fun v : World F E =>
                       heap v !! h = heap w !! h
                       ∧ state (optimizer v) !! h = state (optimizer w) !! h)
                    (visits (param_groups (optimizer w)))
                    (fun gh => step_param gh.1 gh.2) Hbody w (conj eq_refl eq_refl))
        as Hpres.
      rewrite Hrun in Hpres. exact Hpres. }
  rewrite step_None.
  destruct (step_groups (param_groups (optimizer w)) w) as [[[]|e] w'] eqn:Hrun;
    exact (Hloop _ _ eq_refl).
Qed.

(** X6.  When the loops of [step] reach a parameter that has a gradient
    but no state dict (one registered after [__init__] and never reset),
    [step()] raises [KeyError('step')] before it touches that parameter;
    the updates of the iterations before stay. *)
Theorem X6_step_without_state (gs1 gs2 : list (Group F)) group (pre post : list nat)
    h w w1 w2 p (g : Grad F) :
  param_groups (optimizer w) = gs1 ++ group :: gs2 →
  params group = pre ++ h :: post →
  step_groups gs1 w = (Ok tt, w1) →
  for_each pre (step_param group) w1 = (Ok tt, w2) →
  heap w2 !! h = Some p → grad p = Some g →
  state (optimizer w2) !! h = None →
  step (L:=L) None w = (Err (KeyError "step"), w2).
Proof.
  intros Hgs Hps H1 H2 Hp Hg Hst.
  pose proof (step_param_no_state group h w2 p g Hp Hg Hst) as Hh.
  rewrite step_None, Hgs. unfold step_groups in H1 |- *. rewrite for_each_app.
  rewrite (bind_ok _ _ _ _ _ H1). cbn [for_each]. rewrite Hps.
  rewrite (bind_err _ _ w1 (KeyError "step") w2); [reflexivity|].
  apply (for_each_err pre post h (step_param group) w1 w2 _ w2 H2 Hh).
Qed.

End StepFootprint.

(** X4, witness: the only registered parameter has no gradient. *)
Lemma X4_step_without_gradients_witness :
  step (L:=unit) None ex_world_idle = (Ok None, ex_world_idle).
Proof.
  refine (X4_step_without_gradients (L:=unit) ex_world_idle _).
  intros h Hh. vm_compute in Hh.
  apply elem_of_cons in Hh as [->|Hh]; [|apply elem_of_nil in Hh; contradiction].
  eexists. split; vm_compute; reflexivity.
Defined.

(** X5, witness: the second parameter of the mixed store has no gradient. *)
Lemma X5_step_footprint_witness :
  heap (step (L:=unit) None ex_world_mixed).2 !! 1%nat = heap ex_world_mixed !! 1%nat.
Proof.
  refine (proj1 (proj2 (X5_step_footprint (L:=unit) ex_world_mixed 1%nat _))).
  right. eexists. split; vm_compute; reflexivity.
Defined.

(** X6, witness: the parameter added after [__init__]. *)
Lemma X6_step_without_state_witness :
  (step (L:=unit) None ex_world_late).1 = Err (KeyError "step").
Proof.
  refine (f_equal fst (X6_step_without_state (L:=unit) [] [] ex_group_two [0%nat] []
            1%nat ex_world_late ex_world_late
            (for_each [0%nat] (step_param ex_group_two) ex_world_late).2
            ex_dense (DenseGrad (vec [0.5; -0.5]%float)) _ _ _ _ _ _ _));
    vm_compute; reflexivity.
Defined.

(** ** Sizes are kept *)

Section Layout.
Context {F : Type} {SF : Scalar F} {E L : Type}.
Implicit Types (w : World F E) (group : Group F) (p : Param F) (st : PState F).
Implicit Types (a b c t : Tensor F) (sz : list nat) (n : nat).

Lemma shaped_same_size sz n a b : shaped sz n a → shaped sz n b → same_size a b = true.
Proof. intros [H1 H2] [H3 H4]. apply same_size_true. split; congruence. Qed.

Lemma same_size_shaped sz n a b : same_size a b = true → shaped sz n a → shaped sz n b.
Proof. intros H [H1 H2]. apply same_size_true in H as [H3 H4]. split; congruence. Qed.

Lemma t_map_shaped sz n f a : shaped sz n a → shaped sz n (t_map f a).
Proof. intros [H1 H2]. split; simpl; [exact H1|]. rewrite length_fmap. exact H2. Qed.

Lemma t_map2_shaped sz n f a b c :
  t_map2 f a b = Ok c → shaped sz n a → shaped sz n c.
Proof.
  unfold t_map2. destruct (same_size a b) eqn:Hs; [|discriminate].
  intros [= <-] [H1 H2]. apply same_size_true in Hs as [_ Hl].
  split; simpl; [exact H1|]. rewrite length_zip_with. lia.
Qed.

Lemma length_zip_with3 (f : F → F → F → F) (xs ys zs : list F) :
  length ys = length xs → length zs = length xs →
  length (zip_with3 f xs ys zs) = length xs.
Proof.
  revert ys zs. induction xs as [|x xs IH]; intros [|y ys] [|z zs] H1 H2; simpl in *;
    try discriminate; try reflexivity.
  f_equal. apply IH; lia.
Qed.

Lemma t_map3_shaped sz n f a b c d :
  t_map3 f a b c = Ok d → shaped sz n a → shaped sz n d.
Proof.
  unfold t_map3. destruct (same_size a b) eqn:Hb; [|discriminate].
  destruct (same_size a c) eqn:Hc; [|discriminate].
  intros [= <-] [H1 H2].
  apply same_size_true in Hb as [_ Hb]. apply same_size_true in Hc as [_ Hc].
  split; simpl; [exact H1|]. rewrite length_zip_with3; congruence.
Qed.

Lemma t_add_sparse_shaped sz n value a (s : SparseTensor F) b :
  t_add_sparse value a s = Ok b → shaped sz n a → shaped sz n b.
Proof.
  unfold t_add_sparse, res_bind.
  destruct (scatter_add value (elems a) (entries s)) as [ys|e] eqn:Hs; [|discriminate].
  intros [= <-] [H1 H2]. split; simpl; [exact H1|].
  rewrite (scatter_add_length _ _ _ _ Hs). exact H2.
Qed.

Lemma zeros_like_shaped sz n a :
  shaped sz n a → zeros_like a = mkTensor sz (replicate n (of_Z 0)).
Proof.
  intros [<- <-]. unfold zeros_like, t_map. f_equal.
  induction (elems a) as [|x xs IH]; simpl; [reflexivity|]. f_equal. exact IH.
Qed.

(** The relation that an update must keep for the layout to survive it. *)
#[local] Instance laid_out_preorder h sz n :
  PreOrder (fun w w' : World F E => laid_out h sz n w → laid_out h sz n w').
Proof. split; [intros w H; exact H|intros w1 w2 w3 H1 H2 H; exact (H2 (H1 H))]. Qed.

Lemma keeps_bind_lift {W A B} (R : W → W → Prop) {HR : PreOrder R}
    (r : Res A) (k : A → M W B) :
  (∀ x, r = Ok x → keeps R (k x)) → keeps R (bind (lift r) k).
Proof.
  intros Hk w. unfold bind, lift. destruct r as [x|e]; simpl.
  - apply Hk. reflexivity.
  - reflexivity.
Qed.

Lemma put_state_laid_out h sz n st :
  shaped sz n (st_sum st) → shaped sz n (st_avg st) →
  st_zeros st = mkTensor sz (replicate n (of_Z 0)) →
  keeps (fun w w' : World F E => laid_out h sz n w → laid_out h sz n w')
        (put_state h st).
Proof.
  intros Hs Ha Hz w (p & st0 & Hp & _ & Hd & _).
  exists p, st. simpl. rewrite lookup_insert_eq. auto 10.
Qed.

Lemma set_data_laid_out h sz n t :
  shaped sz n t →
  keeps (fun w w' : World F E => laid_out h sz n w → laid_out h sz n w')
        (set_data h t).
Proof.
  intros Ht w (p & st & Hp & Hst & _ & Hs & Ha & Hz).
  exists (mkParam t (grad p)), st. simpl. rewrite lookup_alter_eq, Hp. auto 10.
Qed.

Lemma l1_update_laid_out group h sz n clr st (g : Grad F) :
  shaped sz n (st_sum st) → shaped sz n (st_avg st) →
  st_zeros st = mkTensor sz (replicate n (of_Z 0)) →
  keeps (fun w w' : World F E => laid_out h sz n w → laid_out h sz n w')
        (l1_update group h clr st g).
Proof.
  intros Hs Ha Hz. unfold l1_update.
  apply keeps_bind_lift; [apply laid_out_preorder|]. intros avg Havg.
  assert (Havg' : shaped sz n avg).
  { destruct g; [eapply t_map2_shaped|eapply t_add_sparse_shaped]; eauto. }
  apply keeps_bind; [apply laid_out_preorder|apply put_state_laid_out; assumption|].
  intros _. apply keeps_bind_lift; [apply laid_out_preorder|]. intros sum Hsum.
  assert (Hsum' : shaped sz n sum).
  { destruct g; [|discriminate]. eapply t_map3_shaped; eauto. }
  apply keeps_bind; [apply laid_out_preorder|apply put_state_laid_out; assumption|].
  intros _. apply keeps_bind_lift; [apply laid_out_preorder|]. intros sparsity Hsp.
  apply keeps_bind_lift; [apply laid_out_preorder|]. intros scaled Hsc.
  apply keeps_bind_lift; [apply laid_out_preorder|]. intros new Hnew.
  apply set_data_laid_out.
  eapply t_map2_shaped; [exact Hnew|].
  eapply t_map2_shaped; [exact Hsc|].
  apply t_map_shaped, t_map_shaped. exact Havg'.
Qed.

Lemma dense_update_laid_out h sz n clr st p (g : Tensor F) :
  shaped sz n (data p) → shaped sz n (st_sum st) → shaped sz n (st_avg st) →
  st_zeros st = mkTensor sz (replicate n (of_Z 0)) →
  keeps (fun w w' : World F E => laid_out h sz n w → laid_out h sz n w')
        (dense_update h clr st p g).
Proof.
  intros Hd Hs Ha Hz. unfold dense_update.
  apply keeps_bind_lift; [apply laid_out_preorder|]. intros sum Hsum.
  assert (Hsum' : shaped sz n sum) by (eapply t_map3_shaped; eauto).
  apply keeps_bind; [apply laid_out_preorder|apply put_state_laid_out; assumption|].
  intros _. apply keeps_bind_lift; [apply laid_out_preorder|]. intros new Hnew.
  apply set_data_laid_out. eapply t_map3_shaped; eauto.
Qed.

Lemma sparse_update_laid_out h sz n clr st p (s : SparseTensor F) :
  shaped sz n (data p) → shaped sz n (st_sum st) → shaped sz n (st_avg st) →
  st_zeros st = mkTensor sz (replicate n (of_Z 0)) →
  keeps (fun w w' : World F E => laid_out h sz n w → laid_out h sz n w')
        (sparse_update h clr st p s).
Proof.
  intros Hd Hs Ha Hz. unfold sparse_update.
  apply keeps_bind_lift; [apply laid_out_preorder|]. intros sum Hsum.
  assert (Hsum' : shaped sz n sum) by (eapply t_add_sparse_shaped; eauto).
  apply keeps_bind; [apply laid_out_preorder|apply put_state_laid_out; assumption|].
  intros _. apply keeps_bind_lift; [apply laid_out_preorder|]. intros std Hstd.
  apply keeps_bind_lift; [apply laid_out_preorder|]. intros new Hnew.
  apply set_data_laid_out. eapply t_add_sparse_shaped; eauto.
Qed.

Lemma step_param_laid_out group h' h sz n w :
  laid_out h sz n w → laid_out h sz n (step_param group h' w).2.
Proof.
  intros Hl. destruct (decide (h = h')) as [<-|Hne].
  2:{ destruct Hl as (p & st & Hp & Hst & Hrest).
      destruct (step_param_others group h' w h Hne) as [H1 H2].
      exists p, st. rewrite H1, H2. auto. }
  pose proof Hl as (p & st0 & Hp & Hst & Hd & Hs & Ha & Hz).
  destruct (grad p) as [g|] eqn:Hg.
  2:{ rewrite (step_param_no_grad group h w p Hp Hg). exact Hl. }
  rewrite (step_param_unfold group h w p g st0 Hp Hg Hst).
  set (st := with_step (st_step st0 + 1) st0).
  set (w1 := with_state (insert h st) w).
  assert (Hl1 : laid_out h sz n w1).
  { exists p, st. simpl. rewrite lookup_insert_eq. auto 10. }
  destruct (decayed_grad group p g) as [g'|e]; [|exact Hl1].
  destruct (current_lr group (st_step st)) as [clr|e]; [|exact Hl1].
  destruct (l1_selected (optimizer w) group (data p)) as [l1|e]; [|exact Hl1].
  unfold dispatch. destruct l1.
  - apply (l1_update_laid_out group h sz n clr st g' Hs Ha Hz w1 Hl1).
  - destruct g' as [t|s].
    + apply (dense_update_laid_out h sz n clr st p t Hd Hs Ha Hz w1 Hl1).
    + apply (sparse_update_laid_out h sz n clr st p s Hd Hs Ha Hz w1 Hl1).
Qed.

(** X7.  [step()] keeps the layout of every parameter, whatever path it
    takes and whether it returns or raises: the value and the ['sum'] and
    ['avg'] accumulators keep their size and number of elements, and
    ['zeros'] stays the zero tensor. *)
Theorem X7_step_keeps_layout h sz n w :
  laid_out h sz n w → laid_out h sz n (step (L:=L) None w).2.
Proof.
  intros Hl.
  assert (Hloop : laid_out h sz n (step_groups (param_groups (optimizer w)) w).2).
  { rewrite step_groups_visits.
    apply (for_each_preserves (fun v : World F E => laid_out h sz n v)); [|exact Hl].
    intros [g h'] v _ Hv. apply step_param_laid_out. exact Hv. }
  rewrite step_None.
  destruct (step_groups (param_groups (optimizer w)) w) as [[[]|e] w']; exact Hloop.
Qed.

End Layout.

(** X7, witness: the parameter of the float scenario. *)
Lemma X7_step_keeps_layout_witness :
  laid_out 0 [3%nat] 3 (step (L:=unit) None scenario_world_float).2.
Proof.
  refine (X7_step_keeps_layout (L:=unit) 0%nat [3%nat] 3%nat scenario_world_float _).
  eexists _, _. repeat split; vm_compute; reflexivity.
Defined.

(** ** Well-formed input does not fail *)

Section NoFailure.
Context {F : Type} {SF : Scalar F} {E : Type}.
Implicit Types (w : World F E) (group : Group F) (p : Param F) (st : PState F).

Lemma scatter_add_ok value (xs : list F) (es : list (nat * F)) :
  (∀ j, j ∈ es.*1 → (j < length xs)%nat) → ∃ ys, scatter_add value xs es = Ok ys.
Proof.
  revert xs. induction es as [|[j v] es IH]; intros xs Hin; simpl.
  - eauto.
  - destruct (lookup_lt_is_Some_2 xs j (Hin j ltac:(left))) as [x ->].
    apply IH. intros k Hk. rewrite length_insert. apply Hin. right. exact Hk.
Qed.

Lemma gather_ok (xs : list F) (idx : list nat) :
  (∀ i, i ∈ idx → (i < length xs)%nat) → ∃ r, gather xs idx = Ok r.
Proof.
  induction idx as [|i idx IH]; intros Hin; simpl.
  - eauto.
  - destruct (lookup_lt_is_Some_2 xs i (Hin i ltac:(left))) as [x ->].
    destruct IH as [r ->]; [|simpl; eauto].
    intros k Hk. apply Hin. right. exact Hk.
Qed.

Lemma t_add_sparse_ok value (a : Tensor F) (s : SparseTensor F) :
  (∀ j, j ∈ indices s → (j < length (elems a))%nat) →
  ∃ b, t_add_sparse value a s = Ok b.
Proof.
  intros Hin. unfold t_add_sparse.
  destruct (scatter_add_ok value (elems a) (entries s) Hin) as [ys ->]. simpl. eauto.
Qed.

(** Lines 93-106 return when every coordinate of the gradient is within
    the parameter and its accumulator. *)
Lemma sparse_update_ok h clr st p (s : SparseTensor F) w n :
  length (elems (data p)) = n → length (elems (st_sum st)) = n →
  (∀ i, i ∈ indices s → (i < n)%nat) →
  (sparse_update h clr st p s w).1 = Ok tt.
Proof.
  intros Hd Hs Hin. rewrite sparse_update_cases. cbv zeta.
  assert (Hc : ∀ i, i ∈ indices (coalesce s) → (i < n)%nat).
  { intros i Hi. apply Hin. apply coalesce_indices. exact Hi. }
  destruct (t_add_sparse_ok (of_Z 1) (st_sum st)
              (make_sparse (indices (coalesce s)) (ssize (coalesce s))
                 ((fun v => fmul v v) <$> values (coalesce s)))) as [sum Hsum].
  { intros j Hj. apply make_sparse_indices in Hj. rewrite Hs. apply Hc. exact Hj. }
  rewrite Hsum.
  assert (Hlen : length (elems sum) = n).
  { unfold t_add_sparse, res_bind in Hsum.
    destruct (scatter_add _ _ _) as [ys|e] eqn:Hys; [|discriminate].
    injection Hsum as <-. simpl. rewrite (scatter_add_length _ _ _ _ Hys). exact Hs. }
  destruct (gather_ok (elems sum) (indices (coalesce s))) as [std ->].
  { intros i Hi. rewrite Hlen. apply Hc. exact Hi. }
  destruct (t_add_sparse_ok (fneg clr) (data p)
              (make_sparse (indices (coalesce s)) (ssize (coalesce s))
                 (zip_with fdiv (values (coalesce s))
                    ((fun x => fadd (fsqrt x) eps) <$> std)))) as [new ->].
  { intros j Hj. apply make_sparse_indices in Hj. rewrite Hd. apply Hc. exact Hj. }
  reflexivity.
Qed.

Lemma decayed_grad_dense_shaped group p (t : Tensor F) sz n :
  shaped sz n t → shaped sz n (data p) →
  ∃ t', decayed_grad group p (DenseGrad t) = Ok (DenseGrad t') ∧ shaped sz n t'.
Proof.
  intros Ht Hd. unfold decayed_grad.
  destruct (nonzero (weight_decay group)); [|eauto].
  unfold t_add. rewrite (t_map2_ok _ _ _ (shaped_same_size _ _ _ _ Ht Hd)). simpl.
  eexists. split; [reflexivity|].
  destruct Ht as [H1 H2], Hd as [H3 H4].
  split; simpl; [exact H1|]. rewrite length_zip_with. lia.
Qed.

(** X8.  An iteration of [step] on well-formed input returns.  The
    parameter has rank at least one, its value and accumulators have one
    size, ['zeros'] is zero and the learning rate is defined; the gradient
    is either dense and of that size (with or without weight decay, on the
    L1 or the dense path), or sparse with every coordinate within the
    tensor, no weight decay and the L1 path not selected. *)
Theorem X8_step_param_returns group h w p (g : Grad F) st0 d ds n clr :
  heap w !! h = Some p → grad p = Some g →
  state (optimizer w) !! h = Some st0 →
  shaped (d :: ds) n (data p) →
  shaped (d :: ds) n (st_sum st0) →
  shaped (d :: ds) n (st_avg st0) →
  st_zeros st0 = mkTensor (d :: ds) (replicate n (of_Z 0)) →
  current_lr group (st_step st0 + 1) = Ok clr →
  match g with
  | DenseGrad t => shaped (d :: ds) n t
  | SparseGrad s =>
      nonzero (weight_decay group) = false
      ∧ l1_condition (optimizer w) group (length (d :: ds)) d = false
      ∧ ∀ i, i ∈ indices s → (i < n)%nat
  end →
  (step_param group h w).1 = Ok tt.
Proof.
  intros Hp Hg Hst Hd Hs Ha Hz Hclr Hgrad.
  rewrite (step_param_unfold group h w p g st0 Hp Hg Hst).
  assert (Hsel : l1_selected (optimizer w) group (data p)
                 = Ok (l1_condition (optimizer w) group (length (d :: ds)) d)).
  { destruct (data p) as [sh xs]. destruct Hd as [Hsh _]. simpl in Hsh. subst sh.
    apply l1_selected_rank_pos. }
  destruct g as [t|s].
  - destruct (decayed_grad_dense_shaped group p t _ _ Hgrad Hd) as (t' & -> & Ht').
    cbn [st_step with_step]. rewrite Hclr, Hsel. unfold dispatch.
    destruct (l1_condition (optimizer w) group (length (d :: ds)) d).
    + rewrite l1_update_dense; [reflexivity|].
      unfold state_fits. cbn [st_sum st_avg st_zeros with_step].
      repeat split.
      * exact (shaped_same_size _ _ _ _ Hs Ht').
      * exact (shaped_same_size _ _ _ _ Ha Ht').
      * rewrite Hz. symmetry. apply zeros_like_shaped. exact Ht'.
    + rewrite dense_update_ok; [reflexivity| |].
      * exact (shaped_same_size _ _ _ _ Hs Ht').
      * exact (shaped_same_size _ _ _ _ Hd Ht').
  - destruct Hgrad as (Hwd & Hl1 & Hin).
    rewrite (decayed_grad_off _ _ _ Hwd). cbn [st_step with_step].
    rewrite Hclr, Hsel, Hl1. unfold dispatch.
    apply (sparse_update_ok h clr _ p s _ n); [apply Hd|apply Hs|exact Hin].
Qed.

End NoFailure.

(** X8, witness: the sparse gradient of the four-element parameter. *)
Lemma X8_step_param_returns_witness :
  (step_param ex_group_plain 0 ex_world_sparse).1 = Ok tt.
Proof.
  refine (X8_step_param_returns (E:=nat) ex_group_plain 0%nat ex_world_sparse ex_sparse
            (SparseGrad ex_sparse_grad) (fresh_state (data ex_sparse)) 4%nat [] 4%nat
            f_tenth _ _ _ _ _ _ _ _ _);
    try (vm_compute; reflexivity); try (split; vm_compute; reflexivity).
  split; [vm_compute; reflexivity|]. split; [vm_compute; reflexivity|].
  intros i Hi. unfold indices, ex_sparse_grad in Hi. simpl in Hi.
  repeat (apply elem_of_cons in Hi as [->|Hi]; [lia|]).
  apply elem_of_nil in Hi. contradiction.
Defined.

(** ** The L1 condition under the default flags *)

Section DefaultFlags.
Context {F : Type} {SF : Scalar F} {E : Type}.
Implicit Types (w : World F E) (group : Group F).

(** X9.  With both flags left to their default, a parameter of rank at
    least one is on the L1 path exactly when [l1_C != 0], its rank is more
    than one and its first dimension is one: a vector is never on it, nor
    is a tensor with more than one row. *)
Theorem X9_default_flags_l1 (groups : list (Group F)) w group d ds (xs : list F) :
  l1_selected (optimizer (Adagrad_init groups None None w).2) group
    (mkTensor (d :: ds) xs)
  = Ok (nonzero (l1_C group) && negb (length ds =? 0)%nat && (d =? 1)%nat).
Proof.
  rewrite l1_selected_rank_pos. unfold l1_condition.
  destruct (init_default_flags groups w) as [-> ->]. f_equal.
  destruct (nonzero (l1_C group)); [|reflexivity]. cbn [andb negb orb length].
  destruct (d =? 1)%nat eqn:Hd.
  - apply Nat.eqb_eq in Hd. subst d. rewrite andb_true_r.
    destruct ds; reflexivity.
  - rewrite !andb_false_r. reflexivity.
Qed.

End DefaultFlags.

(** ** The sparse path sees the gradient coalesced *)

Section Coalesced.
Context {F : Type} {SF : Scalar F} {E : Type}.
Implicit Types (w : World F E) (p : Param F) (st : PState F).
Implicit Types (es acc : list (nat * F)).

Lemma increasing_app (l1 l2 : list nat) :
  increasing (l1 ++ l2) →
  increasing l2 ∧ ∀ x y, x ∈ l1 → y ∈ l2 → (x < y)%nat.
Proof.
  induction l1 as [|a l1 IH]; simpl.
  - intros H. split; [exact H|]. intros x y Hx. apply elem_of_nil in Hx. contradiction.
  - intros [Ha Hinc]. destruct (IH Hinc) as [H2 Hlt]. split; [exact H2|].
    intros x y Hx Hy. apply elem_of_cons in Hx as [->|Hx].
    + apply Ha. apply elem_of_app. right. exact Hy.
    + apply Hlt; assumption.
Qed.

Lemma sp_insert_last j v acc :
  (∀ k, k ∈ acc.*1 → (k < j)%nat) → sp_insert j v acc = acc ++ [(j, v)].
Proof.
  induction acc as [|[k u] acc IH]; intros Hlt; simpl; [reflexivity|].
  pose proof (Hlt k ltac:(left)) as Hk.
  replace (j <? k)%nat with false by (symmetry; apply Nat.ltb_ge; lia).
  replace (j =? k)%nat with false by (symmetry; apply Nat.eqb_neq; lia).
  rewrite IH; [reflexivity|]. intros k' Hk'. apply Hlt. right. exact Hk'.
Qed.

Lemma fold_sp_insert_increasing es acc :
  increasing (acc ++ es).*1 →
  fold_left (fun acc e => sp_insert e.1 e.2 acc) es acc = acc ++ es.
Proof.
  revert acc. induction es as [|[j v] es IH]; intros acc Hinc; simpl.
  - rewrite app_nil_r. reflexivity.
  - rewrite sp_insert_last.
    + rewrite IH; rewrite <- app_assoc; [reflexivity|exact Hinc].
    + rewrite fmap_app in Hinc. destruct (increasing_app _ _ Hinc) as [_ Hlt].
      intros k Hk. apply Hlt; [exact Hk|]. simpl. left.
Qed.

(** X10.  Coalescing is idempotent, and the sparse path of [step] sees a
    gradient only through its coalesced form: a gradient whose duplicate
    coordinates are already summed and sorted gives the very same update
    as the gradient that still has them. *)
Theorem X10_sparse_path_coalesces h clr st p (s : SparseTensor F) w :
  coalesce (coalesce s) = coalesce s
  ∧ sparse_update h clr st p (coalesce s) w = sparse_update h clr st p s w.
Proof.
  assert (Hc : coalesce (coalesce s) = coalesce s).
  { unfold coalesce at 1. cbn [ssize entries].
    rewrite fold_sp_insert_increasing.
    - destruct (coalesce s); reflexivity.
    - simpl. apply coalesce_increasing. }
  split; [exact Hc|]. unfold sparse_update. rewrite Hc. reflexivity.
Qed.

End Coalesced.

(** ** Bounds in exact arithmetic *)

Section RealBounds.
Context {E : Type}.
Implicit Types (w : World R E) (group : Group R) (p : Param R) (st : PState R).
Open Scope R_scope.

Lemma lookup_zip_with3 (f : R → R → R → R) (xs ys zs : list R) (i : nat) (v : R) :
  zip_with3 f xs ys zs !! i = Some v →
  ∃ x y z, xs !! i = Some x ∧ ys !! i = Some y ∧ zs !! i = Some z ∧ v = f x y z.
Proof.
  revert ys zs i. induction xs as [|x xs IH]; intros [|y ys] [|z zs] i Hv;
    simpl in Hv; try discriminate.
  destruct i as [|i]; simpl in *.
  - injection Hv as <-. eauto 8.
  - apply IH. exact Hv.
Qed.

Lemma adapt_pos (s : R) : 0 < sqrt s + 1 / 10 ^ 10.
Proof. pose proof (sqrt_pos s). pose proof eps_pos. lra. Qed.

Lemma abs_le_sqrt_acc (s g : R) : 0 <= s → Rabs g <= sqrt (s + 1 * g * g).
Proof.
  intros Hs. rewrite <- sqrt_Rsqr_abs. apply sqrt_le_1_alt. unfold Rsqr. lra.
Qed.

(** One coordinate of line 110, after line 108 has added [g * g] to the
    accumulator [s]. *)
Lemma dense_coord_bound (c x g s : R) :
  0 <= s → 0 <= c →
  let y := fadd x (fdiv (fmul (fneg c) g)
                        (fadd (fsqrt (fadd s (fmul (fmul (of_Z 1) g) g))) eps)) in
  Rabs (y - x) <= c ∧ 0 <= (x - y) * g.
Proof.
  intros Hs Hc. cbv [fadd fdiv fmul fneg fsqrt fsub fabs fsign fmax of_Z eps RScalar].
  set (D := sqrt (s + 1 * g * g) + 1 / 10 ^ 10).
  assert (HD : 0 < D) by apply adapt_pos.
  assert (Hg : Rabs g <= D).
  { pose proof (abs_le_sqrt_acc s g Hs). pose proof eps_pos. unfold D. lra. }
  assert (Hq : 0 < / D) by (apply Rinv_0_lt_compat; exact HD).
  assert (Hone : Rabs g * / D <= 1).
  { replace 1 with (D * / D) by (apply Rinv_r; lra).
    apply Rmult_le_compat_r; lra. }
  split.
  - replace (x + - c * g / D - x) with (- (c * (g * / D))) by (unfold Rdiv; ring).
    rewrite Rabs_Ropp, Rabs_mult, (Rabs_right c) by lra.
    rewrite Rabs_mult, (Rabs_right (/ D)) by lra.
    rewrite <- (Rmult_1_r c) at 2. apply Rmult_le_compat_l; assumption.
  - replace ((x - (x + - c * g / D)) * g) with (c * (g * g) * / D)
      by (unfold Rdiv; ring).
    apply Rmult_le_pos; [|lra]. apply Rmult_le_pos; [exact Hc|]. nra.
Qed.

(** X11.  In exact arithmetic, with a learning rate [clr >= 0] and an
    accumulator ['sum'] that is nowhere negative, a dense step moves every
    coordinate of the parameter by at most [clr], against the sign of its
    gradient coordinate, and leaves ['sum'] nowhere negative and nowhere
    smaller than it was. *)
Theorem X11_dense_step_bounded group h w p (g : Tensor R) st0 clr :
  heap w !! h = Some p → grad p = Some (DenseGrad g) →
  state (optimizer w) !! h = Some st0 →
  nonzero (weight_decay group) = false →
  l1_selected (optimizer w) group (data p) = Ok false →
  current_lr group (st_step st0 + 1) = Ok clr →
  same_size (st_sum st0) g = true → same_size (data p) g = true →
  0 <= clr → (∀ s, s ∈ elems (st_sum st0) → 0 <= s) →
  (step_param group h w).1 = Ok tt
  ∧ ∃ p' st',
      heap (step_param group h w).2 !! h = Some p'
      ∧ state (optimizer (step_param group h w).2) !! h = Some st'
      ∧ length (elems (data p')) = length (elems (data p))
      ∧ (∀ i x gi y, elems (data p) !! i = Some x → elems g !! i = Some gi →
                     elems (data p') !! i = Some y →
                     Rabs (y - x) <= clr ∧ 0 <= (x - y) * gi)
      ∧ (∀ i s s', elems (st_sum st0) !! i = Some s →
                   elems (st_sum st') !! i = Some s' → s <= s')
      ∧ (∀ s', s' ∈ elems (st_sum st') → 0 <= s').
Proof.
  intros Hp Hg Hst Hwd Hl1 Hclr Hsum Hx Hc Hpos.
  rewrite (step_param_dense group h w p g st0 clr) by assumption.
  cbn [fst snd]. split; [reflexivity|].
  eexists _, _. split; [apply updated_heap_lookup; exact Hp|].
  split; [apply updated_state_lookup|]. cbn [data st_sum].
  apply same_size_true in Hsum as [_ Hsl]. apply same_size_true in Hx as [_ Hxl].
  assert (Hacc : ∀ i s', elems (acc_sum st0 g) !! i = Some s' →
            ∃ s gi, elems (st_sum st0) !! i = Some s ∧ elems g !! i = Some gi
                    ∧ s' = s + 1 * gi * gi ∧ 0 <= s).
  { intros i s' Hs'. unfold acc_sum in Hs'. cbn [elems] in Hs'.
    apply lookup_zip_with_Some in Hs' as (s & gi & -> & Hs & Hgi).
    exists s, gi. repeat split; try assumption.
    apply Hpos. eapply list_elem_of_lookup_2. exact Hs. }
  split; [|split; [|split]].
  - unfold dense_value. cbn [elems].
    revert Hsl Hxl. unfold acc_sum. cbn [elems].
    generalize (elems (data p)) as xs, (elems g) as gs, (elems (st_sum st0)) as ss.
    induction xs as [|x xs IH]; intros [|g0 gs] [|s ss] Hsl Hxl; simpl in *;
      try discriminate; try reflexivity.
    f_equal. apply IH; lia.
  - intros i x gi y Hxi Hgi Hy. unfold dense_value in Hy. cbn [elems] in Hy.
    apply lookup_zip_with3 in Hy as (x' & gi' & s' & Hx' & Hg' & Hs' & ->).
    rewrite Hxi in Hx'. injection Hx' as <-. rewrite Hgi in Hg'. injection Hg' as <-.
    apply Hacc in Hs' as (s & gi' & _ & Hg' & -> & Hs).
    rewrite Hgi in Hg'. injection Hg' as <-.
    apply dense_coord_bound; assumption.
  - intros i s s' Hs Hs'. apply Hacc in Hs' as (s1 & gi & Hs1 & _ & -> & _).
    rewrite Hs in Hs1. injection Hs1 as <-. nra.
  - intros s' Hs'. apply list_elem_of_lookup_1 in Hs' as [i Hs'].
    apply Hacc in Hs' as (s & gi & _ & _ & -> & Hs). nra.
Qed.

(** One coordinate of lines 88-91. *)
Lemma l1_coord (c l a s : R) (n : Z) :
  let g_bar := fdiv a (of_Z n) in
  let v := fmul (fmul (fsign (fneg g_bar))
                      (fdiv (fmul c (of_Z n)) (fadd (fsqrt s) eps)))
                (fmax (fsub (fabs g_bar) l) (of_Z 0)) in
  (Rabs g_bar <= l → v = 0)
  ∧ (0 <= c * IZR n → v * g_bar <= 0)
  ∧ (0 <= c * IZR n → 0 <= l →
     Rabs v = c * IZR n / (sqrt s + 1 / 10 ^ 10) * Rmax (Rabs g_bar - l) 0
     ∧ Rabs v <= c * IZR n / (sqrt s + 1 / 10 ^ 10) * Rabs g_bar).
Proof.
  cbv [fadd fdiv fmul fneg fsqrt fsub fabs fsign fmax of_Z eps RScalar].
  set (gb := a / IZR n). set (D := sqrt s + 1 / 10 ^ 10).
  assert (HD : 0 < / D) by (apply Rinv_0_lt_compat, adapt_pos).
  assert (Hmax : 0 <= Rmax (Rabs gb - l) 0) by apply Rmax_r.
  assert (Hsg : Rsign (- gb) * gb = - Rabs gb).
  { unfold Rsign. destruct (Rlt_dec 0 (- gb)); [|destruct (Rlt_dec (- gb) 0)].
    - rewrite Rabs_left by lra. ring.
    - rewrite Rabs_right by lra. ring.
    - replace gb with 0 by lra. rewrite Rabs_R0. ring. }
  assert (Hsa : Rabs (Rsign (- gb)) <= 1 ∧ (gb ≠ 0 → Rabs (Rsign (- gb)) = 1)).
  { unfold Rsign. destruct (Rlt_dec 0 (- gb)); [|destruct (Rlt_dec (- gb) 0)].
    - rewrite Rabs_right by lra. split; [lra|reflexivity].
    - rewrite Rabs_left by lra. split; [lra|intros _; ring].
    - rewrite Rabs_R0. split; [lra|]. intros Hne. exfalso. apply Hne. lra. }
  split; [|split].
  - intros Hle. rewrite Rmax_right by lra. ring.
  - intros Hcn.
    replace (Rsign (- gb) * (c * IZR n / D) * Rmax (Rabs gb - l) 0 * gb)
      with (- Rabs gb * ((c * IZR n) * / D * Rmax (Rabs gb - l) 0))
      by (rewrite <- Hsg; unfold Rdiv; ring).
    pose proof (Rabs_pos gb).
    assert (0 <= c * IZR n * / D) by (apply Rmult_le_pos; lra).
    assert (0 <= c * IZR n * / D * Rmax (Rabs gb - l) 0) by (apply Rmult_le_pos; lra).
    assert (0 <= Rabs gb * (c * IZR n * / D * Rmax (Rabs gb - l) 0))
      by (apply Rmult_le_pos; lra).
    lra.
  - intros Hcn Hl.
    assert (Hk : 0 <= c * IZR n / D) by (unfold Rdiv; apply Rmult_le_pos; lra).
    rewrite !Rabs_mult, (Rabs_right (c * IZR n / D)), (Rabs_right (Rmax _ _)) by lra.
    pose proof (Rabs_pos gb) as Hgb.
    destruct (Req_dec gb 0) as [H0|Hne].
    + rewrite H0, Rabs_R0 in *. rewrite Rmax_right by lra. split; lra.
    + rewrite (proj2 Hsa Hne). split; [ring|].
      rewrite Rmult_1_l. apply Rmult_le_compat_l; [exact Hk|].
      apply Rmax_lub; lra.
Qed.

(** X12.  In exact arithmetic, the L1 proximal step truncates: a
    coordinate whose average gradient [g_bar = avg / step] has magnitude at
    most [l1_C] is set to exactly zero, whatever it was, and with
    [clr * step >= 0] every other coordinate gets the sign opposite to its
    average gradient. *)
Theorem X12_l1_truncates group h w p (g : Tensor R) st0 clr :
  heap w !! h = Some p → grad p = Some (DenseGrad g) →
  state (optimizer w) !! h = Some st0 →
  nonzero (weight_decay group) = false →
  l1_selected (optimizer w) group (data p) = Ok true →
  current_lr group (st_step st0 + 1) = Ok clr →
  state_fits g st0 →
  (step_param group h w).1 = Ok tt
  ∧ ∃ p',
      heap (step_param group h w).2 !! h = Some p'
      ∧ length (elems (data p')) = length (elems g)
      ∧ ∀ i a y, elems (acc_avg st0 g) !! i = Some a →
                 elems (data p') !! i = Some y →
                 let g_bar := a / IZR (st_step st0 + 1) in
                 (Rabs g_bar <= l1_C group → y = 0)
                 ∧ (0 <= clr * IZR (st_step st0 + 1) → y * g_bar <= 0).
Proof.
  intros Hp Hg Hst Hwd Hl1 Hclr Hfit.
  rewrite (step_param_unfold group h w p _ st0 Hp Hg Hst).
  rewrite (decayed_grad_off _ _ _ Hwd). cbn [st_step with_step].
  rewrite Hclr, Hl1. unfold dispatch.
  rewrite l1_update_dense by exact Hfit. cbn [fst snd st_step].
  split; [reflexivity|].
  eexists. split.
  { apply updated_heap_lookup. simpl. exact Hp. }
  cbn [data]. destruct Hfit as (Hsum & Havg & _).
  apply same_size_true in Hsum as [_ Hsl]. apply same_size_true in Havg as [_ Hal].
  split.
  - unfold l1_value, acc_avg, acc_sum. cbn [elems st_sum st_avg with_step].
    rewrite !length_zip_with. lia.
  - intros i a y Ha Hy. unfold l1_value in Hy. cbn [elems] in Hy.
    apply lookup_zip_with_Some in Hy as (a' & s & -> & Ha' & _).
    change (st_avg (with_step (st_step st0 + 1) st0)) with (st_avg st0) in Ha'.
    unfold acc_avg in Ha, Ha'. cbn [elems st_avg with_step] in Ha, Ha'.
    rewrite Ha in Ha'. injection Ha' as <-.
    pose proof (l1_coord clr (l1_C group) a s (st_step st0 + 1)) as (H1 & H2 & _).
    split; assumption.
Qed.

(** X13.  In exact arithmetic, with [lr >= 0] and [lr_decay >= 0] the
    learning rate [lr / (1 + (step - 1) * lr_decay)] is defined at every
    step from the first on, is [lr] at the first step, never negative and
    never larger at a later step than at an earlier one. *)
Theorem X13_learning_rate_decays group (n m : Z) :
  0 <= lr group → 0 <= lr_decay group → (1 <= n <= m)%Z →
  current_lr group 1 = Ok (lr group)
  ∧ ∃ cn cm, current_lr group n = Ok cn ∧ current_lr group m = Ok cm
             ∧ 0 <= cm ∧ cm <= cn ∧ cn <= lr group.
Proof.
  intros Hlr Hd [Hn Hm].
  assert (Hden : ∀ k : Z, (1 <= k)%Z → 1 <= 1 + IZR (k - 1) * lr_decay group).
  { intros k Hk. assert (0 <= IZR (k - 1)) by (apply IZR_le; lia).
    assert (0 <= IZR (k - 1) * lr_decay group) by (apply Rmult_le_pos; assumption).
    lra. }
  assert (Hok : ∀ k : Z, (1 <= k)%Z →
            current_lr group k = Ok (lr group / (1 + IZR (k - 1) * lr_decay group))).
  { intros k Hk. unfold current_lr, py_div. simpl.
    rewrite Rnonzero_true; [reflexivity|]. specialize (Hden k Hk). lra. }
  split.
  { rewrite Hok by lia. change (1 - 1)%Z with 0%Z.
    rewrite Rmult_0_l, Rplus_0_r. unfold Rdiv. rewrite Rinv_1, Rmult_1_r. reflexivity. }
  eexists _, _. split; [apply Hok; exact Hn|]. split; [apply Hok; lia|].
  pose proof (Hden n Hn) as Hdn. pose proof (Hden m ltac:(lia)) as Hdm.
  assert (Hnm : 1 + IZR (n - 1) * lr_decay group <= 1 + IZR (m - 1) * lr_decay group).
  { apply Rplus_le_compat_l, Rmult_le_compat_r; [exact Hd|]. apply IZR_le. lia. }
  set (dn := 1 + IZR (n - 1) * lr_decay group) in *.
  set (dm := 1 + IZR (m - 1) * lr_decay group) in *.
  assert (Hin : / dm <= / dn) by (apply Rinv_le_contravar; lra).
  assert (Hin1 : / dn <= 1).
  { rewrite <- Rinv_1. apply Rinv_le_contravar; lra. }
  assert (0 < / dm) by (apply Rinv_0_lt_compat; lra).
  unfold Rdiv. split; [apply Rmult_le_pos; lra|].
  split; [apply Rmult_le_compat_l; assumption|].
  rewrite <- (Rmult_1_r (lr group)) at 2. apply Rmult_le_compat_l; assumption.
Qed.

(** X14.  In exact arithmetic, when [1 + step * lr_decay] vanishes at the
    step a parameter is about to take (a negative [lr_decay]), the division
    of line 82 raises [ZeroDivisionError]: the parameter's step counter has
    been incremented and nothing else has changed. *)
Theorem X14_zero_division group h w p (g : Grad R) st0 :
  heap w !! h = Some p → grad p = Some g →
  state (optimizer w) !! h = Some st0 →
  nonzero (weight_decay group) = false →
  1 + IZR (st_step st0) * lr_decay group = 0 →
  step_param group h w
  = (Err ZeroDivisionError,
     with_state (insert h (with_step (st_step st0 + 1) st0)) w).
Proof.
  intros Hp Hg Hst Hwd Hz.
  rewrite (step_param_unfold group h w p _ st0 Hp Hg Hst).
  rewrite (decayed_grad_off _ _ _ Hwd). cbn [st_step with_step].
  unfold current_lr, py_div. simpl.
  replace (st_step st0 + 1 - 1)%Z with (st_step st0) by lia.
  rewrite Rnonzero_false by exact Hz. reflexivity.
Qed.

End RealBounds.

(** X11, witness: the first step of the scenario from zero. *)
Lemma X11_dense_step_bounded_witness :
  (step_param scenario_group 0 ex_world_real).1 = Ok tt.
Proof.
  refine (proj1 (X11_dense_step_bounded scenario_group 0%nat ex_world_real
            (mkParam (mkTensor [3%nat] [0; 0; 0]%R) (Some (DenseGrad scenario_grad)))
            scenario_grad (fresh_state (mkTensor [3%nat] [0; 0; 0]%R)) (1 / 10)%R
            _ _ _ _ _ _ _ _ _ _)); try reflexivity.
  - apply Rnonzero_false. reflexivity.
  - apply l1_selected_off. apply Rnonzero_false. reflexivity.
  - apply current_lr_no_decay. reflexivity.
  - lra.
  - intros s Hs. simpl in Hs.
    repeat (apply elem_of_cons in Hs as [->|Hs]; [simpl; lra|]).
    apply elem_of_nil in Hs. contradiction.
Defined.

(** X12, witness: the row vector over the reals. *)
Lemma X12_l1_truncates_witness :
  (step_param ex_group_l1_real 0 ex_world_row_real).1 = Ok tt.
Proof.
  refine (proj1 (X12_l1_truncates ex_group_l1_real 0%nat ex_world_row_real ex_row_real
            (mkTensor [1; 2]%nat [1; -1]%R) (fresh_state (data ex_row_real)) (1 / 10)%R
            _ _ _ _ _ _ _)); try reflexivity.
  - apply Rnonzero_false. reflexivity.
  - unfold ex_row_real. cbn [data]. rewrite l1_selected_rank_pos. f_equal.
    unfold l1_condition. cbn [l1_C ex_group_l1_real].
    rewrite Rnonzero_true by lra. reflexivity.
  - apply current_lr_no_decay. reflexivity.
  - repeat split.
Defined.

(** X13, witness: [lr = 0.1] and [lr_decay = 0.5] at steps one and three. *)
Lemma X13_learning_rate_decays_witness :
  current_lr ex_group_decaying 1 = Ok (lr ex_group_decaying).
Proof.
  refine (proj1 (X13_learning_rate_decays ex_group_decaying 1 3 _ _ _)).
  - simpl. lra.
  - simpl. lra.
  - lia.
Defined.

(** X14, witness: [lr_decay = -1] at the second step. *)
Lemma X14_zero_division_witness :
  (step_param ex_group_vanishing 0 ex_world_vanishing).1 = Err ZeroDivisionError.
Proof.
  refine (f_equal fst (X14_zero_division ex_group_vanishing 0%nat ex_world_vanishing
            (mkParam (mkTensor [3%nat] [0; 0; 0]%R) (Some (DenseGrad scenario_grad)))
            (DenseGrad scenario_grad)
            (with_step 1 (fresh_state (mkTensor [3%nat] [0; 0; 0]%R))) _ _ _ _ _));
    try reflexivity.
  - apply Rnonzero_false. reflexivity.
  - simpl. lra.
Defined.

(** ** Step counters *)

Section Counters.
Context {F : Type} {SF : Scalar F} {E L : Type}.
Implicit Types (w : World F E) (group : Group F) (p : Param F) (st : PState F).

Lemma visits_counters (l : list (Group F * nat)) w w' h p g :
  for_each l (fun gh => step_param gh.1 gh.2) w = (Ok tt, w') →
  heap w !! h = Some p → grad p = Some g →
  step_of w' h
  = (fun k => (k + Z.of_nat (count_occ Nat.eq_dec l.*2 h))%Z) <$> step_of w h.
Proof.
  revert w p. induction l as [|[g0 h0] l IH]; intros w p H Hp Hg.
  - simpl in H. injection H as <-. simpl.
    destruct (step_of w h) as [k|]; simpl; [|reflexivity]. f_equal. lia.
  - simpl in H. unfold bind in H.
    destruct (step_param g0 h0 w) as [[[]|e] w1] eqn:Hhead; [|discriminate].
    pose proof (step_param_frame g0 h0 w) as (_ & _ & _ & _ & Hf).
    rewrite Hhead in Hf. simpl in Hf. specialize (Hf h). rewrite Hp in Hf.
    destruct (heap w1 !! h) as [p1|] eqn:Hp1; [|discriminate].
    simpl in Hf. injection Hf as Hf.
    rewrite (IH w1 p1 H Hp1 ltac:(congruence)).
    rewrite fmap_cons. cbn [snd count_occ].
    destruct (Nat.eq_dec h0 h) as [->|Hne].
    + destruct (state (optimizer w) !! h) as [st0|] eqn:Hst.
      2:{ rewrite (step_param_no_state g0 h w p g Hp Hg Hst) in Hhead. discriminate. }
      destruct (step_param_effect g0 h w p g st0 Hp Hg Hst) as [_ Hn].
      rewrite Hhead in Hn. simpl in Hn. rewrite Hn.
      unfold step_of. rewrite Hst. simpl. f_equal. lia.
    + destruct (step_param_others g0 h0 w h ltac:(congruence)) as [_ Hs].
      rewrite Hhead in Hs. simpl in Hs. unfold step_of. rewrite Hs. reflexivity.
Qed.

(** X15.  A [step()] that returns advances the step counter of a
    parameter that has a gradient by the number of times the groups list
    the parameter: by one when it is registered once, by nothing when it
    is not registered. *)
Theorem X15_step_counters w w' h p g :
  step (L:=L) None w = (Ok None, w') →
  heap w !! h = Some p → grad p = Some g →
  step_of w' h
  = (fun k => (k + Z.of_nat (count_occ Nat.eq_dec (registered (optimizer w)) h))%Z)
      <$> step_of w h.
Proof.
  intros Hstep Hp Hg. rewrite step_None in Hstep.
  destruct (step_groups (param_groups (optimizer w)) w) as [[[]|e] w1] eqn:Hloop;
    [|discriminate].
  injection Hstep as <-. rewrite step_groups_visits in Hloop.
  rewrite <- visits_registered. exact (visits_counters _ w w1 h p g Hloop Hp Hg).
Qed.

End Counters.

(** X15, witness: a parameter listed twice is stepped twice. *)
Lemma X15_step_counters_witness :
  step_of (step (L:=unit) None ex_world_twice).2 0 = Some 2%Z.
Proof.
  refine (eq_trans (X15_step_counters (L:=unit) ex_world_twice
                      (step (L:=unit) None ex_world_twice).2 0%nat ex_dense
                      (DenseGrad (vec [0.5; -0.5]%float)) _ _ _) _);
    vm_compute; reflexivity.
Defined.

(** * [int] on configuration values *)

(** What [int] takes and what it refuses. *)
Lemma py_int_examples :
  py_int "50" = Ok 50%Z ∧ py_int "+50" = Ok 50%Z ∧ py_int " 50" = Ok 50%Z
  ∧ py_int "50 " = Ok 50%Z ∧ py_int "1_0" = Ok 10%Z ∧ py_int "-007" = Ok (-7)%Z
  ∧ py_int "" = Err ValueError ∧ py_int "-" = Err ValueError
  ∧ py_int "+ 5" = Err ValueError ∧ py_int "1__0" = Err ValueError
  ∧ py_int "_1" = Err ValueError ∧ py_int "1_" = Err ValueError
  ∧ py_int "5 0" = Err ValueError ∧ py_int "1.0" = Err ValueError.
Proof. repeat split; vm_compute; reflexivity. Qed.

(** [int] raises nothing but [ValueError]. *)
Lemma py_int_raises (s : string) (e : PyError) : py_int s = Err e → e = ValueError.
Proof. unfold py_int. repeat case_match; congruence. Qed.

(** White space before the numeral does not count. *)
Lemma py_int_lstrip (c : ascii) (s : string) :
  py_isspace c = true → py_int (String c s) = py_int s.
Proof.
  intros Hc. unfold py_int, py_strip. cbn [list_ascii_of_string py_lstrip].
  rewrite Hc. reflexivity.
Qed.

(** * Further properties of [learn.py] *)

Section TrainStoreEffect.
Context {Example Seed Fl Ev Out : Type}.
Variable shuffle_examples : Seed → list Example → list Example * Seed.
Variable py_float : string → Res Fl.
Variable trainer_train : TrainCall Example Fl Ev → M (TrainStore Example Seed) Out.
Implicit Types (ts : TrainStore Example Seed) (config : gmap string string).

Ltac keeps_eq :=
  repeat match goal with
         | |- PreOrder _ => apply _
         | |- keeps eq (ret _) => apply (keeps_ret eq)
         | |- keeps eq (lift _) => apply (keeps_lift eq)
         | |- keeps eq (gets _) => intros ?; reflexivity
         | |- keeps eq (bind _ _) => apply (keeps_bind eq)
         | |- keeps eq _ => progress cbv zeta
         | |- ∀ _, _ => intros ?
         end.

Lemma bind_snd_keeps {W A B} (m : M W A) (k : A → M W B) w :
  (∀ a, keeps eq (k a)) → (bind m k w).2 = (m w).2.
Proof.
  intros Hk. unfold bind. destruct (m w) as [[a|e] w1]; simpl; [|reflexivity].
  symmetry. apply Hk.
Qed.

Lemma shuffle_store name ts examples :
  data_sets ts !! name = Some examples →
  shuffle shuffle_examples name ts = (Ok tt, shuffled shuffle_examples ts name examples).
Proof.
  intros Hdata. unfold shuffle, shuffled. rewrite Hdata.
  destruct (shuffle_examples (random_state ts) examples). reflexivity.
Qed.

(** X16.  Whatever [train_from_config] does before it calls the trainer,
    and however that ends, its only effect on the data sets is the
    shuffle: it happens exactly when the configuration names a data set
    that exists and has a [data_size]; in every other case the data sets
    and the random state are as they were. *)
Theorem X16_train_call_store config (evaluations : list Ev) ts :
  (train_call shuffle_examples py_float config evaluations ts).2
  = match config !! "data"%string with
    | Some name =>
        match data_sets ts !! name, config !! "data_size"%string with
        | Some examples, Some _ => shuffled shuffle_examples ts name examples
        | _, _ => ts
        end
    | None => ts
    end.
Proof.
  unfold train_call.
  destruct (config !! "data"%string) as [name|] eqn:Hname.
  2:{ unfold bind at 1, lift, config_get. rewrite Hname. reflexivity. }
  rewrite (bind_lift_ok _ _ _ name) by (unfold config_get; rewrite Hname; reflexivity).
  unfold bind at 1.
  destruct (data_sets ts !! name) as [examples|] eqn:Hdata; [|reflexivity].
  rewrite bind_snd_keeps.
  2:{ intros _. keeps_eq. }
  destruct (config !! "data_size"%string) as [size|]; [|reflexivity].
  rewrite bind_snd_keeps.
  2:{ intros _. keeps_eq. }
  rewrite (shuffle_store name ts examples Hdata). reflexivity.
Qed.

(** X17.  With [data_size] in the configuration, a call that fails after
    line 19 leaves the data set shuffled and the random state advanced:
    when [data_size] is no integer the call raises what [int] raises, and
    when there is no evaluation it raises [IndexError]; the trainer is not
    reached. *)
Theorem X17_failure_after_shuffle config (evaluations : list Ev) ts name examples size :
  config !! "data"%string = Some name →
  data_sets ts !! name = Some examples →
  config !! "data_size"%string = Some size →
  (∀ e, py_int size = Err e →
        train_from_config shuffle_examples py_float trainer_train config evaluations ts
        = (Err e, shuffled shuffle_examples ts name examples))
  ∧ (∀ n, py_int size = Ok n → evaluations = [] →
          train_from_config shuffle_examples py_float trainer_train config evaluations ts
          = (Err IndexError, shuffled shuffle_examples ts name examples)).
Proof.
  intros Hname Hdata Hsize.
  assert (Hsh := shuffle_store name ts examples Hdata).
  unfold train_from_config, train_call. split.
  - intros e He. unfold bind at 1 2. unfold lift at 1, config_get. rewrite Hname.
    unfold bind at 1. rewrite Hdata, Hsize.
    unfold bind at 1 2. rewrite Hsh.
    unfold bind at 1, lift at 1. rewrite He. reflexivity.
  - intros n Hn ->. unfold bind at 1 2. unfold lift at 1, config_get. rewrite Hname.
    unfold bind at 1. rewrite Hdata, Hsize.
    unfold bind at 1 2. rewrite Hsh.
    unfold bind at 1, lift at 1. rewrite Hn. reflexivity.
Qed.

(** X18.  A configuration without ["data"], or one that names a data set
    that does not exist, makes [train_from_config] raise [KeyError] on
    line 17: nothing is shuffled and the trainer is not reached. *)
Theorem X18_lookup_errors config (evaluations : list Ev) ts :
  (config !! "data"%string = None →
   train_from_config shuffle_examples py_float trainer_train config evaluations ts
   = (Err (KeyError "data"), ts))
  ∧ (∀ name, config !! "data"%string = Some name → data_sets ts !! name = None →
     train_from_config shuffle_examples py_float trainer_train config evaluations ts
     = (Err (KeyError name), ts)).
Proof.
  unfold train_from_config, train_call. split.
  - intros Hname. unfold bind at 1 2. unfold lift at 1, config_get. rewrite Hname.
    reflexivity.
  - intros name Hname Hdata. unfold bind at 1 2. unfold lift at 1, config_get.
    rewrite Hname. unfold bind at 1. rewrite Hdata. reflexivity.
Qed.

(** X19.  Without [data_size] in the configuration, a call that reaches
    the trainer hands it the named data set as it is, the first evaluation
    as the main one and the rest as the others, and the optimizer type as
    the configuration has it; the data sets and the random state are
    untouched. *)
Theorem X19_without_data_size config (evaluations : list Ev) ts ts'
    (call : TrainCall Example Fl Ev) :
  config !! "data_size"%string = None →
  train_call shuffle_examples py_float config evaluations ts = (Ok call, ts') →
  ts' = ts
  ∧ (∃ name, config !! "data"%string = Some name
             ∧ data_sets ts !! name = Some (tc_data call))
  ∧ evaluations = tc_evaluation call :: tc_other_evaluations call
  ∧ config !! "optimizer_type"%string = Some (tc_optimizer_type call).
Proof.
  intros Hsize H. unfold train_call in H.
  apply bind_lift_inv in H as (name & Hname & H).
  unfold config_get in Hname.
  destruct (config !! "data"%string) as [name'|] eqn:Hd; [|discriminate].
  injection Hname as ->.
  apply bind_inv in H as ([] & w1 & H1 & H).
  destruct (data_sets ts !! name) as [examples|] eqn:Hdata; [|discriminate].
  injection H1 as <-. rewrite Hsize in H.
  apply bind_inv in H as ([] & w2 & H2 & H). unfold ret in H2. injection H2 as <-.
  apply bind_lift_inv in H as (ev & Hev & H).
  do 3 (apply bind_lift_inv in H as (? & _ & H)).
  apply bind_lift_inv in H as (ot & Hot & H).
  do 4 (apply bind_lift_inv in H as (? & _ & H)).
  apply bind_inv in H as (dat & w5 & H5 & H).
  unfold gets in H5. rewrite Hdata in H5. cbn [default] in H5.
  injection H5 as <- <-. unfold ret in H. injection H as <- <-. cbn.
  split; [reflexivity|]. split; [eauto|]. split.
  - destruct evaluations as [|e0 evs]; [discriminate|]. injection Hev as <-.
    reflexivity.
  - unfold config_get in Hot.
    destruct (config !! "optimizer_type"%string); [|discriminate].
    injection Hot as <-. reflexivity.
Qed.

End TrainStoreEffect.

(** X17, witness: [data_size = 50] and no evaluation. *)
Lemma X17_failure_after_shuffle_witness :
  (train_from_config ex_shuffle ex_py_float (fun _ => ret tt) ex_config
     ([] : list unit) ex_train_store).1 = Err IndexError.
Proof.
  refine (f_equal fst
            (proj2 (X17_failure_after_shuffle (Out:=unit) ex_shuffle ex_py_float
                      (fun _ => ret tt) ex_config ([] : list unit) ex_train_store
                      "train"%string (seq 0 200) "50"%string _ _ _) 50%Z _ _));
    vm_compute; reflexivity.
Defined.

(** X18, witness: the empty configuration. *)
Lemma X18_lookup_errors_witness :
  train_from_config ex_shuffle ex_py_float (fun _ => ret tt) ∅
    ([] : list unit) ex_train_store
  = (Err (KeyError "data"), ex_train_store).
Proof.
  refine (proj1 (X18_lookup_errors (Out:=unit) ex_shuffle ex_py_float
                   (fun _ => ret tt) ∅ ([] : list unit) ex_train_store) _).
  reflexivity.
Defined.

(** X19, witness: the example configuration without [data_size]. *)
Lemma X19_without_data_size_witness :
  ∃ call ts',
    train_call ex_shuffle ex_py_float ex_config_whole [tt] ex_train_store = (Ok call, ts')
    ∧ ts' = ex_train_store.
Proof.
  eexists _, _. split; [vm_compute; reflexivity|].
  refine (proj1 (X19_without_data_size ex_shuffle ex_py_float ex_config_whole [tt]
                   ex_train_store _ _ _ _)); vm_compute; reflexivity.
Defined.
